(* ===== verification/_CoqProject ===== *)
-Q . S2P
Prelude.v
JsCollections.v
Registry.v
Lifecycle.v
Manager.v
Rpc.v
Bridge.v
Layout.v
FileResource.v
Services.v
