(* ===== verification/Prelude.v ===== *)
(** * A verification library for the feature-extension core of opensumi-core

    This development models, as executable Rocq definitions, the TypeScript
    sources under [src/packages/] and proves what they do, including where they
    depart from [spec.md].

    ** The program

    The core is [feature-extension/src/browser/extension.service.ts]. It has
    four classes:
    - [FeatureExtensionCapabilityRegistryImpl]: scan directories, candidate
      paths, extra metadata fields, and a JS [Map] of extension types;
    - [FeatureExtension]: one extension with its asynchronous lifecycle
      ([enable], [disable], [activate], [deactivate], [dispose]), guarded by
      the in-flight promises [_enabling] and [_activating];
    - [FeatureExtensionManagerServiceImpl]: runs the capability contributions
      against the registry, enables every known extension, then starts the
      extension process and its RPC protocol, and later asks the extension
      host, through a proxy, to activate its first extension;
    - [FeatureExtensionProcessManageImpl]: starts the extension process.
    The manager talks to the extension host through [RPCProtocol] of
    [@ali/ide-connection], whose code is not in the repository. The other
    sources are host-side services beside this core: the layout bridge
    [MainThreaLayout], the chat session holder [ChatInternalService], the file
    resource wrapper [FileResource] with its resolver, and
    [HashCalculateContribution].

    ** Files, in dependency order

    - [Prelude] (this file): the exception/outcome type [outcome] with
      stdpp's monad notations, and the state-and-exception monad [SM] for
      async methods. Also the hint databases [s2p] and [s2p_rw], the shared
      tactics, and generic list lemmas.
    - [JsCollections]: the JavaScript runtime pieces the code relies on.
      These are [Array.prototype.indexOf], [push] and [splice(i, 1)], and an
      insertion-ordered [Map] ([jsmap]) with [has/get/set/delete/values].
      They come with their laws. This is the JS semantics, not repository
      code.
    - [Registry]: the registry as a record [registry] and one function per
      method. A method that returns an [IDisposable] returns the new state
      together with the disposer closure, modelled as a function
      [registry -> registry]. The free identifier [name] that
      [registerFeatureExtensionType] uses as its key (the browser global
      [window.name]) is the section variable [window_name]. The code reads
      the global at every call, and the global is writable; nothing under
      [src/] assigns it, so the model fixes it for a whole run. The
      theorems hold for every value of it, but a page script that renames
      the window between two registrations is not covered: the map could
      then hold two keys. [reg_run] runs any sequence of client operations,
      disposers included.
    - [Lifecycle]: [FeatureExtension] under JavaScript's cooperative
      concurrency. Its fields form the record [ext]. Every async method is
      cut at its [await]s into frames, and a thread is a stack of frames. A
      [world] holds the fields, the pending capability callbacks (the
      promises of [onEnable]/[onActivate]), the threads, a fresh-identity
      counter and an event log. [step_fn] is the executable step: run one
      segment of one thread, start a new call, or settle a pending
      capability promise. [reachable] is its closure from [init_world]. The
      file also has an abstract phase machine per hook ([phase_step]: idle,
      in flight, done, cleared), which the detailed model refines.
    - [Manager]: the manager and the process manager, as computations of a
      state-and-exception monad [M] over the record [manager]. The node
      service, the channel handler and the contributions are section
      variables that fix the outcome of each external call. The extension
      host is reached through the class [ExtHostService]; [script_host] is a
      host that answers from a fixed list.
    - [Rpc]: the RPC protocol, modelled from [spec.md] (sections 3, 4.4, 5,
      7, 8) since its code is outside [src/]. It has two endpoints, each
      with published services, a pending call table keyed by correlation
      id, an id counter and a log of settled calls. The channel is two FIFO
      queues. Dispatched methods are jobs that finish in any order. Values
      cross the channel as tokens ([encode]/[decode]). [rpc_step] is the
      step and [rpc_reachable] its closure.
    - [Bridge]: the instance [bridge_host] of [ExtHostService] whose state
      is an RPC connection. Each awaited proxy call of [activeExtension] is a
      proxy call of the main side, served by the extension side as soon as
      it arrives.
    - [Layout]: [MainThreaLayout]
      (kaitian-extension/src/browser/kaitian/main.thread.layout.ts). The
      record [layout] holds the bridge's [handlerMap], its event-bus
      listeners and [addDispose] list, and the layout service it queries:
      the registered tab bars and the listeners on each handler. The
      methods [$setSize], [$activate], [$deactivate] and [$connectTabbar]
      are [remote_setSize] and so on. Tab-bar registration and activation
      are external events. [layout_step] takes a call or an event.
    - [FileResource]: [FileResource] and [FileResourceResolver]
      (file-service/src/browser/file-service-contribution.ts). Each async
      method runs in the monad [SM] of this file over the resource and the
      state of the client. The client is the class [FileServiceClient];
      [mem_client] is an in-memory instance.
    - [Services]: [ChatInternalService] (Module [Chat], over the class
      [ChatManager]) and [HashCalculateContribution] (Module
      [HashCalculate]).

    ** Theorems

    - Lifecycle (C1-C11, C30): invariants proved by rule induction on
      [reachable], over every interleaving:
      - at most one [onEnable] (and one [onActivate]) callback is in flight;
      - callbacks are started at most once more than they fail;
      - an in-flight hook is never also done.
      The detailed model refines the phase machine, and the cleared phase is
      absorbing. So after [disable] a later [enable] never runs the callback
      again: the extension stays disabled. Further theorems hold from every
      state (or every reachable state) that meets their conditions:
      - two interleaved [deactivate]s, from any activated state, call the
        same disposer twice;
      - the first [enable] returns before its callback settles, and a second
        caller run alone then blocks;
      - sequential [dispose] is idempotent;
      - [activate] needs no prior [enable]: its callback's success leaves
        the extension activated and disabled.
    - Registry (C12-C14, C21-C26): the scan directories stay duplicate-free.
      Adding a fresh directory, candidate or metadata field and then
      disposing of it is a round trip. The key bug is proved: because the map
      key is [name] rather than [type.name], the type map never holds more
      than one type, and a second type with the same name replaces the first
      without error. The non-fresh cases show what the disposers remove.
    - Manager (C15-C20): the contribution loop isolates failures. The order
      of calls in [activate()] is fixed, and a failure to start the process
      reaches the caller. [createFeatureExtensionNodeProcess] is not
      idempotent. [activeExtension] throws on an empty extension list and
      otherwise activates the first one. The loop of [activate()] that
      enables extensions runs over [this.extensions], which nothing fills,
      because discovery is commented out.
    - Bridge (C27-C29): [activeExtension] over the RPC model. On success
      both proxy calls settle with the host's values. On a closed channel it
      rejects with [ChannelClosedError]. On an unpublished method it rejects
      with a [DispatchError] and the channel stays usable. The protocol
      facts used here are theorems of [Rpc]:
      - exactly-once settlement in every reachable state;
      - closing settles everything and stops dispatch;
      - the value round trip;
      - dispatch errors stay local;
      - replies matched by id when they arrive out of order.
    - Layout (C31-C33): by rule induction over every sequence of calls and
      events, messages to the extension host only name connected,
      registered tab bars. Two [$connectTabbar] calls before registration
      forward every activation twice. [dispose()] leaves the handler
      listeners in place.
    - FileResource (C34-C36): a rejection of the client's [getFileStat]
      escapes the [try] of [getFileStat()] and makes [resolve] reject.
      [sync()] reports exactly a file that appeared, disappeared or became
      newer. Save-then-read over the in-memory client returns what was
      saved.
    - Services: lemmas only. The chat service's session is always the one
      live session, [clearSessionModel] starts a fresh one, and [dispose]
      leaves it live. [initialize] wraps the hash service's failure.

    ** Bounds and fuel

    The lifecycle and registry definitions use no fuel. The step relations
    are not required to terminate: a hung capability callback hangs its
    extension, as [spec.md] says. Promise, disposer and correlation ids are
    unbounded [nat]s from counters. [run_stack] runs one call alone for at
    most 16 segments. A method has at most 12, and when no callback is
    pending every method run alone returns ([call_alone_total], C30).
    [decode] takes fuel to bound the nesting of
    values. The length of the token list is enough ([decode_encode_fuel],
    [value_size_le_encode]). [deliver_n] and [finish_n] take the exact
    number of frames and jobs present.

    ** What is not modelled, and what is left

    Every source file under [src/] is modelled. Not modelled:
    - dependency injection ([@Autowired]);
    - logging output (a log entry only records that an error was logged);
    - [localize] and [path.join] in [asAbsolute];
    - the channel wiring inside [initExtProtocol] ([RPCServiceCenter],
      [Emitter]), which only connects the channel to the protocol;
    - the discovery code that is commented out in [activate()];
    - the inside of the collaborators: the layout service, the file service,
      the chat manager and the hash service. Each is an interface or an
      external event, with a small executable instance where witnesses need
      one.
    The methods of [FileResource] and the chat service run one at a time:
    interleavings of their [await]s (a [sync()] racing a save) are left for
    a finer model like that of [Lifecycle].
*)

From stdpp Require Export base list gmap strings.

Declare Scope s2p_scope.
Delimit Scope s2p_scope with s2p.
Open Scope s2p_scope.

Create HintDb s2p.
Create Rewrite HintDb s2p_rw.

(** ** Exceptions

    A thrown JS [Error] is represented by its message. [outcome A] is the result
    of a synchronous method that may throw. *)
Definition js_error := string.

Inductive outcome (A : Type) : Type :=
| Ret (a : A)
| Throw (e : js_error).
Arguments Ret {A} a.
Arguments Throw {A} e.

#[export] Instance outcome_ret : MRet outcome := fun _ a => Ret a.
#[export] Instance outcome_bind : MBind outcome :=
  fun _ _ f m => match m with Ret a => f a | Throw e => Throw e end.
#[export] Instance outcome_fmap : FMap outcome :=
  fun _ _ f m => match m with Ret a => Ret (f a) | Throw e => Throw e end.

Notation "'throw' e" := (Throw e) (at level 10) : s2p_scope.

Definition is_throw {A} (m : outcome A) : bool :=
  match m with Throw _ => true | Ret _ => false end.

Lemma outcome_bind_ret {A B} (a : A) (f : A → outcome B) :
  (Ret a ≫= f) = f a.
Proof. reflexivity. Qed.

Lemma outcome_bind_throw {A B} (e : js_error) (f : A → outcome B) :
  (Throw e ≫= f) = Throw e.
Proof. reflexivity. Qed.

Lemma outcome_bind_Ret_inv {A B} (m : outcome A) (f : A → outcome B) b :
  (m ≫= f) = Ret b → ∃ a, m = Ret a ∧ f a = Ret b.
Proof. destruct m; simpl; [eauto | discriminate]. Qed.

#[export] Hint Rewrite @outcome_bind_ret @outcome_bind_throw : s2p_rw.

(** ** Shared tactics *)

(** Invert a hypothesis and substitute its equations. *)
Ltac inv_clear H := inversion H; subst; clear H.

(** Case on every [if]/[match] scrutinee of the goal, then simplify. *)
Ltac split_ifs :=
  repeat (case_match; simplify_eq/=); try done.

(** Close a decidable proposition on concrete data by evaluation. *)
Ltac decide_prop := apply (bool_decide_unpack _); vm_compute; exact I.

(** ** Generic list lemmas *)

Lemma NoDup_app_single {A} (l : list A) (x : A) :
  NoDup l → x ∉ l → NoDup (l ++ [x]).
Proof.
  intros Hl Hx. apply NoDup_app. split_and!; [done | | by apply NoDup_singleton].
  intros y Hy ->%list_elem_of_singleton. done.
Qed.

Lemma delete_NoDup {A} (l : list A) (i : nat) : NoDup l → NoDup (delete i l).
Proof. intros Hl. eapply sublist_NoDup; [exact Hl | apply sublist_delete]. Qed.

#[export] Hint Resolve NoDup_app_single delete_NoDup : s2p.

Lemma filter_neq_notin {A} `{EqDecision A} (l : list A) x :
  x ∉ l → filter (λ y, y ≠ x) l = l.
Proof.
  induction l as [|y l IH]; intros Hx; [done |].
  rewrite filter_cons_True by set_solver. f_equal. apply IH. set_solver.
Qed.

(** Removing the one copy of [x] from a duplicate-free list is a
    permutation step. *)
Lemma NoDup_filter_neq_perm {A} `{EqDecision A} (l : list A) (x : A) :
  NoDup l → x ∈ l → l ≡ₚ x :: filter (λ y, y ≠ x) l.
Proof.
  induction l as [|y t IH]; intros Hnd Hx; [set_solver |].
  apply NoDup_cons in Hnd as [Hy Hnd].
  destruct (decide (y = x)) as [->|Hne].
  - rewrite filter_cons_False by tauto. by rewrite filter_neq_notin.
  - rewrite filter_cons_True by done. rewrite IH at 1 by (done || set_solver).
    apply Permutation_swap.
Qed.

Lemma fmap_pair_fst {A B} (l : list A) (b : B) : ((λ a, (a, b)) <$> l).*1 = l.
Proof. rewrite <- list_fmap_compose. apply list_fmap_id. Qed.

(** Reading and removing the last elements of a list by index, as the
    job queues of the RPC model do. *)
Lemma lookup_snoc_length {A} (l : list A) a : (l ++ [a]) !! length l = Some a.
Proof. by apply list_lookup_middle. Qed.

Lemma delete_snoc_length {A} (l : list A) a : delete (length l) (l ++ [a]) = l.
Proof. by rewrite (delete_middle l [] a), app_nil_r. Qed.

Lemma lookup_snoc2_length {A} (l : list A) a b : (l ++ [a; b]) !! S (length l) = Some b.
Proof.
  change (l ++ [a; b]) with (l ++ [a] ++ [b]). rewrite app_assoc.
  replace (S (length l)) with (length (l ++ [a])) by (rewrite length_app; simpl; lia).
  apply lookup_snoc_length.
Qed.

Lemma delete_snoc2_length {A} (l : list A) a b : delete (S (length l)) (l ++ [a; b]) = l ++ [a].
Proof.
  change (l ++ [a; b]) with (l ++ [a] ++ [b]). rewrite app_assoc.
  replace (S (length l)) with (length (l ++ [a])) by (rewrite length_app; simpl; lia).
  apply delete_snoc_length.
Qed.

#[export] Hint Rewrite @lookup_snoc_length @delete_snoc_length @lookup_snoc2_length
  @delete_snoc2_length : s2p_rw.

(** ** A state-and-exception monad

    [SM S A] is an [async] method over the state [S] whose promise either
    resolves with an [A] or rejects with a [js_error]. The state it leaves
    is kept in both cases. *)
Definition SM (S A : Type) : Type := S → outcome A * S.

#[export] Instance SM_ret {S} : MRet (SM S) := λ A a s, (Ret a, s).
#[export] Instance SM_bind {S} : MBind (SM S) := λ A B f m s,
  match m s with (Ret a, s') => f a s' | (Throw e, s') => (Throw e, s') end.

Definition sm_throw {S A} (e : js_error) : SM S A := λ s, (Throw e, s).
Definition sm_lift {S A} (o : outcome A) : SM S A := λ s, (o, s).
Definition sm_get {S} : SM S S := λ s, (Ret s, s).
Definition sm_modify {S} (f : S → S) : SM S unit := λ s, (Ret tt, f s).
(** A call whose promise is not awaited: it runs to completion now, its
    result and its rejection are dropped. *)
Definition sm_detach {S A} (m : SM S A) : SM S unit := λ s, (Ret tt, (m s).2).
(** [try { m } catch (e) { h(e) }] *)
Definition sm_try {S A} (m : SM S A) (h : js_error → SM S A) : SM S A :=
  λ s, match m s with (Throw e, s') => h e s' | r => r end.

Lemma sm_bind_ret {S A B} (a : A) (f : A → SM S B) s : (mret a ≫= f) s = f a s.
Proof. reflexivity. Qed.

Lemma sm_bind_throw {S A B} (e : js_error) (f : A → SM S B) s : (sm_throw e ≫= f) s = (Throw e, s).
Proof. reflexivity. Qed.

(** Unfold the monad's operations and compute. *)
Ltac sm_simpl :=
  unfold mbind, SM_bind, mret, SM_ret, sm_throw, sm_lift, sm_get, sm_modify, sm_try, sm_detach in *;
  simpl in *.

(** Reading and updating the threads appended after a list of [n]
    existing ones, by index. *)
Lemma lookup_app_cons_length {A} (l r : list A) a : (l ++ a :: r) !! length l = Some a.
Proof. by apply list_lookup_middle. Qed.

Lemma lookup_app_cons2_length {A} (l r : list A) a b : (l ++ a :: b :: r) !! S (length l) = Some b.
Proof. rewrite lookup_app_r by lia. by rewrite Nat.sub_succ_l, Nat.sub_diag by lia. Qed.

Lemma insert_app_cons_length {A} (l r : list A) a x : <[length l := x]> (l ++ a :: r) = l ++ x :: r.
Proof. rewrite insert_app_r_alt, Nat.sub_diag by lia. done. Qed.

Lemma insert_app_cons2_length {A} (l r : list A) a b x :
  <[S (length l) := x]> (l ++ a :: b :: r) = l ++ a :: x :: r.
Proof. rewrite insert_app_r_alt by lia. by rewrite Nat.sub_succ_l, Nat.sub_diag by lia. Qed.

#[export] Hint Rewrite @lookup_app_cons_length @lookup_app_cons2_length
  @insert_app_cons_length @insert_app_cons2_length : s2p_rw.
