(* ===== verification/JsCollections.v ===== *)
(** * JavaScript collections used by the extension service

    This file models the JS runtime, not code of the repository:
    - [Array.prototype.indexOf], [push] and [splice(start, 1)] on lists;
    - [Map], as a list of entries in insertion order. [Map.prototype.set] on
      a present key updates the entry in place. [values()] and [forEach]
      follow insertion order.
    Each operation comes with the laws the component files use. *)

From S2P Require Import Prelude.
From Stdlib Require Import ZArith Lia.

(** ** Arrays *)
Section JsArray.
Context {A : Type} `{EqDecision A}.

Fixpoint js_indexOf_from (l : list A) (x : A) (i : Z) : Z :=
  match l with
  | [] => (-1)%Z
  | y :: t => if decide (y = x) then i else js_indexOf_from t x (i + 1)
  end.

(** [l.indexOf(x)]: the first index of [x], or [-1]. *)
Definition js_indexOf (l : list A) (x : A) : Z := js_indexOf_from l x 0.

(** [l.push(x)] *)
Definition js_push (l : list A) (x : A) : list A := l ++ [x].

(** [l.splice(start, 1)]: a negative [start] counts from the end; the
    start is clamped into [0, length l]. *)
Definition js_splice1 (l : list A) (start : Z) : list A :=
  let len := Z.of_nat (length l) in
  let s := if (start <? 0)%Z then Z.max (len + start) 0 else Z.min start len in
  delete (Z.to_nat s) l.

Lemma js_indexOf_from_absent l x i :
  x ∉ l → js_indexOf_from l x i = (-1)%Z.
Proof.
  revert i; induction l as [|y t IH]; intros i Hx; simpl; [done |].
  rewrite decide_False; [| set_solver]. apply IH. set_solver.
Qed.

Lemma js_indexOf_from_present l x i :
  x ∈ l → ∃ n, js_indexOf_from l x i = (i + Z.of_nat n)%Z ∧
               l !! n = Some x ∧ x ∉ take n l.
Proof.
  revert i; induction l as [|y t IH]; intros i Hx; simpl; [set_solver |].
  case_decide as Hy.
  - subst. exists 0. split_and!; [lia | done | set_solver].
  - destruct (IH (i + 1)%Z) as (n & Hn & Hl & Ht); [set_solver |].
    exists (S n). split_and!; [rewrite Hn; lia | done |].
    simpl. set_solver.
Qed.

Lemma js_indexOf_absent l x : x ∉ l → js_indexOf l x = (-1)%Z.
Proof. apply js_indexOf_from_absent. Qed.

Lemma js_indexOf_present l x :
  x ∈ l → ∃ n, js_indexOf l x = Z.of_nat n ∧ l !! n = Some x ∧ x ∉ take n l.
Proof. intros Hx. destruct (js_indexOf_from_present l x 0 Hx) as (n & H & ?). eauto. Qed.

Lemma js_indexOf_eq_neg1 l x : js_indexOf l x = (-1)%Z ↔ x ∉ l.
Proof.
  split; [| apply js_indexOf_absent].
  intros H Hx. destruct (js_indexOf_present l x Hx) as (n & Hn & _). lia.
Qed.

Lemma list_delete_ge (l : list A) (n : nat) : length l ≤ n → delete n l = l.
Proof.
  intros Hn. rewrite delete_take_drop, take_ge, drop_ge by lia. apply app_nil_r.
Qed.

Lemma js_splice1_nat l (n : nat) : js_splice1 l (Z.of_nat n) = delete n l.
Proof.
  unfold js_splice1. rewrite (proj2 (Z.ltb_ge _ _)); [| lia].
  destruct (decide (n < length l)).
  - by rewrite Z.min_l, Nat2Z.id by lia.
  - rewrite Z.min_r, Nat2Z.id by lia. rewrite !list_delete_ge; [done | lia | lia].
Qed.

(** Splicing out the first occurrence of [x] removes exactly one [x]. *)
Lemma js_splice1_indexOf_perm l x :
  x ∈ l → x :: js_splice1 l (js_indexOf l x) ≡ₚ l.
Proof.
  intros Hx. destruct (js_indexOf_present l x Hx) as (n & -> & Hn & _).
  rewrite js_splice1_nat. symmetry. by apply delete_Permutation.
Qed.

(** Pushing a fresh [x] and splicing out the first [x] restores the list. *)
Lemma js_splice1_push_fresh l x :
  x ∉ l → js_splice1 (js_push l x) (js_indexOf (js_push l x) x) = l.
Proof.
  intros Hx. unfold js_push.
  destruct (js_indexOf_present (l ++ [x]) x) as (n & -> & Hn & Ht); [set_solver |].
  rewrite js_splice1_nat.
  assert (n = length l) as ->.
  { destruct (decide (n < length l)).
    - rewrite lookup_app_l in Hn by done. exfalso. apply Hx.
      by eapply list_elem_of_lookup_2.
    - rewrite lookup_app_r in Hn by lia.
      apply list_lookup_singleton_Some in Hn. lia. }
  by rewrite (delete_middle l [] x), app_nil_r.
Qed.
End JsArray.

#[export] Hint Resolve js_indexOf_absent : s2p.

(** ** Insertion-ordered [Map] *)
Section JsMap.
Context {K V : Type} `{EqDecision K}.

(** The entries of a [Map], oldest first. *)
Definition jsmap := list (K * V).

Definition jm_empty : jsmap := [].

Fixpoint jm_get (m : jsmap) (k : K) : option V :=
  match m with
  | [] => None
  | (k', v) :: t => if decide (k' = k) then Some v else jm_get t k
  end.

Definition jm_has (m : jsmap) (k : K) : bool := bool_decide (is_Some (jm_get m k)).

Fixpoint jm_set (m : jsmap) (k : K) (v : V) : jsmap :=
  match m with
  | [] => [(k, v)]
  | (k', v') :: t => if decide (k' = k) then (k', v) :: t else (k', v') :: jm_set t k v
  end.

Fixpoint jm_delete (m : jsmap) (k : K) : jsmap :=
  match m with
  | [] => []
  | (k', v') :: t => if decide (k' = k) then t else (k', v') :: jm_delete t k
  end.

(** [m.values()] and the order of [m.forEach]. *)
Definition jm_values (m : jsmap) : list V := m.*2.

Definition jm_keys (m : jsmap) : list K := m.*1.

(** Well-formedness: a [Map] holds each key once. *)
Definition jm_wf (m : jsmap) : Prop := NoDup (jm_keys m).

Lemma jm_get_set_eq m k v : jm_get (jm_set m k v) k = Some v.
Proof. induction m as [|[k' v'] t IH]; simpl; split_ifs; by rewrite decide_True. Qed.

Lemma jm_get_set_ne m k k' v : k ≠ k' → jm_get (jm_set m k v) k' = jm_get m k'.
Proof.
  intros Hne. induction m as [|[k1 v1] t IH]; simpl; [by rewrite decide_False |].
  destruct (decide (k1 = k)) as [->|Hk]; simpl.
  - by rewrite !decide_False.
  - case_decide; [done | exact IH].
Qed.

Lemma jm_keys_set m k v :
  jm_keys (jm_set m k v) = if bool_decide (k ∈ jm_keys m) then jm_keys m else jm_keys m ++ [k].
Proof.
  induction m as [|[k' v'] t IH]; simpl; [done |].
  destruct (decide (k' = k)) as [->|Hne]; simpl.
  - rewrite bool_decide_eq_true_2; [done | set_solver].
  - rewrite IH. case_bool_decide; case_bool_decide; set_solver.
Qed.

Lemma jm_set_wf m k v : jm_wf m → jm_wf (jm_set m k v).
Proof.
  unfold jm_wf. rewrite jm_keys_set. case_bool_decide; auto with s2p.
Qed.

Lemma jm_keys_delete m k : jm_wf m → jm_keys (jm_delete m k) = filter (λ k', k' ≠ k) (jm_keys m).
Proof.
  unfold jm_wf, jm_keys. induction m as [|[k' v'] t IH]; intros Hnd; simpl in *; [done |].
  apply NoDup_cons in Hnd as [Hk Hnd].
  case_decide; subst; simpl.
  - rewrite filter_cons_False by tauto. symmetry. by apply filter_neq_notin.
  - rewrite filter_cons_True by done. simpl. f_equal. by apply IH.
Qed.

Lemma jm_delete_wf m k : jm_wf m → jm_wf (jm_delete m k).
Proof.
  intros Hwf. unfold jm_wf. rewrite jm_keys_delete by done. by apply NoDup_filter.
Qed.

Lemma jm_get_delete_eq m k : jm_wf m → jm_get (jm_delete m k) k = None.
Proof.
  unfold jm_wf, jm_keys. induction m as [|[k' v'] t IH]; intros Hnd; simpl in *; [done |].
  apply NoDup_cons in Hnd as [Hk Hnd]. case_decide; simpl; subst.
  - destruct (jm_get t k) eqn:E; [| done]. exfalso. apply Hk.
    clear - E. induction t as [|[k1 v1] t IH]; simpl in *; [done |].
    case_decide; set_solver.
  - rewrite decide_False by done. auto.
Qed.

Lemma jm_get_delete_ne m k k' : k ≠ k' → jm_get (jm_delete m k) k' = jm_get m k'.
Proof.
  intros Hne. induction m as [|[k1 v1] t IH]; simpl; [done |].
  destruct (decide (k1 = k)) as [->|Hk]; simpl.
  - by rewrite decide_False.
  - case_decide; [done | exact IH].
Qed.

Lemma jm_get_Some_keys m k v : jm_get m k = Some v → k ∈ jm_keys m.
Proof.
  induction m as [|[k' v'] t IH]; simpl; [done |]. case_decide; set_solver.
Qed.

Lemma jm_has_keys m k : jm_has m k = bool_decide (k ∈ jm_keys m).
Proof.
  unfold jm_has. apply bool_decide_ext. split.
  - intros [v Hv]. by eapply jm_get_Some_keys.
  - induction m as [|[k' v'] t IH]; simpl; [set_solver |].
    case_decide; [eauto | set_solver].
Qed.

Lemma jm_length_values m : length (jm_values m) = length (jm_keys m).
Proof. unfold jm_values, jm_keys. by rewrite !length_fmap. Qed.
End JsMap.

Arguments jsmap : clear implicits.

#[export] Hint Resolve jm_set_wf jm_delete_wf : s2p.
#[export] Hint Rewrite @jm_get_set_eq @jm_keys_set : s2p_rw.
