(* ===== verification/Registry.v ===== *)
(** * [FeatureExtensionCapabilityRegistryImpl]

    This file models [src/packages/feature-extension/src/browser/extension.service.ts],
    lines 174-242. The registry object is a record [registry]. Every method
    that returns an [IDisposable] returns the new registry and the disposer.
    The disposer is a closure over the method's arguments: a function from
    the registry at the time [dispose()] is called to the registry after.
    [reg_run] runs any sequence of calls and disposals, so the invariants
    below hold for every client of the registry. *)

From S2P Require Import Prelude JsCollections.
From Stdlib Require Import ZArith Lia.

(** The part of [IFeatureExtensionType] that the registry reads. *)
Class FeatureExtensionType (T : Type) := {
  ft_name : T → string
}.

(** A concrete extension type for the scenarios: a name and a tag that
    tells two type objects with the same name apart. *)
Record demo_type := DemoType { demo_name : string; demo_tag : nat }.
#[export] Instance demo_type_ft : FeatureExtensionType demo_type := {| ft_name := demo_name |}.

Section Registry.
Context {T : Type} `{FeatureExtensionType T}.

(** The free identifier [name] in [registerFeatureExtensionType]
    (lines 231 and 234) is not the parameter's [type.name]. In a browser
    it is the global [window.name]. The model fixes it as an arbitrary
    string. *)
Variable window_name : string.

(** [localize('extension.type-exists', ...)]: the localized message. *)
Variable msg_type_exists : string.

Record registry := mkRegistry {
  extensionScanDir : list string;
  extensionCandidate : list string;
  extraMetaData : gmap string string;
  types : jsmap string T
}.

Definition init_registry : registry :=
  mkRegistry ["~/.vscode/extensions"] [] ∅ jm_empty.

Definition set_extensionScanDir (r : registry) l :=
  mkRegistry l (extensionCandidate r) (extraMetaData r) (types r).
Definition set_extensionCandidate (r : registry) l :=
  mkRegistry (extensionScanDir r) l (extraMetaData r) (types r).
Definition set_extraMetaData (r : registry) m :=
  mkRegistry (extensionScanDir r) (extensionCandidate r) m (types r).
Definition set_types (r : registry) ts :=
  mkRegistry (extensionScanDir r) (extensionCandidate r) (extraMetaData r) ts.

(** An [IDisposable] returned by the registry. *)
Definition disposer := registry → registry.

(** [addExtraMetaData(fieldName, relativePath)] *)
Definition addExtraMetaData (fieldName relativePath : string) (r : registry)
    : registry * disposer :=
  (set_extraMetaData r (<[fieldName := relativePath]> (extraMetaData r)),
   fun r' => set_extraMetaData r' (delete fieldName (extraMetaData r'))).

(** The disposer of [addFeatureExtensionScanDirectory] (lines 206-211). *)
Definition removeScanDirectory (dir : string) (r : registry) : registry :=
  let index := js_indexOf (extensionScanDir r) dir in
  if decide (index ≠ (-1)%Z)
  then set_extensionScanDir r (js_splice1 (extensionScanDir r) index)
  else r.

(** [addFeatureExtensionScanDirectory(dir)] *)
Definition addFeatureExtensionScanDirectory (dir : string) (r : registry)
    : registry * disposer :=
  let r1 := if decide (js_indexOf (extensionScanDir r) dir = (-1)%Z)
            then set_extensionScanDir r (js_push (extensionScanDir r) dir)
            else r in
  (r1, removeScanDirectory dir).

(** The disposer of [addFeatureExtensionCandidate] (lines 218-223). *)
Definition removeCandidate (dir : string) (r : registry) : registry :=
  let index := js_indexOf (extensionCandidate r) dir in
  if decide (index ≠ (-1)%Z)
  then set_extensionCandidate r (js_splice1 (extensionCandidate r) index)
  else r.

(** [addFeatureExtensionCandidate(dir)]: no duplicate check. *)
Definition addFeatureExtensionCandidate (dir : string) (r : registry)
    : registry * disposer :=
  (set_extensionCandidate r (js_push (extensionCandidate r) dir), removeCandidate dir).

(** [registerFeatureExtensionType(type)]: the guard reads [type.name],
    the write and the disposer use [name]. *)
Definition registerFeatureExtensionType (ty : T) (r : registry)
    : outcome (registry * disposer) :=
  if jm_has (types r) (ft_name ty)
  then throw (msg_type_exists +:+ ": " +:+ ft_name ty)
  else Ret (set_types r (jm_set (types r) window_name ty),
            fun r' => set_types r' (jm_delete (types r') window_name)).

(** [getTypes()]: the values of the type map, in insertion order. *)
Definition getTypes (r : registry) : list T := jm_values (types r).

(** [getAllCandidatesFromFileSystem()] hands the three collections to the
    node service, which is outside the model. *)
Context {Candidate : Type}.
Variable nodeGetAllCandidates :
  list string → list string → gmap string string → list Candidate.

Definition getAllCandidatesFromFileSystem (r : registry) : list Candidate :=
  nodeGetAllCandidates (extensionScanDir r) (extensionCandidate r) (extraMetaData r).

(** ** Clients: any sequence of calls and disposals *)

Inductive reg_op :=
| OpAddExtraMetaData (fieldName relativePath : string)
| OpAddScanDirectory (dir : string)
| OpAddCandidate (dir : string)
| OpRegisterType (ty : T)
| OpDispose (i : nat).  (** call [dispose()] on the [i]-th disposer handed out *)

(** One call. A [throw] from [registerFeatureExtensionType] leaves the
    registry as it was and hands out no disposer; the manager catches it
    (line 57). Disposing twice runs the closure twice, as in the code. *)
Definition reg_step (s : registry * list disposer) (o : reg_op)
    : registry * list disposer :=
  let '(r, ds) := s in
  let give p := (p.1, ds ++ [p.2]) in
  match o with
  | OpAddExtraMetaData f p => give (addExtraMetaData f p r)
  | OpAddScanDirectory d => give (addFeatureExtensionScanDirectory d r)
  | OpAddCandidate d => give (addFeatureExtensionCandidate d r)
  | OpRegisterType ty =>
      match registerFeatureExtensionType ty r with
      | Ret p => give p
      | Throw _ => (r, ds)
      end
  | OpDispose i => match ds !! i with Some d => (d r, ds) | None => (r, ds) end
  end.

Definition reg_run_from (s : registry * list disposer) (ops : list reg_op) :=
  foldl reg_step s ops.

Definition reg_run (ops : list reg_op) : registry :=
  (reg_run_from (init_registry, []) ops).1.

(** ** Invariant *)

(** The scan directories hold no duplicate, and the type map is a
    well-formed [Map] whose only possible key is [window_name]. *)
Definition reg_inv (r : registry) : Prop :=
  NoDup (extensionScanDir r) ∧ jm_wf (types r) ∧
  ∀ k, k ∈ jm_keys (types r) → k = window_name.

Definition preserves_inv (d : disposer) : Prop := ∀ r, reg_inv r → reg_inv (d r).

Lemma init_registry_inv : reg_inv init_registry.
Proof.
  split_and!; simpl; [apply NoDup_singleton | constructor | set_solver].
Qed.

Lemma keys_single_length (l : list string) :
  NoDup l → (∀ k, k ∈ l → k = window_name) → length l ≤ 1.
Proof.
  intros Hnd Hk. destruct l as [|a [|b l]]; simpl; [lia | lia |].
  exfalso. apply NoDup_cons in Hnd as [Ha _]. apply Ha.
  rewrite (Hk a), (Hk b) by set_solver. set_solver.
Qed.

Lemma removeScanDirectory_types dir r : types (removeScanDirectory dir r) = types r.
Proof. unfold removeScanDirectory. by case_decide. Qed.

Lemma removeScanDirectory_NoDup dir r :
  NoDup (extensionScanDir r) → NoDup (extensionScanDir (removeScanDirectory dir r)).
Proof.
  unfold removeScanDirectory. case_decide as Hi; simpl; [| done].
  destruct (decide (dir ∈ extensionScanDir r)) as [Hin|Hnin].
  - destruct (js_indexOf_present _ _ Hin) as (n & -> & _). rewrite js_splice1_nat.
    auto with s2p.
  - by rewrite js_indexOf_absent in Hi.
Qed.

Lemma addExtraMetaData_inv f p r :
  reg_inv r → reg_inv (addExtraMetaData f p r).1 ∧ preserves_inv (addExtraMetaData f p r).2.
Proof. intros Hr. split; [done |]. intros r' Hr'. exact Hr'. Qed.

Lemma addFeatureExtensionScanDirectory_inv d r :
  reg_inv r → reg_inv (addFeatureExtensionScanDirectory d r).1 ∧
              preserves_inv (addFeatureExtensionScanDirectory d r).2.
Proof.
  intros (Hnd & Hwf & Hk). split.
  - simpl. case_decide as Hi; [| done]. split_and!; [| done | done].
    apply js_indexOf_eq_neg1 in Hi. simpl. unfold js_push. auto with s2p.
  - intros r' (Hnd' & Hwf' & Hk'). simpl.
    split_and!; [by apply removeScanDirectory_NoDup | |];
      by rewrite removeScanDirectory_types.
Qed.

Lemma addFeatureExtensionCandidate_inv d r :
  reg_inv r → reg_inv (addFeatureExtensionCandidate d r).1 ∧
              preserves_inv (addFeatureExtensionCandidate d r).2.
Proof.
  intros Hr. split; [exact Hr |]. intros r' Hr'. simpl. unfold removeCandidate.
  by case_decide.
Qed.

Lemma registerFeatureExtensionType_inv ty r p :
  reg_inv r → registerFeatureExtensionType ty r = Ret p →
  reg_inv p.1 ∧ preserves_inv p.2.
Proof.
  intros (Hnd & Hwf & Hk) Hreg. unfold registerFeatureExtensionType in Hreg.
  destruct (jm_has _ _); simplify_eq/=. split.
  - split_and!; simpl; [done | auto with s2p |].
    intros k. rewrite jm_keys_set. case_bool_decide; set_solver.
  - intros r' (Hnd' & Hwf' & Hk'). split_and!; simpl; [done | auto with s2p |].
    intros k. rewrite jm_keys_delete by done. intros ?%list_elem_of_filter. naive_solver.
Qed.

Lemma reg_step_inv s o :
  reg_inv s.1 → Forall preserves_inv s.2 →
  reg_inv (reg_step s o).1 ∧ Forall preserves_inv (reg_step s o).2.
Proof.
  destruct s as [r ds]; simpl. intros Hr Hds.
  assert (∀ p : registry * disposer, reg_inv p.1 ∧ preserves_inv p.2 →
            reg_inv p.1 ∧ Forall preserves_inv (ds ++ [p.2])) as Hgive.
  { intros p [Hp Hd]. split; [done |]. apply Forall_app. auto. }
  destruct o as [f p | d | d | ty | i]; simpl.
  - exact (Hgive _ (addExtraMetaData_inv f p r Hr)).
  - exact (Hgive _ (addFeatureExtensionScanDirectory_inv d r Hr)).
  - exact (Hgive _ (addFeatureExtensionCandidate_inv d r Hr)).
  - destruct (registerFeatureExtensionType ty r) as [p|] eqn:E; [| done].
    exact (Hgive _ (registerFeatureExtensionType_inv ty r p Hr E)).
  - destruct (ds !! i) as [d|] eqn:E; [| done]. split; [| done].
    eapply (Forall_lookup_1 _ _ _ _ Hds E), Hr.
Qed.

Lemma reg_run_from_inv s ops :
  reg_inv s.1 → Forall preserves_inv s.2 →
  reg_inv (reg_run_from s ops).1 ∧ Forall preserves_inv (reg_run_from s ops).2.
Proof.
  revert s. induction ops as [|o ops IH]; intros s Hr Hds; [done |].
  simpl. apply IH; apply reg_step_inv; done.
Qed.

Lemma reg_run_inv ops : reg_inv (reg_run ops).
Proof. apply reg_run_from_inv; [apply init_registry_inv | constructor]. Qed.

Lemma reg_inv_types r :
  reg_inv r → types r = [] ∨ ∃ t0, types r = [(window_name, t0)].
Proof.
  intros (_ & Hwf & Hk). unfold jm_wf, jm_keys in *.
  destruct (types r) as [|[k0 t0] [|[k1 t1] ts]]; [by left | right | exfalso].
  - simpl in Hk. rewrite (Hk k0) by set_solver. eauto.
  - simpl in Hwf, Hk. apply NoDup_cons in Hwf as [Hn _]. apply Hn.
    rewrite (Hk k0), (Hk k1) by set_solver. set_solver.
Qed.

(** ** The type map *)

(** C12. Whatever sequence of registrations, disposals and other calls a
    client makes, [getTypes()] yields at most one type: every type is
    stored under the same key [name]. *)
Theorem getTypes_at_most_one (ops : list reg_op) :
  length (getTypes (reg_run ops)) ≤ 1.
Proof.
  destruct (reg_run_inv ops) as (_ & Hwf & Hk). unfold getTypes.
  rewrite jm_length_values. by apply keys_single_length.
Qed.

(** C13. A type whose name differs from [window.name] is always accepted,
    whatever is registered already, and afterwards it is the only type:
    the duplicate check never fires and the previous type is replaced. *)
Theorem registerFeatureExtensionType_replaces (ty : T) (r : registry) :
  reg_inv r → ft_name ty ≠ window_name →
  ∃ p, registerFeatureExtensionType ty r = Ret p ∧ getTypes p.1 = [ty].
Proof.
  intros Hr Hne. unfold registerFeatureExtensionType.
  destruct (reg_inv_types r Hr) as [Hts | [t0 Hts]]; rewrite Hts.
  - eexists. split; [reflexivity | done].
  - unfold jm_has. simpl. rewrite decide_False by congruence. simpl.
    eexists. split; [reflexivity |]. simpl. unfold getTypes. simpl.
    by rewrite decide_True.
Qed.

(** C14. [registerFeatureExtensionType] throws exactly when the type's
    name is [window.name] and some type is registered; a second type
    with an existing name is otherwise accepted. *)
Theorem registerFeatureExtensionType_throws_iff (ty : T) (r : registry) :
  reg_inv r →
  is_throw (registerFeatureExtensionType ty r) = true ↔
    ft_name ty = window_name ∧ getTypes r ≠ [].
Proof.
  intros Hr. unfold registerFeatureExtensionType, getTypes.
  destruct (reg_inv_types r Hr) as [Hts | [t0 Hts]]; rewrite Hts; simpl.
  - split; [discriminate | intros [_ []]; done].
  - unfold jm_has. simpl. case_decide; simpl; naive_solver.
Qed.

(** ** Disposers *)

(** C21. Adding a scan directory that is not yet listed and then calling
    the returned disposer restores the registry. *)
Theorem addFeatureExtensionScanDirectory_dispose_fresh (dir : string) (r : registry) :
  dir ∉ extensionScanDir r →
  let p := addFeatureExtensionScanDirectory dir r in p.2 p.1 = r.
Proof.
  intros Hdir. simpl. rewrite decide_True by auto with s2p.
  unfold removeScanDirectory. simpl.
  rewrite decide_True.
  - by rewrite js_splice1_push_fresh; destruct r.
  - rewrite js_indexOf_eq_neg1. unfold js_push. set_solver.
Qed.

(** C22. When the directory is already listed (for instance the default
    ["~/.vscode/extensions"]), [addFeatureExtensionScanDirectory] changes
    nothing, yet its disposer removes the directory that was there before. *)
Theorem addFeatureExtensionScanDirectory_dispose_existing (dir : string) (r : registry) :
  NoDup (extensionScanDir r) → dir ∈ extensionScanDir r →
  let p := addFeatureExtensionScanDirectory dir r in
  p.1 = r ∧ dir ∉ extensionScanDir (p.2 p.1).
Proof.
  intros Hnd Hdir. simpl.
  destruct (js_indexOf_present _ _ Hdir) as (n & Hn & Hl & _).
  rewrite decide_False by lia. split; [done |].
  unfold removeScanDirectory. rewrite Hn, decide_True by lia. simpl.
  rewrite js_splice1_nat. intros Hin.
  apply list_elem_of_lookup_1 in Hin as [j Hj].
  rewrite list_lookup_delete in Hj.
  pose proof (NoDup_lookup _ _ _ _ Hnd Hj Hl). case_decide; lia.
Qed.

(** C23. Adding a candidate path and disposing of it restores the
    registry when the path was not yet a candidate. *)
Theorem addFeatureExtensionCandidate_dispose_fresh (dir : string) (r : registry) :
  dir ∉ extensionCandidate r →
  let p := addFeatureExtensionCandidate dir r in p.2 p.1 = r.
Proof.
  intros Hdir. simpl. unfold removeCandidate. simpl.
  rewrite decide_True.
  - by rewrite js_splice1_push_fresh; destruct r.
  - rewrite js_indexOf_eq_neg1. unfold js_push. set_solver.
Qed.

(** C24. Candidates are not de-duplicated: adding the same path twice
    lists it twice. *)
Theorem addFeatureExtensionCandidate_twice (dir : string) (r : registry) :
  extensionCandidate (addFeatureExtensionCandidate dir
                        (addFeatureExtensionCandidate dir r).1).1
  = extensionCandidate r ++ [dir; dir].
Proof. simpl. unfold js_push. by rewrite <- app_assoc. Qed.

(** C25. Adding a fresh metadata field and disposing of it restores the
    registry. *)
Theorem addExtraMetaData_dispose_fresh (f v : string) (r : registry) :
  extraMetaData r !! f = None →
  let p := addExtraMetaData f v r in p.2 p.1 = r.
Proof. intros Hf. simpl. rewrite delete_insert_id by done. by destruct r. Qed.

(** C26. The disposer of an overwritten metadata field deletes the newer
    mapping: last writer wins, but the first writer's disposer removes it. *)
Theorem addExtraMetaData_stale_dispose (f v1 v2 : string) (r : registry) :
  let p1 := addExtraMetaData f v1 r in
  let p2 := addExtraMetaData f v2 p1.1 in
  extraMetaData p2.1 !! f = Some v2 ∧ extraMetaData (p1.2 p2.1) !! f = None.
Proof. simpl. split; [apply lookup_insert_eq | apply lookup_delete_eq]. Qed.

End Registry.

(** ** Witnesses

    Concrete runs with [window.name = ""]. The registry has one type
    [foo#1] registered. *)

Definition demo_registry : registry :=
  reg_run "" "type exists" [OpRegisterType (DemoType "foo" 1)].

Lemma registerFeatureExtensionType_replaces_witness :
  ∃ p, registerFeatureExtensionType "" "type exists" (DemoType "foo" 2) demo_registry = Ret p
       ∧ getTypes p.1 = [DemoType "foo" 2].
Proof. apply registerFeatureExtensionType_replaces; [apply reg_run_inv | discriminate]. Defined.

Lemma registerFeatureExtensionType_throws_iff_witness :
  is_throw (registerFeatureExtensionType "" "type exists" (DemoType "foo" 2) demo_registry) = true
  ↔ ft_name (DemoType "foo" 2) = "" ∧ getTypes demo_registry ≠ [].
Proof. apply registerFeatureExtensionType_throws_iff, reg_run_inv. Defined.

Lemma addFeatureExtensionScanDirectory_dispose_fresh_witness :
  let p := addFeatureExtensionScanDirectory "/opt/ext" demo_registry in p.2 p.1 = demo_registry.
Proof. apply addFeatureExtensionScanDirectory_dispose_fresh. decide_prop. Defined.

Lemma addFeatureExtensionScanDirectory_dispose_existing_witness :
  let p := addFeatureExtensionScanDirectory "~/.vscode/extensions" demo_registry in
  p.1 = demo_registry ∧ "~/.vscode/extensions" ∉ extensionScanDir (p.2 p.1).
Proof. apply addFeatureExtensionScanDirectory_dispose_existing; decide_prop. Defined.

Lemma addFeatureExtensionCandidate_dispose_fresh_witness :
  let p := addFeatureExtensionCandidate "/opt/ext/a" demo_registry in p.2 p.1 = demo_registry.
Proof. apply addFeatureExtensionCandidate_dispose_fresh. decide_prop. Defined.

Lemma addExtraMetaData_dispose_fresh_witness :
  let p := addExtraMetaData "readme" "README.md" demo_registry in p.2 p.1 = demo_registry.
Proof. apply addExtraMetaData_dispose_fresh. reflexivity. Defined.
