(* ===== verification/Lifecycle.v ===== *)
(** * [FeatureExtension]: the lifecycle under cooperative concurrency

    This file models the class [FeatureExtension] of
    [src/packages/feature-extension/src/browser/extension.service.ts],
    lines 244-369.

    JavaScript runs one segment of code at a time, and an [async] method
    yields only at an [await]. Each method is cut at its [await]s into
    frames, and a call in progress is a thread: a stack of frames, innermost
    first. A [world] holds:
    - the extension's fields;
    - the capability callbacks still pending (the promises returned by
      [onEnable()]/[onActivate()], with their [.then/.catch] chains);
    - the threads;
    - a counter for fresh promise and disposer identities;
    - an event log.
    [step_fn] takes one of three steps:
    - [CCall]: a new external call starts;
    - [CRun]: one thread runs its next segment;
    - [CSettle]: a pending capability promise settles and its handler runs.

    The model allows some interleavings that JS does not. A call pushes the
    callee's first frame, and that frame runs in a later step. The step
    between has no effect on shared state, so it only stutters. An awaited
    [dispose()] always yields, even when it throws synchronously. The
    callbacks [onEnable()] and [onActivate()] are taken to return a promise:
    a synchronous throw from them, which would reject the caller's
    [enable()]/[activate()] before [_enabling]/[_activating] is set, is not
    modelled. A safety
    property proved for every interleaving therefore holds for the code, and
    the scenario theorems use only schedules that JS can produce. *)

From S2P Require Import Prelude.
From Stdlib Require Import Lia.

(** Identities of promises and of disposers. *)
Definition promise := nat.
Definition disposer_id := nat.

(** The fields of [FeatureExtension] that change. [_activated] and
    [_enabled] start [undefined], which is falsy. *)
Record ext := mkExt {
  activated : bool;
  enabled : bool;
  enableDisposer : option disposer_id;
  enabling : option promise;
  activating : option promise;
  activateDisposer : option disposer_id
}.

Definition init_ext : ext := mkExt false false None None None None.

Definition set_activated (e : ext) b :=
  mkExt b (enabled e) (enableDisposer e) (enabling e) (activating e) (activateDisposer e).
Definition set_enabled (e : ext) b :=
  mkExt (activated e) b (enableDisposer e) (enabling e) (activating e) (activateDisposer e).
Definition set_enableDisposer (e : ext) d :=
  mkExt (activated e) (enabled e) d (enabling e) (activating e) (activateDisposer e).
Definition set_enabling (e : ext) p :=
  mkExt (activated e) (enabled e) (enableDisposer e) p (activating e) (activateDisposer e).
Definition set_activating (e : ext) p :=
  mkExt (activated e) (enabled e) (enableDisposer e) (enabling e) p (activateDisposer e).
Definition set_activateDisposer (e : ext) d :=
  mkExt (activated e) (enabled e) (enableDisposer e) (enabling e) (activating e) d.

(** Which capability hook a pending promise belongs to. *)
Inductive cap_kind := KEnable | KActivate.

(** The four places that call [getLogger().error(e)]. *)
Inductive err_site :=
| SiteEnable            (** [.catch] of [onEnable], line 296 *)
| SiteActivate          (** [.catch] of [onActivate], line 335 *)
| SiteEnableDispose     (** [catch] around the enable disposer, line 317 *)
| SiteActivateDispose.  (** [catch] around the activate disposer, line 354 *)

Inductive event :=
| EvOnEnable (p : promise)       (** [this.capability.onEnable()] is called *)
| EvOnActivate (p : promise)     (** [this.capability.onActivate()] is called *)
| EvDispose (d : disposer_id)    (** [disposer.dispose()] is called *)
| EvLogError (s : err_site).

#[export] Instance cap_kind_eq_dec : EqDecision cap_kind.
Proof. solve_decision. Defined.
#[export] Instance err_site_eq_dec : EqDecision err_site.
Proof. solve_decision. Defined.
#[export] Instance event_eq_dec : EqDecision event.
Proof. solve_decision. Defined.

(** Frames: where a call of a method stands. A frame that follows an
    [await] names what it awaits. Running it resumes the method and runs
    the code up to the next [await] or [return]. *)
Inductive frame :=
| FEnable                          (** [enable()], line 284 *)
| FEnableWait (p : promise)        (** [return this._enabling], line 290 *)
| FActivate                        (** [activate()], line 323 *)
| FActivateWait (p : promise)      (** [return this._activating], line 329 *)
| FDeactivate                      (** [deactivate()], line 340 *)
| FDeactivateAfterActivating (p : promise)  (** after [await this._activating], line 346 *)
| FDeactivateAfterDispose          (** after [await this._activateDisposer.dispose()], line 352 *)
| FDisable                         (** [disable()], line 302 *)
| FDisableAfterDeactivate          (** after [await this.deactivate()], line 304 *)
| FDisableAfterEnabling (p : promise)  (** after [await this._enabling], line 309 *)
| FDisableAfterDispose             (** after [await this._enableDisposer.dispose()], line 315 *)
| FDispose                         (** [dispose()], line 360 *)
| FDisposeAfterDeactivate          (** after [await this.deactivate()], line 361 *)
| FDisposeAfterDisable.            (** after [await this.disable()], line 362 *)

(** The public methods, and the frame a call of each starts with. *)
Inductive method := MEnable | MDisable | MActivate | MDeactivate | MDispose.

Definition method_frame (m : method) : frame :=
  match m with
  | MEnable => FEnable
  | MDisable => FDisable
  | MActivate => FActivate
  | MDeactivate => FDeactivate
  | MDispose => FDispose
  end.

Record world := mkWorld {
  w_ext : ext;
  w_pending : list (cap_kind * promise);
  w_threads : list (list frame);
  w_next : nat;
  w_log : list event
}.

Definition init_world : world := mkWorld init_ext [] [] 0 [].

Definition with_ext (w : world) (e : ext) : world :=
  mkWorld e (w_pending w) (w_threads w) (w_next w) (w_log w).
Definition with_threads (w : world) ts : world :=
  mkWorld (w_ext w) (w_pending w) ts (w_next w) (w_log w).
Definition emit (w : world) (ev : event) : world :=
  mkWorld (w_ext w) (w_pending w) (w_threads w) (w_next w) (w_log w ++ [ev]).
(** Allocate the next identity. *)
Definition bump (w : world) : world :=
  mkWorld (w_ext w) (w_pending w) (w_threads w) (S (w_next w)) (w_log w).
Definition add_pending (w : world) (k : cap_kind) (p : promise) : world :=
  mkWorld (w_ext w) (w_pending w ++ [(k, p)]) (w_threads w) (w_next w) (w_log w).
Definition remove_pending (w : world) (p : promise) : world :=
  mkWorld (w_ext w) (filter (λ kp, kp.2 ≠ p) (w_pending w)) (w_threads w) (w_next w) (w_log w).

(** A promise has settled when no capability callback for it is pending. *)
Definition settled (w : world) (p : promise) : bool :=
  bool_decide (p ∉ (w_pending w).*2).

(** ** Segments *)

(** [enable()], lines 284-300: one segment. The first caller starts
    [onEnable()] and returns at once, without awaiting it. *)
Definition enable_seg (w : world) : world * list frame :=
  let e := w_ext w in
  if enabled e then (w, [])
  else match enabling e with
       | Some p => (w, [FEnableWait p])
       | None =>
           let p := w_next w in
           (emit (add_pending (bump (with_ext w (set_enabling e (Some p)))) KEnable p)
                 (EvOnEnable p), [])
       end.

(** [activate()], lines 323-338. *)
Definition activate_seg (w : world) : world * list frame :=
  let e := w_ext w in
  if activated e then (w, [])
  else match activating e with
       | Some p => (w, [FActivateWait p])
       | None =>
           let p := w_next w in
           (emit (add_pending (bump (with_ext w (set_activating e (Some p)))) KActivate p)
                 (EvOnActivate p), [])
       end.

(** Lines 349-352 of [deactivate()]: clear [_activated] and call the
    activate disposer, if any. *)
Definition deactivate_body (w : world) : world * list frame :=
  let e := set_activated (w_ext w) false in
  match activateDisposer e with
  | Some d => (emit (with_ext w e) (EvDispose d), [FDeactivateAfterDispose])
  | None => (with_ext w e, [])
  end.

(** Lines 312-315 of [disable()]. *)
Definition disable_body (w : world) : world * list frame :=
  let e := set_enabled (w_ext w) false in
  match enableDisposer e with
  | Some d => (emit (with_ext w e) (EvDispose d), [FDisableAfterDispose])
  | None => (with_ext w e, [])
  end.

(** Resuming after an awaited [dispose()]: [ok] says whether it
    fulfilled; a rejection is caught and logged. *)
Definition log_unless (ok : bool) (s : err_site) (w : world) : world :=
  if ok then w else emit w (EvLogError s).

(** One segment of a frame: the new world and the frames that replace
    it. [None] when the frame waits on a promise that has not settled. *)
Definition exec (w : world) (f : frame) (ok : bool) : option (world * list frame) :=
  let e := w_ext w in
  match f with
  | FEnable => Some (enable_seg w)
  | FEnableWait p => if settled w p then Some (w, []) else None
  | FActivate => Some (activate_seg w)
  | FActivateWait p => if settled w p then Some (w, []) else None
  | FDeactivate =>
      if negb (activated e) then
        match activating e with
        | None => Some (w, [])
        | Some p => Some (w, [FDeactivateAfterActivating p])
        end
      else Some (deactivate_body w)
  | FDeactivateAfterActivating p =>
      if settled w p then Some (deactivate_body w) else None
  | FDeactivateAfterDispose =>
      let w1 := log_unless ok SiteActivateDispose w in
      Some (with_ext w1 (set_activateDisposer (w_ext w1) None), [])
  | FDisable => Some (w, [FDeactivate; FDisableAfterDeactivate])
  | FDisableAfterDeactivate =>
      if negb (enabled e) then
        match enabling e with
        | None => Some (w, [])
        | Some p => Some (w, [FDisableAfterEnabling p])
        end
      else Some (disable_body w)
  | FDisableAfterEnabling p =>
      if settled w p then Some (disable_body w) else None
  | FDisableAfterDispose =>
      let w1 := log_unless ok SiteEnableDispose w in
      Some (with_ext w1 (set_enableDisposer (w_ext w1) None), [])
  | FDispose => Some (w, [FDeactivate; FDisposeAfterDeactivate])
  | FDisposeAfterDeactivate => Some (w, [FDisable; FDisposeAfterDisable])
  | FDisposeAfterDisable => Some (w, [])
  end.

(** The [.then]/[.catch] handlers of lines 292-298 and 331-337, run when
    the capability's promise settles. [ok] says whether it fulfilled; the
    disposer it yields gets a fresh identity. *)
Definition settle (w : world) (k : cap_kind) (p : promise) (ok : bool) : world :=
  let w := remove_pending w p in
  let e := w_ext w in
  match k, ok with
  | KEnable, true =>
      bump (with_ext w (set_enabled (set_enableDisposer e (Some (w_next w))) true))
  | KEnable, false => with_ext (emit w (EvLogError SiteEnable)) (set_enabling e None)
  | KActivate, true =>
      bump (with_ext w (set_activated (set_activateDisposer e (Some (w_next w))) true))
  | KActivate, false => with_ext (emit w (EvLogError SiteActivate)) (set_activating e None)
  end.

(** ** Steps *)

Inductive choice :=
| CCall (m : method)            (** an outside caller invokes [m] *)
| CRun (i : nat) (ok : bool)    (** thread [i] runs one segment *)
| CSettle (p : promise) (ok : bool).  (** the capability promise [p] settles *)

Definition step_fn (w : world) (c : choice) : option world :=
  match c with
  | CCall m => Some (with_threads w (w_threads w ++ [[method_frame m]]))
  | CRun i ok =>
      match w_threads w !! i with
      | Some (f :: rest) =>
          '(w', fs) ← exec w f ok;
          Some (with_threads w' (<[i := fs ++ rest]> (w_threads w')))
      | _ => None
      end
  | CSettle p ok =>
      match list_find (λ kp, kp.2 = p) (w_pending w) with
      | Some (_, (k, _)) => Some (settle w k p ok)
      | None => None
      end
  end.

Definition step (w w' : world) : Prop := ∃ c, step_fn w c = Some w'.

Inductive reachable : world → Prop :=
| reach_init : reachable init_world
| reach_step w w' : reachable w → step w w' → reachable w'.

(** Run a schedule. *)
Fixpoint run (w : world) (cs : list choice) : option world :=
  match cs with
  | [] => Some w
  | c :: cs => w' ← step_fn w c; run w' cs
  end.

(** Count the events of the log that satisfy a test. *)
Fixpoint count_ev (P : event → bool) (l : list event) : nat :=
  match l with
  | [] => 0
  | ev :: l => (if P ev then 1 else 0) + count_ev P l
  end.

Definition is_onEnable (ev : event) : bool :=
  match ev with EvOnEnable _ => true | _ => false end.
Definition is_onActivate (ev : event) : bool :=
  match ev with EvOnActivate _ => true | _ => false end.
Definition is_error_at (s : err_site) (ev : event) : bool :=
  match ev with EvLogError s' => bool_decide (s = s') | _ => false end.
Definition is_dispose_of (d : disposer_id) (ev : event) : bool :=
  match ev with EvDispose d' => bool_decide (d = d') | _ => false end.

(** Run one call alone to completion, with no other thread or callback
    interleaved; [ok] is the outcome of every awaited [dispose()]. [fuel]
    bounds the number of segments; one call of a method has at most 12. *)
Fixpoint run_stack (fuel : nat) (ok : bool) (w : world) (stk : list frame) : option world :=
  match stk with
  | [] => Some w
  | f :: rest =>
      match fuel with
      | 0 => None
      | S n => '(w', fs) ← exec w f ok; run_stack n ok w' (fs ++ rest)
      end
  end.

Definition call_alone (m : method) (ok : bool) (w : world) : option world :=
  run_stack 16 ok w [method_frame m].

(** The state [disable()] leaves after a successful enable: [_enabled] is
    false but [_enabling] still holds the settled promise [p]. *)
Definition enable_stuck (p : promise) (n : nat) (w : world) : Prop :=
  enabled (w_ext w) = false ∧ enabling (w_ext w) = Some p ∧ settled w p = true ∧
  count_ev is_onEnable (w_log w) = n.

(** The two hooks follow the same protocol: [_enabling]/[_enabled]/
    [_enableDisposer]/[onEnable] for [KEnable], and the [activate]
    counterparts for [KActivate]. *)
Definition inflight_of (k : cap_kind) (e : ext) : option promise :=
  match k with KEnable => enabling e | KActivate => activating e end.
Definition done_of (k : cap_kind) (e : ext) : bool :=
  match k with KEnable => enabled e | KActivate => activated e end.
Definition is_call_of (k : cap_kind) : event → bool :=
  match k with KEnable => is_onEnable | KActivate => is_onActivate end.
Definition disposer_of (k : cap_kind) (e : ext) : option disposer_id :=
  match k with KEnable => enableDisposer e | KActivate => activateDisposer e end.
Definition fail_site (k : cap_kind) : err_site :=
  match k with KEnable => SiteEnable | KActivate => SiteActivate end.

(** ** Abstract specification: the phase of each hook

    Abstractly, each hook ([KEnable] or [KActivate]) is in one of four
    phases:
    - [PIdle]: no promise is stored in [_enabling]/[_activating];
    - [PInFlight p]: the stored promise [p] is pending;
    - [PDone p]: [p] has settled and [_enabled]/[_activated] is set;
    - [PCleared p]: [p] has settled but [disable()]/[deactivate()] has
      cleared the flag.
    [phase_step] lists the moves the code can make. [PCleared] has no way
    out. *)
Inductive phase := PIdle | PInFlight (p : promise) | PDone (p : promise) | PCleared (p : promise).

Definition phase_of (k : cap_kind) (w : world) : phase :=
  match inflight_of k (w_ext w) with
  | None => PIdle
  | Some p =>
      if negb (settled w p) then PInFlight p
      else if done_of k (w_ext w) then PDone p else PCleared p
  end.

Inductive phase_step : phase → phase → Prop :=
| ph_start p : phase_step PIdle (PInFlight p)      (** [onEnable()]/[onActivate()] called *)
| ph_fail p : phase_step (PInFlight p) PIdle       (** its promise rejected *)
| ph_ok p : phase_step (PInFlight p) (PDone p)     (** its promise fulfilled *)
| ph_clear p : phase_step (PDone p) (PCleared p).  (** [disable()]/[deactivate()] *)

(** ** Scenarios: schedules JS can produce *)

(** Two callers invoke [enable()] before [onEnable()] settles. *)
Definition sched_enable_twice : list choice :=
  [CCall MEnable; CCall MEnable; CRun 0 true; CRun 1 true].

(** [enable()], its callback succeeds, then [disable()] runs to the end. *)
Definition sched_enable_disable : list choice :=
  [CCall MEnable; CRun 0 true; CSettle 0 true;
   CCall MDisable; CRun 1 true; CRun 1 true; CRun 1 true; CRun 1 true].

(** A later [enable()] on that extension. *)
Definition sched_reenable : list choice := [CCall MEnable; CRun 2 true; CRun 2 true].

(** [activate()] on an extension that was never enabled. *)
Definition sched_activate_only : list choice := [CCall MActivate; CRun 0 true; CSettle 0 true].

(** [enable()] and [activate()] both succeed. *)
Definition sched_enable_activate : list choice :=
  [CCall MEnable; CRun 0 true; CSettle 0 true; CCall MActivate; CRun 1 true; CSettle 2 true].

Definition world_after (cs : list choice) : world := default init_world (run init_world cs).

(** One more step from [sched_enable_twice]: the [onEnable()] promise fulfils. *)
Definition world_enable_settled : world :=
  default init_world (step_fn (world_after sched_enable_twice) (CSettle 0 true)).

(** The world after [sched_enable_disable] followed by [sched_reenable]. *)
Definition world_reenabled : world :=
  default init_world (run (world_after sched_enable_disable) sched_reenable).

(** The pending callbacks of one kind. *)
Definition pending_of (k : cap_kind) (w : world) : list promise :=
  (filter (λ kp, kp.1 = k) (w_pending w)).*2.

(** ** The invariant

    The two hooks follow the same protocol, so the invariant is stated once
    over [cap_kind]: [_enabling]/[_enabled]/[onEnable] for [KEnable], and
    [_activating]/[_activated]/[onActivate] for [KActivate]. *)

(** How often the hook was called, and how often it failed. *)
Definition calls_of (k : cap_kind) (w : world) : nat := count_ev (is_call_of k) (w_log w).
Definition fails_of (k : cap_kind) (w : world) : nat :=
  count_ev (is_error_at (fail_site k)) (w_log w).

Definition opt_count {A} (o : option A) : nat := match o with Some _ => 1 | None => 0 end.

Record lc_inv (w : world) : Prop := {
  inv_nodup : NoDup (w_pending w).*2;
  inv_fresh : ∀ p, p ∈ (w_pending w).*2 → p < w_next w;
  inv_inflight_lt : ∀ k p, inflight_of k (w_ext w) = Some p → p < w_next w;
  inv_pending_inflight : ∀ k p, (k, p) ∈ w_pending w → inflight_of k (w_ext w) = Some p;
  inv_done : ∀ k, done_of k (w_ext w) = true →
             ∃ p, inflight_of k (w_ext w) = Some p ∧ settled w p = true;
  inv_count : ∀ k, calls_of k w = fails_of k w + opt_count (inflight_of k (w_ext w));
  inv_disposer : ∀ k, disposer_of k (w_ext w) ≠ None →
                 ∃ p, inflight_of k (w_ext w) = Some p ∧ settled w p = true;
  inv_distinct : ∀ p, inflight_of KEnable (w_ext w) = Some p →
                 inflight_of KActivate (w_ext w) = Some p → False
}.

(** A segment is benign when it leaves the pending callbacks, the counter,
    the in-flight markers and the call/failure counts alone, and only ever
    clears [_enabled]/[_activated]. *)
Definition benign (w w' : world) : Prop :=
  w_pending w' = w_pending w ∧ w_next w' = w_next w ∧
  ∀ k, inflight_of k (w_ext w') = inflight_of k (w_ext w) ∧
       (done_of k (w_ext w') = true → done_of k (w_ext w) = true) ∧
       calls_of k w' = calls_of k w ∧ fails_of k w' = fails_of k w ∧
       (disposer_of k (w_ext w') = None ∨ disposer_of k (w_ext w') = disposer_of k (w_ext w)).

Lemma count_ev_app_single P l ev :
  count_ev P (l ++ [ev]) = count_ev P l + (if P ev then 1 else 0).
Proof. induction l as [|x l IH]; simpl; [lia | rewrite IH; lia]. Qed.

#[export] Hint Rewrite count_ev_app_single : s2p_rw.

Ltac lc_unfold :=
  unfold calls_of, fails_of, settled, benign, inflight_of, done_of, is_call_of, fail_site,
    emit, bump, with_ext, with_threads, add_pending, remove_pending,
    set_activated, set_enabled, set_enableDisposer, set_enabling, set_activating,
    set_activateDisposer in *; simpl in *.

Lemma benign_refl w : benign w w.
Proof. do 2 (split; [done |]). intros k. split_and!; auto. Qed.

Lemma benign_trans w1 w2 w3 : benign w1 w2 → benign w2 w3 → benign w1 w3.
Proof.
  intros (Hp1 & Hn1 & Hk1) (Hp2 & Hn2 & Hk2). split_and!; [congruence | congruence |].
  intros k. destruct (Hk1 k) as (? & ? & ? & ? & Hd1), (Hk2 k) as (? & ? & ? & ? & Hd2).
  split_and!; auto; try congruence. destruct Hd1, Hd2; [left | left | left | right]; congruence.
Qed.

(** Logging a dispose error, or a dispose call, is benign. *)
Lemma emit_benign w ev :
  (∀ k, is_call_of k ev = false ∧ is_error_at (fail_site k) ev = false) →
  benign w (emit w ev).
Proof.
  intros Hev. split_and!; try done. intros k. destruct (Hev k) as [Hc Hf].
  unfold calls_of, fails_of, emit. simpl. rewrite !count_ev_app_single, Hc, Hf.
  split_and!; auto; lia.
Qed.

Lemma with_ext_benign w e :
  (∀ k, inflight_of k e = inflight_of k (w_ext w) ∧
        (done_of k e = true → done_of k (w_ext w) = true) ∧
        (disposer_of k e = None ∨ disposer_of k e = disposer_of k (w_ext w))) →
  benign w (with_ext w e).
Proof.
  intros He. do 2 (split; [done |]). intros k. destruct (He k) as (? & ? & ?). by split_and!.
Qed.

(** Clearing [_activated] or [_enabled], or either disposer, is benign. *)
Lemma clear_fields_benign w :
  benign w (with_ext w (set_activated (w_ext w) false)) ∧
  benign w (with_ext w (set_enabled (w_ext w) false)) ∧
  benign w (with_ext w (set_activateDisposer (w_ext w) None)) ∧
  benign w (with_ext w (set_enableDisposer (w_ext w) None)).
Proof. split_and!; apply with_ext_benign; intros []; simpl; naive_solver. Qed.

Lemma dispose_call_benign w d : benign w (emit w (EvDispose d)).
Proof. apply emit_benign. by intros []. Qed.

Lemma deactivate_body_benign w : benign w (deactivate_body w).1.
Proof.
  pose proof (clear_fields_benign w) as (? & _ & _ & _).
  unfold deactivate_body. destruct (activateDisposer _); simpl; [| done].
  eapply benign_trans; [done | apply dispose_call_benign].
Qed.

Lemma disable_body_benign w : benign w (disable_body w).1.
Proof.
  pose proof (clear_fields_benign w) as (_ & ? & _ & _).
  unfold disable_body. destruct (enableDisposer _); simpl; [| done].
  eapply benign_trans; [done | apply dispose_call_benign].
Qed.

Lemma log_unless_benign ok s w :
  s = SiteEnableDispose ∨ s = SiteActivateDispose → benign w (log_unless ok s w).
Proof.
  intros Hs. unfold log_unless. destruct ok; [apply benign_refl |].
  apply emit_benign. intros k. split; [by destruct k |].
  apply bool_decide_eq_false_2. destruct k, Hs; simpl; congruence.
Qed.

(** Every segment but the first one of [enable()] and [activate()] is benign. *)
Lemma exec_cases w f ok w' fs :
  exec w f ok = Some (w', fs) →
  benign w w' ∨ (f = FEnable ∧ (w', fs) = enable_seg w) ∨ (f = FActivate ∧ (w', fs) = activate_seg w).
Proof.
  intros Hx. destruct f; simpl in Hx;
    [right; left; split; congruence | | right; right; split; congruence | ..];
    left; simplify_eq/=; repeat (case_match; simplify_eq/=);
    try match goal with H : ?b = (w', _) |- _ => replace w' with b.1 by (by rewrite H) end;
    try apply benign_refl; try apply deactivate_body_benign; try apply disable_body_benign;
    (eapply benign_trans; [| apply with_ext_benign; intros []; simpl; naive_solver];
     apply log_unless_benign; auto).
Qed.

(** ** Preservation *)

Definition call_event (k : cap_kind) (p : promise) : event :=
  match k with KEnable => EvOnEnable p | KActivate => EvOnActivate p end.

Lemma elem_of_pending_fmap (l : list (cap_kind * promise)) p :
  p ∈ l.*2 ↔ ∃ k, (k, p) ∈ l.
Proof.
  rewrite list_elem_of_fmap. split.
  - intros [[k q] [-> Hk]]. eauto.
  - intros [k Hk]. by exists (k, p).
Qed.

Lemma settled_spec w p : settled w p = true ↔ ∀ k, (k, p) ∉ w_pending w.
Proof.
  unfold settled. rewrite bool_decide_eq_true, elem_of_pending_fmap. naive_solver.
Qed.

Lemma benign_inv w w' : lc_inv w → benign w w' → lc_inv w'.
Proof.
  intros [Hnd Hfr Hlt Hpi Hdone Hcnt Hdisp Hdist] (Hp & Hn & Hk).
  unfold settled in *. constructor; rewrite ?Hp, ?Hn.
  - done.
  - done.
  - intros k p. destruct (Hk k) as [-> _]. apply Hlt.
  - intros k p Hin. destruct (Hk k) as [-> _]. by apply Hpi.
  - intros k Hd. destruct (Hk k) as (-> & Hd' & _). unfold settled. rewrite Hp. auto.
  - intros k. destruct (Hk k) as (-> & _ & -> & -> & _). apply Hcnt.
  - intros k Hd. destruct (Hk k) as (-> & _ & _ & _ & [Hd0 | Hd0]); [done |].
    unfold settled. rewrite Hp. apply Hdisp. by rewrite <- Hd0.
  - intros p. destruct (Hk KEnable) as [-> _], (Hk KActivate) as [-> _]. apply Hdist.
Qed.

Lemma with_threads_inv w ts : lc_inv w → lc_inv (with_threads w ts).
Proof. intros []. by constructor. Qed.

(** Starting a capability callback: lines 292 and 331. *)
(** A fresh pending promise leaves every older promise's state alone. *)
Lemma settled_add_fresh w k p ev q :
  settled w q = true → q ≠ p →
  settled (emit (add_pending w k p) ev) q = true.
Proof.
  rewrite !settled_spec. intros Hs Hq k'. simpl. rewrite elem_of_app, list_elem_of_singleton.
  intros [Hin | [= _ ->]]; [by eapply Hs | done].
Qed.

Lemma start_inv w k e' :
  lc_inv w →
  done_of k (w_ext w) = false → inflight_of k (w_ext w) = None →
  (∀ k', inflight_of k' e' = if decide (k' = k) then Some (w_next w) else inflight_of k' (w_ext w)) →
  (∀ k', done_of k' e' = done_of k' (w_ext w)) →
  (∀ k', disposer_of k' e' = disposer_of k' (w_ext w)) →
  lc_inv (emit (add_pending (bump (with_ext w e')) k (w_next w)) (call_event k (w_next w))).
Proof.
  intros [Hnd Hfr Hlt Hpi Hdone Hcnt Hdisp Hdist] Hdk Hik Hinf Hd Hdd.
  assert (∀ q, q ∈ (w_pending w).*2 → q ≠ w_next w) as Hne.
  { intros q Hq ->. specialize (Hfr _ Hq). lia. }
  (* an older settled promise stays settled *)
  assert (∀ k' q, inflight_of k' (w_ext w) = Some q → settled w q = true →
            settled (emit (add_pending (bump (with_ext w e')) k (w_next w))
                          (call_event k (w_next w))) q = true) as Hold.
  { intros k' q Hq Hs. apply settled_add_fresh; [exact Hs |].
    specialize (Hlt _ _ Hq). lia. }
  constructor; simpl.
  - rewrite fmap_app. simpl. apply NoDup_app_single; [done |]. intros Hin. by apply (Hne _ Hin).
  - intros q. rewrite fmap_app. simpl. rewrite elem_of_app, list_elem_of_singleton.
    intros [Hq | ->]; [| lia].
    specialize (Hfr _ Hq). lia.
  - intros k' q. rewrite Hinf. case_decide; [intros [= ->]; lia |]. intros Hq. specialize (Hlt _ _ Hq). lia.
  - intros k' q. rewrite Hinf, elem_of_app, list_elem_of_singleton. intros [Hq | [= -> ->]].
    + specialize (Hpi _ _ Hq). case_decide; [congruence | done].
    + by rewrite decide_True.
  - intros k'. rewrite Hd, Hinf. intros Hd'. destruct (Hdone k' Hd') as (q & Hq & Hs).
    rewrite decide_False by congruence. exists q. split; [done |]. by eapply Hold.
  - intros k'. specialize (Hcnt k'). unfold calls_of, fails_of in *. simpl.
    rewrite !count_ev_app_single, Hinf.
    destruct k, k'; simpl in *; rewrite ?Hik in *; simpl in *; lia.
  - intros k'. rewrite Hdd, Hinf. intros Hd'. destruct (Hdisp k' Hd') as (q & Hq & Hs).
    rewrite decide_False by congruence. exists q. split; [done |]. by eapply Hold.
  - intros q. pose proof (Hinf KEnable) as Ee. pose proof (Hinf KActivate) as Ea.
    pose proof (Hlt KEnable) as Le. pose proof (Hlt KActivate) as La.
    simpl in Ee, Ea, Le, La. rewrite Ee, Ea.
    destruct k; simpl; intros H1 H2; simplify_eq; [specialize (La _ H2) | specialize (Le _ H1)]; lia.
Qed.

Lemma remove_pending_elem w p k q :
  (k, q) ∈ w_pending (remove_pending w p) ↔ (k, q) ∈ w_pending w ∧ q ≠ p.
Proof. simpl. rewrite list_elem_of_filter. naive_solver. Qed.

Lemma remove_pending_nodup w p :
  NoDup (w_pending w).*2 → NoDup (w_pending (remove_pending w p)).*2.
Proof. intros Hnd. eapply sublist_NoDup; [exact Hnd |]. apply fmap_sublist, sublist_filter. Qed.

Lemma settled_remove w p q :
  settled w q = true ∨ q = p → settled (remove_pending w p) q = true.
Proof.
  rewrite !settled_spec. intros Hq k. rewrite remove_pending_elem. naive_solver.
Qed.

(** The promise of a pending callback is the in-flight marker, and the
    hook is not done yet. *)
Lemma pending_not_done w k p :
  lc_inv w → (k, p) ∈ w_pending w →
  inflight_of k (w_ext w) = Some p ∧ done_of k (w_ext w) = false.
Proof.
  intros [_ _ _ Hpi Hdone _] Hkp. pose proof (Hpi _ _ Hkp) as Hin. split; [done |].
  destruct (done_of k _) eqn:E; [| done].
  destruct (Hdone _ E) as (q & Hq & Hs). rewrite Hin in Hq. injection Hq as <-.
  rewrite settled_spec in Hs. by destruct (Hs k).
Qed.

(** Fulfilment of a pending callback: lines 293-294 and 332-333. *)
Lemma settle_ok_inv w k p e' :
  lc_inv w → (k, p) ∈ w_pending w →
  (∀ k', inflight_of k' e' = inflight_of k' (w_ext w)) →
  (∀ k', done_of k' e' = if decide (k' = k) then true else done_of k' (w_ext w)) →
  (∀ k', k' ≠ k → disposer_of k' e' = disposer_of k' (w_ext w)) →
  lc_inv (bump (with_ext (remove_pending w p) e')).
Proof.
  intros Hinv Hkp Hinf Hd Hdd. destruct (pending_not_done _ _ _ Hinv Hkp) as [Hin _].
  destruct Hinv as [Hnd Hfr Hlt Hpi Hdone Hcnt Hdisp Hdist]. constructor; simpl.
  - by apply (remove_pending_nodup w p).
  - intros q Hq. apply elem_of_pending_fmap in Hq as [k' Hq].
    apply (remove_pending_elem w) in Hq as [Hq _].
    enough (q < w_next w) by lia. apply Hfr, elem_of_pending_fmap. eauto.
  - intros k' q. rewrite Hinf. intros Hq. specialize (Hlt _ _ Hq). lia.
  - intros k' q Hq. apply (remove_pending_elem w) in Hq as [Hq _]. rewrite Hinf. auto.
  - intros k'. rewrite Hd, Hinf. case_decide as Hk; [subst k' |].
    + intros _. exists p. split; [done |]. apply settled_remove. by right.
    + intros Hd'. destruct (Hdone _ Hd') as (q & Hq & Hs). exists q. split; [done |].
      apply settled_remove. by left.
  - intros k'. specialize (Hcnt k'). unfold calls_of, fails_of in *. simpl. by rewrite Hinf.
  - intros k' Hd'. rewrite Hinf. destruct (decide (k' = k)) as [-> | Hk].
    + exists p. split; [done |]. apply settled_remove. by right.
    + rewrite Hdd in Hd' by done. destruct (Hdisp _ Hd') as (q & Hq & Hs).
      exists q. split; [done |]. apply settled_remove. by left.
  - intros q. pose proof (Hinf KEnable) as Ee. pose proof (Hinf KActivate) as Ea.
    simpl in Ee, Ea. rewrite Ee, Ea. apply Hdist.
Qed.

(** Rejection of a pending callback: lines 295-297 and 334-336. *)
Lemma settle_err_inv w k p e' :
  lc_inv w → (k, p) ∈ w_pending w →
  (∀ k', inflight_of k' e' = if decide (k' = k) then None else inflight_of k' (w_ext w)) →
  (∀ k', done_of k' e' = done_of k' (w_ext w)) →
  (∀ k', disposer_of k' e' = disposer_of k' (w_ext w)) →
  lc_inv (with_ext (emit (remove_pending w p) (EvLogError (fail_site k))) e').
Proof.
  intros Hinv Hkp Hinf Hd Hdd. destruct (pending_not_done _ _ _ Hinv Hkp) as [Hin Hnd0].
  destruct Hinv as [Hnd Hfr Hlt Hpi Hdone Hcnt Hdisp Hdist]. constructor; simpl.
  - by apply (remove_pending_nodup w p).
  - intros q Hq. apply elem_of_pending_fmap in Hq as [k' Hq].
    apply (remove_pending_elem w) in Hq as [Hq _]. apply Hfr, elem_of_pending_fmap. eauto.
  - intros k' q. rewrite Hinf. case_decide; [done | apply Hlt].
  - intros k' q Hq. apply (remove_pending_elem w) in Hq as [Hq Hne]. rewrite Hinf.
    pose proof (Hpi _ _ Hq) as Hq'. case_decide; [subst; congruence | done].
  - intros k'. rewrite Hd, Hinf. intros Hd'. case_decide; [subst; congruence |].
    destruct (Hdone _ Hd') as (q & Hq & Hs). exists q. split; [done |].
    apply settled_remove. by left.
  - intros k'. specialize (Hcnt k'). unfold calls_of, fails_of in *. simpl.
    rewrite !count_ev_app_single, Hinf.
    destruct k, k'; simpl in *; rewrite ?Hin in *; simpl in *; lia.
  - intros k' Hd'. rewrite Hdd in Hd'. destruct (Hdisp _ Hd') as (q & Hq & Hs).
    rewrite Hinf. case_decide; [subst k' |].
    + rewrite Hin in Hq. injection Hq as <-. rewrite settled_spec in Hs. by destruct (Hs k).
    + exists q. split; [done |]. apply settled_remove. by left.
  - intros q. pose proof (Hinf KEnable) as Ee. pose proof (Hinf KActivate) as Ea.
    simpl in Ee, Ea. rewrite Ee, Ea.
    destruct k; simpl; [done | intros _ [=]].
Qed.

Lemma settle_inv w k p ok :
  lc_inv w → (k, p) ∈ w_pending w → lc_inv (settle w k p ok).
Proof.
  intros Hinv Hkp. unfold settle. destruct k, ok.
  - eapply settle_ok_inv; [done | done | by intros [] | by intros [] | by intros []].
  - eapply (settle_err_inv _ KEnable); [done | done | by intros [] | by intros [] | by intros []].
  - eapply settle_ok_inv; [done | done | by intros [] | by intros [] | by intros []].
  - eapply (settle_err_inv _ KActivate); [done | done | by intros [] | by intros [] | by intros []].
Qed.

Lemma enable_seg_inv w : lc_inv w → lc_inv (enable_seg w).1.
Proof.
  intros Hinv. unfold enable_seg.
  destruct (enabled _) eqn:He; [done |]. destruct (enabling _) eqn:Hi; [done |].
  apply (start_inv w KEnable); [done | done | done | by intros [] | by intros [] | by intros []].
Qed.

Lemma activate_seg_inv w : lc_inv w → lc_inv (activate_seg w).1.
Proof.
  intros Hinv. unfold activate_seg.
  destruct (activated _) eqn:He; [done |]. destruct (activating _) eqn:Hi; [done |].
  apply (start_inv w KActivate); [done | done | done | by intros [] | by intros [] | by intros []].
Qed.

Lemma step_fn_inv w c w' : lc_inv w → step_fn w c = Some w' → lc_inv w'.
Proof.
  intros Hinv Hstep. destruct c as [m | i ok | p ok]; simpl in Hstep.
  - simplify_eq. by apply with_threads_inv.
  - destruct (w_threads w !! i) as [[|f rest]|]; try done.
    destruct (exec w f ok) as [[w1 fs]|] eqn:Hx; simplify_eq/=.
    apply with_threads_inv.
    destruct (exec_cases _ _ _ _ _ Hx) as [Hb | [[-> Hs] | [-> Hs]]].
    + by eapply benign_inv.
    + replace w1 with (enable_seg w).1 by (by rewrite <- Hs). by apply enable_seg_inv.
    + replace w1 with (activate_seg w).1 by (by rewrite <- Hs). by apply activate_seg_inv.
  - destruct (list_find _ _) as [[j [k q]]|] eqn:Hf; simplify_eq.
    apply list_find_Some in Hf as (Hj & Hq & _). simpl in Hq. subst q.
    apply settle_inv; [done |]. by eapply list_elem_of_lookup_2.
Qed.

Lemma init_world_inv : lc_inv init_world.
Proof.
  constructor; simpl;
    [apply NoDup_nil_2 | set_solver | by intros [] | set_solver | by intros [] | by intros []
    | by intros [] | done].
Qed.

Lemma reachable_inv w : reachable w → lc_inv w.
Proof.
  induction 1 as [| w w' _ IH [c Hc]]; [apply init_world_inv |].
  by eapply step_fn_inv.
Qed.

Lemma run_reachable w cs w' : reachable w → run w cs = Some w' → reachable w'.
Proof.
  revert w. induction cs as [|c cs IH]; intros w Hw Hrun; simpl in Hrun.
  - by simplify_eq.
  - destruct (step_fn w c) as [w1|] eqn:E; [| done].
    apply (IH w1); [| done]. eapply reach_step; [done | by exists c].
Qed.

Lemma pending_of_spec k w p : p ∈ pending_of k w ↔ (k, p) ∈ w_pending w.
Proof.
  unfold pending_of. rewrite list_elem_of_fmap. split.
  - intros [[k' q] [-> Hin]]. apply list_elem_of_filter in Hin as [Hk Hin]. simpl in *. by subst.
  - intros Hin. exists (k, p). split; [done |]. by apply list_elem_of_filter.
Qed.

Lemma pending_of_nodup k w : NoDup (w_pending w).*2 → NoDup (pending_of k w).
Proof. intros Hnd. eapply sublist_NoDup; [exact Hnd |]. apply fmap_sublist, sublist_filter. Qed.

(** ** The lifecycle theorems *)

(** C4. In every reachable state, a pending [onEnable()]/[onActivate()]
    callback is the one the [_enabling]/[_activating] marker holds, and
    the hook is not marked done ([_enabled]/[_activated] false): in flight
    and done never hold together. *)
Theorem reachable_inflight_not_done (w : world) (k : cap_kind) (p : promise) :
  reachable w → (k, p) ∈ w_pending w →
  inflight_of k (w_ext w) = Some p ∧ done_of k (w_ext w) = false.
Proof. intros Hr. apply pending_not_done, reachable_inv, Hr. Qed.

(** C1. In every reachable state, at most one [onEnable()] and at most
    one [onActivate()] callback is pending, however the calls interleave. *)
Theorem reachable_single_inflight (w : world) (k : cap_kind) :
  reachable w → length (pending_of k w) ≤ 1.
Proof.
  intros Hr. pose proof (reachable_inv w Hr) as Hinv.
  pose proof (pending_of_nodup k w (inv_nodup _ Hinv)) as Hnd.
  destruct (pending_of k w) as [|p [|q l]] eqn:E; simpl; [lia | lia |].
  assert (∀ x, x ∈ pending_of k w → inflight_of k (w_ext w) = Some x) as Hall.
  { intros x Hx%pending_of_spec. by apply (inv_pending_inflight _ Hinv). }
  rewrite E in Hall. apply NoDup_cons in Hnd as [Hp _].
  exfalso. apply Hp. assert (Some p = Some q) as [= ->]; [| set_solver].
  rewrite <- (Hall p), <- (Hall q); set_solver.
Qed.

(** C3. In every reachable state, the number of [onEnable()] calls equals
    the number of enable failures logged, plus one while [_enabling] is
    set; the same for [onActivate()]. *)
Theorem reachable_calls_count (w : world) (k : cap_kind) :
  reachable w → calls_of k w = fails_of k w + opt_count (inflight_of k (w_ext w)).
Proof. intros Hr. apply (inv_count _ (reachable_inv w Hr)). Qed.

(** C2. However many concurrent [enable()] (or [activate()]) calls are
    made, the capability hook runs at most once unless it fails. *)
Theorem reachable_calls_without_failure (w : world) (k : cap_kind) :
  reachable w → fails_of k w = 0 → calls_of k w ≤ 1.
Proof.
  intros Hr Hf. rewrite reachable_calls_count by done. rewrite Hf.
  simpl. destruct (inflight_of k _); simpl; lia.
Qed.

Lemma enable_stuck_with_threads p n w ts :
  enable_stuck p n w → enable_stuck p n (with_threads w ts).
Proof. done. Qed.

Lemma enable_stuck_benign p n w w' :
  benign w w' → enable_stuck p n w → enable_stuck p n w'.
Proof.
  intros (Hp & _ & Hk) (He & Hi & Hs & Hc). destruct (Hk KEnable) as (Hi' & Hd & Hc' & _).
  simpl in *. split_and!.
  - destruct (enabled (w_ext w')); [| done]. rewrite He in Hd. by specialize (Hd eq_refl).
  - congruence.
  - unfold settled in *. by rewrite Hp.
  - unfold calls_of in Hc'. simpl in Hc'. congruence.
Qed.

Lemma enable_stuck_activate_seg p n w :
  lc_inv w → enable_stuck p n w → enable_stuck p n (activate_seg w).1.
Proof.
  intros Hinv (He & Hi & Hs & Hc). unfold activate_seg.
  destruct (activated _); [done |]. destruct (activating _); [done |].
  pose proof (inv_inflight_lt _ Hinv KEnable p Hi) as Hlt.
  unfold enable_stuck, settled in *. simpl. rewrite count_ev_app_single. simpl.
  split_and!; [done | done | | lia].
  apply bool_decide_eq_true in Hs. apply bool_decide_eq_true.
  rewrite fmap_app. simpl. rewrite elem_of_app, list_elem_of_singleton. intros [? | ->]; [done | lia].
Qed.

Lemma enable_stuck_settle p n w k q ok :
  lc_inv w → (k, q) ∈ w_pending w → enable_stuck p n w → enable_stuck p n (settle w k q ok).
Proof.
  intros Hinv Hkq (He & Hi & Hs & Hc).
  pose proof (inv_pending_inflight _ Hinv _ _ Hkq) as Hq.
  assert (q ≠ p) as Hne.
  { intros ->. rewrite settled_spec in Hs. by apply (Hs k). }
  destruct k; simpl in Hq; [congruence |].
  assert (settled (remove_pending w q) p = true) as Hs' by (apply settled_remove; by left).
  unfold settle. destruct ok; unfold enable_stuck in *; simpl in *.
  - by split_and!.
  - rewrite count_ev_app_single. simpl. split_and!; [done | done | done | lia].
Qed.

Lemma enable_stuck_step p n w w' :
  lc_inv w → enable_stuck p n w → step w w' → enable_stuck p n w'.
Proof.
  intros Hinv Hst [c Hstep]. destruct c as [m | i ok | q ok]; simpl in Hstep.
  - simplify_eq. by apply enable_stuck_with_threads.
  - destruct (w_threads w !! i) as [[|f rest]|]; try done.
    destruct (exec w f ok) as [[w1 fs]|] eqn:Hx; simplify_eq/=.
    apply enable_stuck_with_threads.
    destruct (exec_cases _ _ _ _ _ Hx) as [Hb | [[-> Hs] | [-> Hs]]].
    + by eapply enable_stuck_benign.
    + pose proof Hst as (He & Hi & _). unfold enable_seg in Hs. rewrite He, Hi in Hs.
      by simplify_eq.
    + replace w1 with (activate_seg w).1 by (by rewrite <- Hs).
      by apply enable_stuck_activate_seg.
  - destruct (list_find _ _) as [[j [k q']]|] eqn:Hf; simplify_eq.
    apply list_find_Some in Hf as (Hj & Hq & _). simpl in Hq. subst q'.
    apply enable_stuck_settle; [done | by eapply list_elem_of_lookup_2 | done].
Qed.

Lemma enable_stuck_rtc p n w w' :
  reachable w → enable_stuck p n w → rtc step w w' → enable_stuck p n w'.
Proof.
  intros Hr Hst Hsteps. revert Hr Hst.
  induction Hsteps as [w | w w1 w' Hstep _ IH]; intros Hr Hst; [done |].
  apply IH; [by eapply reach_step |].
  eapply enable_stuck_step; [by apply reachable_inv | done | done].
Qed.

(** C5. Once an enable has succeeded and [disable()] has cleared
    [_enabled], the extension can never be enabled again: [_enabling] still
    holds the settled promise, so every later [enable()] returns it
    without calling [onEnable()] (lines 289-291), whatever happens next. *)
Theorem enable_after_disable_stuck (w w' : world) (p : promise) :
  reachable w →
  enabled (w_ext w) = false → enabling (w_ext w) = Some p → settled w p = true →
  rtc step w w' →
  enabled (w_ext w') = false ∧ enabling (w_ext w') = Some p ∧
  calls_of KEnable w' = calls_of KEnable w.
Proof.
  intros Hr He Hi Hs Hsteps.
  assert (enable_stuck p (calls_of KEnable w) w') as (? & ? & _ & ?); [| by split_and!].
  eapply enable_stuck_rtc; [done | by split_and! | done].
Qed.

Lemma run_rtc w cs w' : run w cs = Some w' → rtc step w w'.
Proof.
  revert w. induction cs as [|c cs IH]; intros w Hrun; simpl in Hrun; [by simplify_eq |].
  destruct (step_fn w c) as [w1|] eqn:E; [| done].
  eapply rtc_l; [by exists c | by apply IH].
Qed.

Lemma world_after_reachable cs : is_Some (run init_world cs) → reachable (world_after cs).
Proof.
  intros [w Hw]. unfold world_after. rewrite Hw. simpl.
  by apply (run_reachable init_world cs); [apply reach_init |].
Qed.

(** C9. When no capability callback is pending, [dispose()] run alone
    terminates and leaves the extension deactivated and disabled with
    both disposers cleared; a second [dispose()] then changes nothing and
    calls nothing, whatever the disposers' outcomes. *)
Theorem dispose_twice_idempotent (w : world) (ok1 ok2 : bool) :
  reachable w → w_pending w = [] →
  ∃ w1, call_alone MDispose ok1 w = Some w1 ∧ call_alone MDispose ok2 w1 = Some w1 ∧
        activated (w_ext w1) = false ∧ enabled (w_ext w1) = false ∧
        enableDisposer (w_ext w1) = None ∧ activateDisposer (w_ext w1) = None.
Proof.
  intros Hr Hp. pose proof (inv_disposer _ (reachable_inv w Hr)) as Hd.
  pose proof (Hd KEnable) as Hd1. pose proof (Hd KActivate) as Hd2. clear Hd Hr.
  destruct w as [[[] [] [d1|] [p1|] [p2|] [d2|]] pend ts nx lg]; simpl in *; subst;
    try (destruct Hd1 as (? & [=] & _); done); try (destruct Hd2 as (? & [=] & _); done);
    destruct ok1, ok2; eexists; split_and!; reflexivity.
Qed.

(** A promise allocated from the counter is fresh: [list_find] for it in
    the pending list finds the entry just appended. *)
Lemma list_find_fresh_last (pend : list (cap_kind * promise)) k n :
  (∀ q, q ∈ pend.*2 → q < n) →
  list_find (λ kp, kp.2 = n) (pend ++ [(k, n)]) = Some (length pend, (k, n)).
Proof.
  intros Hfr. rewrite list_find_app_r; simpl.
  - rewrite decide_True by done. done.
  - apply list_find_None, Forall_forall. intros [k' q] Hin Hq.
    simpl in *. subst q. assert (n < n); [| lia]. apply Hfr, list_elem_of_fmap. by exists (k', n).
Qed.

(** C10. The first caller of [enable()] does not wait for [onEnable()]
    (lines 288-299): from any state where the extension is neither enabled
    nor enabling, the call finishes after starting [onEnable()] once, with
    [_enabling] set to the new promise, which has not settled, and
    [_enabled] still false. A second caller, run alone from there, blocks
    on [await this._enabling]. [spec.md] says every caller gets the same
    pending operation, and [Promise.all] in the manager (line 90) therefore
    does not wait for the first enable. *)
Theorem enable_first_caller_returns_early (w : world) (ok : bool) :
  enabled (w_ext w) = false → enabling (w_ext w) = None →
  ∃ w', call_alone MEnable ok w = Some w' ∧
        enabling (w_ext w') = Some (w_next w) ∧ settled w' (w_next w) = false ∧
        enabled (w_ext w') = false ∧
        count_ev is_onEnable (w_log w') = S (count_ev is_onEnable (w_log w)) ∧
        call_alone MEnable ok w' = None.
Proof.
  destruct w as [[a e ed en ac ad] pend ts nx lg]; simpl; intros -> ->.
  unfold call_alone; simpl. eexists; split; [reflexivity |]. simpl.
  unfold settled; simpl. rewrite bool_decide_eq_false_2.
  - rewrite count_ev_app_single. simpl. split_and!; [done | done | done | lia | done].
  - rewrite fmap_app. set_solver.
Qed.

(** C8. Two overlapping [deactivate()] calls call the same activate
    disposer twice (lines 340-356). From any state where the extension is
    activated, its [_activating] promise has settled and the disposer [d]
    is set: the first call clears [_activated], calls [d.dispose()] and
    awaits it; the second, started meanwhile, passes the [_activated]
    check through the stale [_activating] promise and finds
    [_activateDisposer] not yet cleared, so it calls [d.dispose()] again. *)
Theorem concurrent_deactivate_double_dispose (w : world) (p d : nat) :
  activated (w_ext w) = true → activating (w_ext w) = Some p → settled w p = true →
  activateDisposer (w_ext w) = Some d →
  let n := length (w_threads w) in
  ∃ w', run w [CCall MDeactivate; CCall MDeactivate; CRun n true; CRun (S n) true;
               CRun (S n) true] = Some w' ∧
        count_ev (is_dispose_of d) (w_log w') = count_ev (is_dispose_of d) (w_log w) + 2.
Proof.
  cbv zeta. destruct w as [[a e ed en ac ad] pend ts nx lg]; simpl; intros -> -> Hs ->.
  simpl. rewrite <- app_assoc. simpl.
  repeat (autorewrite with s2p_rw; simpl).
  unfold settled; simpl. unfold settled in Hs. simpl in Hs. rewrite Hs. simpl.
  repeat (autorewrite with s2p_rw; simpl).
  eexists; split; [reflexivity |]. simpl. rewrite !count_ev_app_single. simpl.
  rewrite bool_decide_eq_true_2 by done. lia.
Qed.

(** C11. [activate()] does not check that the extension is enabled (lines
    323-338): from any reachable state where the extension is neither
    enabled, activated nor activating, [activate()] starts [onActivate()],
    and once that promise fulfils the extension is activated while still
    disabled, and [onEnable()] has not been called. *)
Theorem activate_without_enable (w : world) (ok : bool) :
  reachable w → enabled (w_ext w) = false → activated (w_ext w) = false →
  activating (w_ext w) = None →
  ∃ w1 w2, call_alone MActivate ok w = Some w1 ∧
           step_fn w1 (CSettle (w_next w) true) = Some w2 ∧
           activated (w_ext w2) = true ∧ enabled (w_ext w2) = false ∧
           calls_of KEnable w2 = calls_of KEnable w ∧
           calls_of KActivate w2 = S (calls_of KActivate w).
Proof.
  intros Hr. pose proof (inv_fresh _ (reachable_inv w Hr)) as Hfr. clear Hr.
  destruct w as [[a e ed en ac ad] pend ts nx lg]; simpl in *; intros -> -> ->.
  unfold call_alone; simpl. eexists _, _; split; [reflexivity |]. simpl.
  rewrite list_find_fresh_last by done. simpl. split; [reflexivity |].
  unfold calls_of; simpl. rewrite !count_ev_app_single. simpl. split_and!; [done | done | lia | lia].
Qed.

(** C30. Termination of each method. When no capability callback is
    pending, every lifecycle method run alone completes: each of [enable],
    [disable], [activate], [deactivate] and [dispose] finishes within the 16
    segments [call_alone] allows, whatever the fields hold and whatever
    each awaited [dispose()] does. A call that starts [onEnable()] or
    [onActivate()] does not await it. *)
Theorem call_alone_total m ok w : w_pending w = [] → is_Some (call_alone m ok w).
Proof.
  destruct w as [[a e ed en ac ad] pend th nx lg]; simpl; intros ->.
  destruct m, ok, a, e, ed, en, ac, ad; vm_compute; eauto.
Qed.

(** ** Witnesses *)

Lemma reachable_inflight_not_done_witness :
  inflight_of KEnable (w_ext (world_after sched_enable_twice)) = Some 0 ∧
  done_of KEnable (w_ext (world_after sched_enable_twice)) = false.
Proof.
  apply reachable_inflight_not_done;
    [apply world_after_reachable; vm_compute; by eexists | decide_prop].
Defined.

Lemma reachable_single_inflight_witness :
  length (pending_of KEnable (world_after sched_enable_twice)) ≤ 1.
Proof. apply reachable_single_inflight, world_after_reachable. vm_compute. by eexists. Defined.

Lemma reachable_calls_count_witness :
  calls_of KActivate (world_after sched_enable_activate) =
  fails_of KActivate (world_after sched_enable_activate) +
  opt_count (inflight_of KActivate (w_ext (world_after sched_enable_activate))).
Proof. apply reachable_calls_count, world_after_reachable. vm_compute. by eexists. Defined.

Lemma reachable_calls_without_failure_witness :
  calls_of KEnable (world_after sched_enable_twice) ≤ 1.
Proof.
  apply reachable_calls_without_failure;
    [apply world_after_reachable; vm_compute; by eexists | vm_compute; reflexivity].
Defined.

Lemma enable_after_disable_stuck_witness :
  enabled (w_ext world_reenabled) = false ∧ enabling (w_ext world_reenabled) = Some 0 ∧
  calls_of KEnable world_reenabled = calls_of KEnable (world_after sched_enable_disable).
Proof.
  apply enable_after_disable_stuck;
    [apply world_after_reachable; vm_compute; by eexists
    | vm_compute; reflexivity | vm_compute; reflexivity | vm_compute; reflexivity
    | apply (run_rtc _ sched_reenable); vm_compute; reflexivity].
Defined.

Lemma dispose_twice_idempotent_witness :
  ∃ w1, call_alone MDispose false (world_after sched_enable_activate) = Some w1 ∧
        call_alone MDispose true w1 = Some w1 ∧
        activated (w_ext w1) = false ∧ enabled (w_ext w1) = false ∧
        enableDisposer (w_ext w1) = None ∧ activateDisposer (w_ext w1) = None.
Proof.
  apply dispose_twice_idempotent;
    [apply world_after_reachable; vm_compute; by eexists | vm_compute; reflexivity].
Defined.

Lemma enable_first_caller_returns_early_witness :
  ∃ w', call_alone MEnable true init_world = Some w' ∧
        enabling (w_ext w') = Some (w_next init_world) ∧ settled w' (w_next init_world) = false ∧
        enabled (w_ext w') = false ∧
        count_ev is_onEnable (w_log w') = S (count_ev is_onEnable (w_log init_world)) ∧
        call_alone MEnable true w' = None.
Proof. apply enable_first_caller_returns_early; reflexivity. Defined.

Lemma concurrent_deactivate_double_dispose_witness :
  let w := world_after sched_activate_only in
  let n := length (w_threads w) in
  ∃ w', run w [CCall MDeactivate; CCall MDeactivate; CRun n true; CRun (S n) true;
               CRun (S n) true] = Some w' ∧
        count_ev (is_dispose_of 1) (w_log w') = count_ev (is_dispose_of 1) (w_log w) + 2.
Proof. apply (concurrent_deactivate_double_dispose _ 0 1); vm_compute; reflexivity. Defined.

Lemma activate_without_enable_witness :
  ∃ w1 w2, call_alone MActivate true init_world = Some w1 ∧
           step_fn w1 (CSettle (w_next init_world) true) = Some w2 ∧
           activated (w_ext w2) = true ∧ enabled (w_ext w2) = false ∧
           calls_of KEnable w2 = calls_of KEnable init_world ∧
           calls_of KActivate w2 = S (calls_of KActivate init_world).
Proof. apply activate_without_enable; [apply reach_init | reflexivity ..]. Defined.

Lemma call_alone_total_witness :
  w_pending (world_after sched_enable_activate) = [] ∧
  is_Some (call_alone MDispose false (world_after sched_enable_activate)).
Proof.
  split; [vm_compute; reflexivity |].
  apply call_alone_total. vm_compute. reflexivity.
Defined.

(** ** Refinement of the abstract phases *)

Lemma settled_bump w q : settled (bump w) q = settled w q.
Proof. done. Qed.
Lemma settled_with_ext w e q : settled (with_ext w e) q = settled w q.
Proof. done. Qed.
Lemma settled_emit w ev q : settled (emit w ev) q = settled w q.
Proof. done. Qed.

#[export] Hint Rewrite settled_bump settled_with_ext settled_emit : s2p_rw.

Lemma settled_add_eq w k p ev q :
  q ≠ p → settled (emit (add_pending w k p) ev) q = settled w q.
Proof.
  intros Hne. unfold settled. apply bool_decide_ext. simpl.
  rewrite fmap_app. simpl. rewrite elem_of_app, list_elem_of_singleton. naive_solver.
Qed.

Lemma settled_add_self w k p ev : settled (emit (add_pending w k p) ev) p = false.
Proof.
  unfold settled. apply bool_decide_eq_false_2. simpl. rewrite fmap_app. set_solver.
Qed.

Lemma settled_remove_eq w p q : q ≠ p → settled (remove_pending w p) q = settled w q.
Proof.
  intros Hne. unfold settled. apply bool_decide_ext. rewrite !elem_of_pending_fmap.
  split; intros H [k Hk]; apply H; exists k.
  - apply remove_pending_elem. by split.
  - by apply (remove_pending_elem w p) in Hk as [Hk _].
Qed.

Lemma settled_pending w k p : (k, p) ∈ w_pending w → settled w p = false.
Proof.
  intros Hin. destruct (settled w p) eqn:E; [| done]. rewrite settled_spec in E. by destruct (E k).
Qed.

Lemma phase_benign k w w' :
  benign w w' → phase_of k w' = phase_of k w ∨ phase_step (phase_of k w) (phase_of k w').
Proof.
  intros (Hp & _ & Hk). destruct (Hk k) as (Hi & Hd & _).
  unfold phase_of. rewrite Hi. destruct (inflight_of k (w_ext w)) as [p|]; [| by left].
  replace (settled w' p) with (settled w p) by (unfold settled; by rewrite Hp).
  destruct (settled w p); simpl; [| by left].
  destruct (done_of k (w_ext w')) eqn:E1, (done_of k (w_ext w)) eqn:E2; try by left.
  - discriminate (Hd eq_refl).
  - right. constructor.
Qed.

Lemma phase_start w k e' k0 :
  lc_inv w → inflight_of k (w_ext w) = None →
  (∀ k', inflight_of k' e' = if decide (k' = k) then Some (w_next w) else inflight_of k' (w_ext w)) →
  (∀ k', done_of k' e' = done_of k' (w_ext w)) →
  let w' := emit (add_pending (bump (with_ext w e')) k (w_next w)) (call_event k (w_next w)) in
  phase_of k0 w' = phase_of k0 w ∨ phase_step (phase_of k0 w) (phase_of k0 w').
Proof.
  intros Hinv Hik Hinf Hd w'. unfold phase_of, w'.
  change (w_ext (emit (add_pending (bump (with_ext w e')) k (w_next w)) (call_event k (w_next w))))
    with e'.
  rewrite Hinf, Hd. case_decide as Hk; [subst k0 |].
  - rewrite Hik, settled_add_self. right. constructor.
  - destruct (inflight_of k0 (w_ext w)) as [q|] eqn:Hq; [| by left]. left.
    rewrite settled_add_eq; [done |]. pose proof (inv_inflight_lt _ Hinv _ _ Hq). lia.
Qed.

Lemma phase_settle k0 w k p ok :
  lc_inv w → (k, p) ∈ w_pending w →
  phase_of k0 (settle w k p ok) = phase_of k0 w ∨
  phase_step (phase_of k0 w) (phase_of k0 (settle w k p ok)).
Proof.
  intros Hinv Hkp. destruct (pending_not_done _ _ _ Hinv Hkp) as [Hin Hnd].
  pose proof (settled_pending _ _ _ Hkp) as Hsp.
  assert (∀ q, inflight_of k0 (w_ext w) = Some q → k0 ≠ k → q ≠ p) as Hother.
  { intros q Hq Hk ->. apply (inv_distinct _ Hinv p); destruct k0, k; simpl in *; congruence. }
  unfold phase_of, settle. destruct (decide (k0 = k)) as [-> | Hk].
  - rewrite Hin, Hsp. destruct k, ok; simpl in *; rewrite ?Hin; simpl;
      autorewrite with s2p_rw; rewrite ?(settled_remove _ p p (or_intror eq_refl));
      right; constructor.
  - destruct (inflight_of k0 (w_ext w)) as [q|] eqn:Hq.
    + left. pose proof (Hother q eq_refl Hk) as Hqp.
      destruct k, ok, k0; simpl in *; try congruence; rewrite ?Hq;
        autorewrite with s2p_rw; rewrite settled_remove_eq by done; done.
    + left. destruct k, ok, k0; simpl in *; try congruence; by rewrite Hq.
Qed.

(** C6. Refinement of the abstract phases. Every step of any interleaving
    either leaves a hook's phase unchanged or makes one move of
    [phase_step]: start its callback, see it fail or succeed, or clear the
    flag. *)
Theorem lifecycle_refines_phases (w w' : world) (k : cap_kind) :
  reachable w → step w w' →
  phase_of k w' = phase_of k w ∨ phase_step (phase_of k w) (phase_of k w').
Proof.
  intros Hr [c Hstep]. pose proof (reachable_inv w Hr) as Hinv.
  destruct c as [m | i ok | p ok]; simpl in Hstep.
  - simplify_eq. by left.
  - destruct (w_threads w !! i) as [[|f rest]|]; try done.
    destruct (exec w f ok) as [[w1 fs]|] eqn:Hx; simplify_eq/=.
    change (phase_of k (with_threads w1 ?ts)) with (phase_of k w1).
    destruct (exec_cases _ _ _ _ _ Hx) as [Hb | [[-> Hs] | [-> Hs]]].
    + by apply phase_benign.
    + replace w1 with (enable_seg w).1 by (by rewrite <- Hs). unfold enable_seg.
      destruct (enabled _) eqn:He; [by left |]. destruct (enabling _) eqn:Hi; [by left |].
      apply (phase_start w KEnable); [done | done | by intros [] | by intros []].
    + replace w1 with (activate_seg w).1 by (by rewrite <- Hs). unfold activate_seg.
      destruct (activated _) eqn:He; [by left |]. destruct (activating _) eqn:Hi; [by left |].
      apply (phase_start w KActivate); [done | done | by intros [] | by intros []].
  - destruct (list_find _ _) as [[j [k' q]]|] eqn:Hf; simplify_eq.
    apply list_find_Some in Hf as (Hj & Hq & _). simpl in Hq. subst q.
    apply phase_settle; [done | by eapply list_elem_of_lookup_2].
Qed.

(** C7. [PCleared] is absorbing. Once [disable()] (or [deactivate()]) has
    cleared a hook whose promise succeeded, no interleaving ever leaves
    that phase: neither [enable()] nor [activate()] works again on that
    extension. *)
Theorem phase_cleared_absorbing (w w' : world) (k : cap_kind) (p : promise) :
  reachable w → phase_of k w = PCleared p → rtc step w w' → phase_of k w' = PCleared p.
Proof.
  intros Hr Hph Hsteps. revert Hr Hph.
  induction Hsteps as [w | w w1 w' Hstep _ IH]; intros Hr Hph; [done |].
  apply IH; [by eapply reach_step |].
  destruct (lifecycle_refines_phases w w1 k Hr Hstep) as [-> | Hps]; [done |].
  rewrite Hph in Hps. inversion Hps.
Qed.

Lemma lifecycle_refines_phases_witness :
  phase_of KEnable world_enable_settled = phase_of KEnable (world_after sched_enable_twice) ∨
  phase_step (phase_of KEnable (world_after sched_enable_twice)) (phase_of KEnable world_enable_settled).
Proof.
  apply lifecycle_refines_phases;
    [apply world_after_reachable; vm_compute; by eexists | exists (CSettle 0 true); vm_compute; reflexivity].
Defined.

Lemma phase_cleared_absorbing_witness : phase_of KEnable world_reenabled = PCleared 0.
Proof.
  apply (phase_cleared_absorbing (world_after sched_enable_disable));
    [apply world_after_reachable; vm_compute; by eexists | vm_compute; reflexivity
    | apply (run_rtc _ sched_reenable); vm_compute; reflexivity].
Defined.
