(* ===== verification/Manager.v ===== *)
(** * [FeatureExtensionManagerServiceImpl] and [FeatureExtensionProcessManageImpl]

    This file models [src/packages/feature-extension/src/browser/extension.service.ts],
    lines 17-172. The manager's methods run one after another. Each is a
    computation of the state-and-exception monad [M] over the record
    [manager]:
    - [m_registry] is the injected registry;
    - [m_extensions] is [this.extensions];
    - [m_protocol] is [this.protocol];
    - [m_host] is the state of the extension host behind the protocol;
    - [m_trace] records, in order, every call the manager makes to a
      collaborator and every error it logs.
    The extension host is reached through the interface [ExtHostService]:
    its two methods [$getExtension] and [$activateExtension] change the
    host's state and return an outcome. [Bridge] gives the instance that
    runs them over the RPC model of [Rpc]; [script_host] is a host that
    answers from a fixed list. The other collaborators are section variables
    that fix the outcome of each external call:
    - [node_createExtProcess]: the node service;
    - [ws_openChannel]: the WebSocket channel handler;
    - [contributions]: the capability contributions. *)

From S2P Require Import Prelude JsCollections Registry Lifecycle.
From Stdlib Require Import Lia.

(** The calls the manager makes, and what it logs. *)
Inductive effect :=
| EffCreateExtProcess                    (** [extensionNodeService.createExtProcess()] *)
| EffOpenChannel (name : string)         (** [wsChannelHandler.openChannel(name)] *)
| EffNewProtocol (n : nat)               (** [new RPCProtocol(...)], the [n]-th one *)
| EffProtocolSet (n : nat) (id : string) (** [protocol.set(id, ...)] on protocol [n] *)
| EffGetProxy (n : nat) (id : string)    (** [protocol.getProxy(id)] on protocol [n] *)
| EffRemoteCall (meth : string) (args : list string)  (** a call through the proxy *)
| EffConsoleLog (msg : string)
| EffSetTimeout (ms : nat)
| EffLogError (e : js_error).            (** [getLogger().error(e)] *)

(** [MainThreadAPIIdentifier.MainThreadCommands] and
    [ExtHostAPIIdentifier.ExtHostExtensionService], from [../common]. *)
Definition MainThreadCommands : string := "MainThreadCommands".
Definition ExtHostExtensionService : string := "ExtHostExtensionService".

(** Messages of the [TypeError]s the code can raise, and of [throw new
    Error('Method not implemented.')]. *)
Definition type_error_set : js_error := "Cannot read properties of undefined (reading 'set')".
Definition type_error_getProxy : js_error :=
  "Cannot read properties of undefined (reading 'getProxy')".
Definition type_error_path : js_error := "Cannot read properties of undefined (reading 'path')".
Definition not_implemented : js_error := "Method not implemented.".

(** Contributions for the witnesses: the first hook throws, the second is
    absent, the third adds a scan directory. *)
Definition demo_contributions :
    list (option (@registry demo_type → @registry demo_type * option js_error)) :=
  [Some (λ r, (r, Some "boom")); None;
   Some (λ r, ((addFeatureExtensionScanDirectory "/opt/ext" r).1, None))].

(** What the manager needs of [ExtHostAPIIdentifier.ExtHostExtensionService]:
    the [path]s of the extensions it reports, and activation by path. *)
Class ExtHostService (H : Type) := {
  eh_getExtension : H → H * outcome (list string);
  eh_activateExtension : string → H → H * outcome unit
}.

(** A host that reports a fixed list of extension paths and records the
    paths it is asked to activate. *)
Record script_host := ScriptHost { sh_extensions : list string; sh_activated : list string }.

#[export] Instance script_host_service : ExtHostService script_host := {
  eh_getExtension h := (h, Ret (sh_extensions h));
  eh_activateExtension p h := (ScriptHost (sh_extensions h) (sh_activated h ++ [p]), Ret tt)
}.

Section Manager.
Context {T : Type} `{FeatureExtensionType T}.
Context {Host : Type} `{ExtHostService Host}.

(** A capability contribution: its optional [registerCapability] hook. The
    hook may change the registry and then throw. *)
Definition contribution := option (@registry T → @registry T * option js_error).

Record manager := mkManager {
  m_registry : @registry T;
  m_extensions : jsmap string world;
  m_protocol : option nat;
  m_next_protocol : nat;
  m_host : Host;
  m_trace : list effect
}.

Definition init_manager (h : Host) : manager := mkManager init_registry jm_empty None 0 h [].

Definition set_m_registry (s : manager) r :=
  mkManager r (m_extensions s) (m_protocol s) (m_next_protocol s) (m_host s) (m_trace s).
Definition set_m_extensions (s : manager) x :=
  mkManager (m_registry s) x (m_protocol s) (m_next_protocol s) (m_host s) (m_trace s).
Definition set_m_protocol (s : manager) p :=
  mkManager (m_registry s) (m_extensions s) (Some p) (S p) (m_host s) (m_trace s).
Definition set_m_host (s : manager) h :=
  mkManager (m_registry s) (m_extensions s) (m_protocol s) (m_next_protocol s) h (m_trace s).
Definition add_trace (s : manager) ev :=
  mkManager (m_registry s) (m_extensions s) (m_protocol s) (m_next_protocol s) (m_host s)
    (m_trace s ++ [ev]).

(** ** The monad *)

Definition M (A : Type) : Type := manager → outcome A * manager.

#[export] Instance M_ret : MRet M := λ A a s, (Ret a, s).
#[export] Instance M_bind : MBind M := λ A B f m s,
  match m s with (Ret a, s') => f a s' | (Throw e, s') => (Throw e, s') end.

Definition m_throw {A} (e : js_error) : M A := λ s, (Throw e, s).
Definition m_lift {A} (o : outcome A) : M A := λ s, (o, s).
(** [try { m } catch (e) { h(e) }] *)
Definition m_try {A} (m : M A) (h : js_error → M A) : M A :=
  λ s, match m s with (Throw e, s') => h e s' | r => r end.
Definition m_get : M manager := λ s, (Ret s, s).
Definition m_put (s : manager) : M unit := λ _, (Ret tt, s).
Definition m_emit (ev : effect) : M unit := λ s, (Ret tt, add_trace s ev).
(** An awaited call to the extension host. *)
Definition m_host_call {A} (f : Host → Host * outcome A) : M A :=
  λ s, let '(h', o) := f (m_host s) in (o, set_m_host s h').

(** ** Collaborators *)

Variable contributions : list contribution.
Variable node_createExtProcess : outcome unit.
Variable ws_openChannel : string → outcome unit.

(** ** Methods *)

(** [FeatureExtensionProcessManageImpl.create()], lines 22-24. *)
Definition processManage_create : M unit :=
  m_emit EffCreateExtProcess;; m_lift node_createExtProcess.

(** [initExtProtocol()], lines 99-119: open the [ExtProtocol] channel and
    store a new [RPCProtocol] over it in [this.protocol]. The
    [RPCServiceCenter] and [Emitter] wiring in between only connects the
    channel to the protocol. *)
Definition initExtProtocol : M unit :=
  m_emit (EffOpenChannel "ExtProtocol");;
  m_lift (ws_openChannel "ExtProtocol");;
  s ← m_get;
  m_put (set_m_protocol s (m_next_protocol s));;
  m_emit (EffNewProtocol (m_next_protocol s)).

(** [setMainThreadAPI()], lines 121-135. *)
Definition setMainThreadAPI : M unit :=
  s ← m_get;
  match m_protocol s with
  | None => m_throw type_error_set
  | Some n => m_emit (EffProtocolSet n MainThreadCommands)
  end.

(** [createFeatureExtensionNodeProcess()], lines 138-144. No guard: a
    second call starts a second process and replaces [this.protocol]. *)
Definition createFeatureExtensionNodeProcess : M unit :=
  processManage_create;; initExtProtocol;; setMainThreadAPI.

(** [activeExtension()], lines 146-151: activate the first extension the
    extension host reports. [extension[0].path] on an empty array throws. *)
Definition activeExtension : M unit :=
  s ← m_get;
  match m_protocol s with
  | None => m_throw type_error_getProxy
  | Some n =>
      m_emit (EffGetProxy n ExtHostExtensionService);;
      m_emit (EffRemoteCall "$getExtension" []);;
      extension ← m_host_call eh_getExtension;
      match extension with
      | [] => m_throw type_error_path
      | path :: _ =>
          m_emit (EffConsoleLog path);;
          m_emit (EffRemoteCall "$activateExtension" [path]);;
          m_host_call (eh_activateExtension path)
      end
  end.

(** One iteration of lines 52-60: call the hook if there is one; a throw is
    logged and the loop goes on. *)
Definition run_contribution (c : contribution) : M unit :=
  m_try
    (match c with
     | None => mret tt
     | Some hook =>
         s ← m_get;
         let '(r', err) := hook (m_registry s) in
         m_put (set_m_registry s r');;
         match err with None => mret tt | Some e => m_throw e end
     end)
    (λ e, m_emit (EffLogError e)).

Fixpoint run_contributions (cs : list contribution) : M unit :=
  match cs with
  | [] => mret tt
  | c :: cs => run_contribution c;; run_contributions cs
  end.

(** Lines 86-90: call [enable()] on every extension, in insertion order,
    and await [Promise.all] of the returned promises. The extensions share
    no state, so starting every call and then awaiting them all is the same
    as running each call to its end in turn ([call_alone]). A call that
    would wait on an [onEnable()] still in flight cannot finish without
    that callback; the manager's model runs no callbacks, and leaves such
    a world as it was. Nothing fills [this.extensions] (lines 62-83 are
    commented out), so the loop never runs. *)
Definition enable_call (w : world) : world :=
  default w (call_alone MEnable true w).

Definition enable_extensions : M unit :=
  s ← m_get;
  m_put (set_m_extensions s ((λ '(n, w), (n, enable_call w)) <$> m_extensions s)).

(** [activate()], lines 51-98. The discovery code of lines 62-83 is
    commented out, so nothing adds to [this.extensions]. The callback of
    [setTimeout] (line 95) runs later, as [fire_activeExtension]. *)
Definition activate : M unit :=
  run_contributions contributions;;
  enable_extensions;;
  createFeatureExtensionNodeProcess;;
  m_emit (EffSetTimeout 2000).

(** The timer's callback, lines 95-97. Its rejection is not caught. *)
Definition fire_activeExtension : M unit := activeExtension.

(** Lines 152-170: the lookups and script runners all throw. *)
Definition getFeatureExtensions : M (list world) := m_throw not_implemented.
Definition getFeatureExtension (name : string) : M world := m_throw not_implemented.
Definition getFeatureExtensionNodeProcess (name : string) : M unit := m_throw not_implemented.
Definition runScriptInBrowser (scriptPath : string) : M unit := m_throw not_implemented.
Definition runScriptInNode (scriptPath : string) : M unit := m_throw not_implemented.

(** The registry after running every hook in order, ignoring throws. *)
Fixpoint hooks_registry (cs : list contribution) (r : @registry T) : @registry T :=
  match cs with
  | [] => r
  | None :: cs => hooks_registry cs r
  | Some hook :: cs => hooks_registry cs (hook r).1
  end.

(** The errors logged by the hooks, in order. *)
Fixpoint hooks_errors (cs : list contribution) (r : @registry T) : list effect :=
  match cs with
  | [] => []
  | None :: cs => hooks_errors cs r
  | Some hook :: cs =>
      match (hook r).2 with
      | Some e => [EffLogError e]
      | None => []
      end ++ hooks_errors cs (hook r).1
  end.

(** ** Theorems *)

Ltac m_simpl :=
  unfold mbind, M_bind, mret, M_ret, m_throw, m_lift, m_try, m_get, m_put, m_emit,
    m_host_call in *; simpl in *.

(** C15. The contribution loop of [activate()] never throws. Every hook
    runs, in order, on the registry its predecessors left (changes a hook
    made before throwing stay), and each throw is logged once. *)
Theorem run_contributions_isolated (cs : list contribution) (s : manager) :
  run_contributions cs s =
  (Ret tt, mkManager (hooks_registry cs (m_registry s)) (m_extensions s) (m_protocol s)
             (m_next_protocol s) (m_host s) (m_trace s ++ hooks_errors cs (m_registry s))).
Proof.
  revert s. induction cs as [|[hook|] cs IH]; intros s; simpl.
  - m_simpl. by rewrite app_nil_r; destruct s.
  - unfold run_contribution. m_simpl.
    destruct (hook (m_registry s)) as [r' [e|]] eqn:Hh; simpl; rewrite IH; simpl.
    + by rewrite <- app_assoc.
    + done.
  - unfold run_contribution. m_simpl. rewrite IH. done.
Qed.

Lemma run_contributions_fields cs s :
  let s' := (run_contributions cs s).2 in
  m_extensions s' = m_extensions s ∧ m_protocol s' = m_protocol s ∧
  m_next_protocol s' = m_next_protocol s.
Proof. by rewrite run_contributions_isolated. Qed.

(** C16. When the node service and the channel succeed, [activate()] makes
    its calls in this order, after the contribution hooks and their logged
    errors: start the extension process, open [ExtProtocol], create a new
    protocol, publish [MainThreadCommands] on it, and arm the 2000 ms
    timer. It resolves with [this.protocol] set to the new protocol. *)
Theorem activate_success_trace (s : manager) :
  node_createExtProcess = Ret tt → ws_openChannel "ExtProtocol" = Ret tt →
  let n := m_next_protocol s in
  ∃ s', activate s = (Ret tt, s') ∧ m_protocol s' = Some n ∧
        m_trace s' = m_trace s ++ hooks_errors contributions (m_registry s) ++
                     [EffCreateExtProcess; EffOpenChannel "ExtProtocol"; EffNewProtocol n;
                      EffProtocolSet n MainThreadCommands; EffSetTimeout 2000].
Proof.
  intros Hc Ho. unfold activate, createFeatureExtensionNodeProcess, processManage_create,
    initExtProtocol, setMainThreadAPI, enable_extensions.
  m_simpl. rewrite run_contributions_isolated. simpl. rewrite Hc, Ho. simpl.
  eexists. split_and!; [reflexivity | reflexivity |]. simpl. by rewrite <- !app_assoc.
Qed.

(** C17. When the node service fails to start the process, [activate()]
    rejects with that error. No protocol is created and no timer is armed;
    the failure reaches the caller. *)
Theorem activate_process_failure (s : manager) (e : js_error) :
  node_createExtProcess = Throw e →
  ∃ s', activate s = (Throw e, s') ∧ m_protocol s' = m_protocol s ∧
        m_trace s' = m_trace s ++ hooks_errors contributions (m_registry s) ++ [EffCreateExtProcess].
Proof.
  intros Hc. unfold activate, createFeatureExtensionNodeProcess, processManage_create,
    enable_extensions.
  m_simpl. rewrite run_contributions_isolated. simpl. rewrite Hc. simpl.
  eexists. split_and!; [reflexivity | reflexivity |]. simpl. by rewrite <- !app_assoc.
Qed.

(** C18. [createFeatureExtensionNodeProcess()] is not idempotent. A
    second call starts a second extension process and replaces
    [this.protocol] with a second protocol. The first protocol, which
    already carries [MainThreadCommands], is dropped. *)
Theorem createFeatureExtensionNodeProcess_twice (s : manager) :
  node_createExtProcess = Ret tt → ws_openChannel "ExtProtocol" = Ret tt →
  let n := m_next_protocol s in
  ∃ s', (createFeatureExtensionNodeProcess;; createFeatureExtensionNodeProcess) s = (Ret tt, s') ∧
        m_protocol s' = Some (S n) ∧
        m_trace s' = m_trace s ++
          [EffCreateExtProcess; EffOpenChannel "ExtProtocol"; EffNewProtocol n;
           EffProtocolSet n MainThreadCommands;
           EffCreateExtProcess; EffOpenChannel "ExtProtocol"; EffNewProtocol (S n);
           EffProtocolSet (S n) MainThreadCommands].
Proof.
  intros Hc Ho. unfold createFeatureExtensionNodeProcess, processManage_create,
    initExtProtocol, setMainThreadAPI.
  m_simpl. rewrite Hc, Ho. simpl. eexists. split_and!; [reflexivity | reflexivity |].
  simpl. by rewrite <- !app_assoc.
Qed.

(** C19. When the extension host reports no extension, [activeExtension()]
    throws a [TypeError] at [extension[0].path] and never calls
    [$activateExtension]. *)
Theorem activeExtension_empty_throws (s : manager) (n : nat) (h1 : Host) :
  m_protocol s = Some n → eh_getExtension (m_host s) = (h1, Ret []) →
  activeExtension s =
  (Throw type_error_path,
   set_m_host (add_trace (add_trace s (EffGetProxy n ExtHostExtensionService))
                         (EffRemoteCall "$getExtension" [])) h1).
Proof. intros Hp Hg. unfold activeExtension. m_simpl. rewrite Hp, Hg. reflexivity. Qed.

(** C20. Otherwise [activeExtension()] activates exactly the first reported
    extension, by its path, on the host as [$getExtension] left it, and its
    outcome is that of [$activateExtension]. *)
Theorem activeExtension_first (s : manager) (n : nat) (path : string) (rest : list string)
    (h1 h2 : Host) (o : outcome unit) :
  m_protocol s = Some n → eh_getExtension (m_host s) = (h1, Ret (path :: rest)) →
  eh_activateExtension path h1 = (h2, o) →
  ∃ s', activeExtension s = (o, s') ∧ m_host s' = h2 ∧
        m_trace s' = m_trace s ++ [EffGetProxy n ExtHostExtensionService;
                                   EffRemoteCall "$getExtension" []; EffConsoleLog path;
                                   EffRemoteCall "$activateExtension" [path]].
Proof.
  intros Hp Hg Ha. unfold activeExtension. m_simpl. rewrite Hp, Hg. simpl. rewrite Ha.
  eexists. split_and!; [reflexivity | reflexivity |]. simpl. by rewrite <- !app_assoc.
Qed.

End Manager.

(** ** Witnesses *)

(** A fresh manager whose extension host reports [/ext/a] and [/ext/b]. *)
Definition demo_manager : @manager demo_type script_host :=
  init_manager (ScriptHost ["/ext/a"; "/ext/b"] []).

Lemma activate_success_trace_witness :
  let n := m_next_protocol demo_manager in
  ∃ s', activate demo_contributions (Ret tt) (λ _, Ret tt) demo_manager = (Ret tt, s') ∧
        m_protocol s' = Some n ∧
        m_trace s' = m_trace demo_manager ++
                     hooks_errors demo_contributions (m_registry demo_manager) ++
                     [EffCreateExtProcess; EffOpenChannel "ExtProtocol"; EffNewProtocol n;
                      EffProtocolSet n MainThreadCommands; EffSetTimeout 2000].
Proof. apply activate_success_trace; reflexivity. Defined.

Lemma activate_process_failure_witness :
  ∃ s', activate demo_contributions (Throw "spawn failed") (λ _, Ret tt) demo_manager
        = (Throw "spawn failed", s') ∧
        m_protocol s' = m_protocol demo_manager ∧
        m_trace s' = m_trace demo_manager ++
                     hooks_errors demo_contributions (m_registry demo_manager) ++
                     [EffCreateExtProcess].
Proof. apply activate_process_failure. reflexivity. Defined.

Lemma createFeatureExtensionNodeProcess_twice_witness :
  let n := m_next_protocol demo_manager in
  ∃ s', (createFeatureExtensionNodeProcess (Ret tt) (λ _, Ret tt);;
         createFeatureExtensionNodeProcess (Ret tt) (λ _, Ret tt)) demo_manager = (Ret tt, s') ∧
        m_protocol s' = Some (S n) ∧
        m_trace s' = m_trace demo_manager ++
          [EffCreateExtProcess; EffOpenChannel "ExtProtocol"; EffNewProtocol n;
           EffProtocolSet n MainThreadCommands;
           EffCreateExtProcess; EffOpenChannel "ExtProtocol"; EffNewProtocol (S n);
           EffProtocolSet (S n) MainThreadCommands].
Proof. apply createFeatureExtensionNodeProcess_twice; reflexivity. Defined.

(** The manager after a successful [activate()] with the demo contributions. *)
Lemma activeExtension_empty_throws_witness :
  let s := (activate demo_contributions (Ret tt) (λ _, Ret tt) demo_manager).2 in
  activeExtension (set_m_host s (ScriptHost [] [])) =
  (Throw type_error_path,
   set_m_host (add_trace (add_trace (set_m_host s (ScriptHost [] []))
                                    (EffGetProxy 0 ExtHostExtensionService))
                         (EffRemoteCall "$getExtension" [])) (ScriptHost [] [])).
Proof. apply activeExtension_empty_throws; reflexivity. Defined.

Lemma activeExtension_first_witness :
  let s := (activate demo_contributions (Ret tt) (λ _, Ret tt) demo_manager).2 in
  ∃ s', activeExtension s = (Ret tt, s') ∧
        m_host s' = ScriptHost ["/ext/a"; "/ext/b"] ["/ext/a"] ∧
        m_trace s' = m_trace s ++ [EffGetProxy 0 ExtHostExtensionService;
                                   EffRemoteCall "$getExtension" []; EffConsoleLog "/ext/a";
                                   EffRemoteCall "$activateExtension" ["/ext/a"]].
Proof.
  apply (activeExtension_first _ 0 "/ext/a" ["/ext/b"] (ScriptHost ["/ext/a"; "/ext/b"] []));
    reflexivity.
Defined.
