(* ===== verification/Rpc.v ===== *)
(** * The RPC protocol bridge

    The manager talks to the extension process through [RPCProtocol] of
    [@ali/ide-connection]. That code is not in this repository, so this file
    models its contract from [spec.md] (sections 3, 4.4, 5, 7 and 8):
    - values travel as a token stream ([encode] and [decode]);
    - each endpoint has a table of published services ([set]), a pending call
      table keyed by correlation id, a counter of ids, and the log of settled
      calls;
    - the channel is two FIFO queues;
    - remote methods run as jobs that may finish in any order;
    - closing the channel rejects every pending call once.
    [rpc_step] is the executable step of the two endpoints and the
    channel. [rpc_reachable] is its closure from [init_conn]. *)

From S2P Require Import Prelude.
From S2P Require Import JsCollections.
From Stdlib Require Import ZArith Lia Ascii.

#[local] Set Warnings "-register-all".

(** ** Serializable values and their wire format *)
Inductive value :=
| VUndef
| VBool (b : bool)
| VNum (z : Z)
| VStr (s : string)
| VArr (l : list value).

Inductive token :=
| TUndef
| TBool (b : bool)
| TNum (z : Z)
| TStr (s : string)
| TArr (n : nat).

(** Induction over values, through the elements of an array. *)
Section value_ind.
Variable P : value → Prop.
Hypothesis HU : P VUndef.
Hypothesis HB : ∀ b, P (VBool b).
Hypothesis HN : ∀ z, P (VNum z).
Hypothesis HS : ∀ s, P (VStr s).
Hypothesis HA : ∀ l, Forall P l → P (VArr l).
Fixpoint value_ind' (v : value) : P v :=
  match v with
  | VUndef => HU
  | VBool b => HB b
  | VNum z => HN z
  | VStr s => HS s
  | VArr l => HA l ((fix go l : Forall P l :=
                      match l with
                      | [] => Forall_nil_2 _
                      | x :: t => Forall_cons_2 _ _ _ (value_ind' x) (go t)
                      end) l)
  end.
End value_ind.

Fixpoint encode (v : value) : list token :=
  match v with
  | VUndef => [TUndef]
  | VBool b => [TBool b]
  | VNum z => [TNum z]
  | VStr s => [TStr s]
  | VArr l => TArr (length l) :: (fix go l := match l with
                                             | [] => []
                                             | x :: t => encode x ++ go t
                                             end) l
  end.

Definition encode_list (l : list value) : list token := mjoin (encode <$> l).

Fixpoint value_size (v : value) : nat :=
  match v with
  | VArr l => S ((fix go l := match l with [] => 0 | x :: t => value_size x + go t end) l)
  | _ => 1
  end.

(** [decode fuel ts] reads one value off the front of [ts]. The fuel bounds
    the nesting depth; [value_size v] is always enough (see
    [decode_encode]). *)
Fixpoint decode (fuel : nat) (ts : list token) : option (value * list token) :=
  match fuel with
  | 0 => None
  | S f =>
      match ts with
      | TUndef :: r => Some (VUndef, r)
      | TBool b :: r => Some (VBool b, r)
      | TNum z :: r => Some (VNum z, r)
      | TStr s :: r => Some (VStr s, r)
      | TArr n :: r =>
          '(l, r') ← (fix many n ts := match n with
                                       | 0 => Some ([], ts)
                                       | S n' => '(v, r1) ← decode f ts;
                                                 '(l, r2) ← many n' r1;
                                                 Some (v :: l, r2)
                                       end) n r;
          Some (VArr l, r')
      | [] => None
      end
  end.

Fixpoint decode_many (fuel n : nat) (ts : list token) : option (list value * list token) :=
  match n with
  | 0 => Some ([], ts)
  | S n' => '(v, r1) ← decode fuel ts; '(l, r2) ← decode_many fuel n' r1; Some (v :: l, r2)
  end.

Definition decode_value (ts : list token) : option value :=
  match decode (length ts) ts with
  | Some (v, []) => Some v
  | _ => None
  end.

Lemma encode_list_cons x t : encode_list (x :: t) = encode x ++ encode_list t.
Proof. reflexivity. Qed.

Lemma encode_arr l : encode (VArr l) = TArr (length l) :: encode_list l.
Proof. simpl. f_equal. induction l as [|x t IH]; simpl; [done |]. by rewrite IH. Qed.

Lemma value_size_arr l : value_size (VArr l) = S (sum_list (value_size <$> l)).
Proof. simpl. f_equal. induction l as [|x t IH]; simpl; [done |]. by rewrite IH. Qed.

Lemma decode_arr f n r :
  decode (S f) (TArr n :: r) = '(l, r') ← decode_many f n r; Some (VArr l, r').
Proof.
  simpl. f_equal. revert r. induction n as [|n IH]; intros r; simpl; [done |].
  destruct (decode f r) as [[v r1]|]; simpl; [| done]. by rewrite IH.
Qed.

Lemma value_size_pos v : 1 ≤ value_size v.
Proof. destruct v; simpl; lia. Qed.

Lemma decode_encode_fuel f : ∀ v rest,
  value_size v ≤ f → decode f (encode v ++ rest) = Some (v, rest).
Proof.
  induction f as [|f IH]; intros v rest Hs; [pose proof (value_size_pos v); lia |].
  destruct v as [| | | |l]; try done.
  rewrite encode_arr, value_size_arr in *. rewrite <- app_comm_cons, decode_arr.
  enough (decode_many f (length l) (encode_list l ++ rest) = Some (l, rest)) as -> by done.
  assert (sum_list (value_size <$> l) ≤ f) as Hl by lia. clear Hs.
  induction l as [|x t IHl]; [done |]. cbn [length decode_many fmap list_fmap sum_list id] in *.
  rewrite encode_list_cons, <- app_assoc, IH by lia. cbn [mbind option_bind].
  by rewrite IHl by lia.
Qed.

Lemma decode_many_encode f l rest :
  sum_list (value_size <$> l) ≤ f →
  decode_many f (length l) (encode_list l ++ rest) = Some (l, rest).
Proof.
  induction l as [|x t IHl]; intros Hl; [done |].
  cbn [length decode_many fmap list_fmap sum_list id] in *.
  rewrite encode_list_cons, <- app_assoc, decode_encode_fuel by lia.
  cbn [mbind option_bind]. by rewrite IHl by lia.
Qed.

Lemma value_size_le_encode v : value_size v ≤ length (encode v).
Proof.
  induction v as [| | | |l IH] using value_ind'; try (simpl; lia).
  rewrite encode_arr, value_size_arr. simpl. apply le_n_S.
  induction l as [|x t IHl]; [simpl; lia |].
  cbn [fmap list_fmap sum_list id]. rewrite encode_list_cons, length_app.
  apply Forall_cons in IH as [Hx Ht]. specialize (IHl Ht). lia.
Qed.

(** Round trip: decoding the encoding of a value gives the value back. *)
Lemma decode_value_encode v : decode_value (encode v) = Some v.
Proof.
  unfold decode_value.
  pose proof (decode_encode_fuel _ v [] (value_size_le_encode v)) as H.
  rewrite app_nil_r in H. by rewrite H.
Qed.

(** ** Messages, services and endpoints *)
Inductive rpc_error :=
| ChannelClosedError
| DispatchError (msg : string).

(** How a proxy call settles: its promise resolves or rejects. *)
Inductive resolution :=
| Resolved (v : value)
| Rejected (e : rpc_error).

(** A frame on the channel: [kind], [correlationId], and for a request the
    [targetId], [method] and the encoded [args]. *)
Inductive message :=
| MRequest (cid : nat) (target meth : string) (args : list token)
| MResponse (cid : nat) (result : list token)
| MError (cid : nat) (err : string).

(** A published object: its methods by name. *)
Definition service := jsmap string (list value → outcome value).

(** The remote-callable marker: the method name starts with [$]. *)
Definition remote_callable (meth : string) : bool :=
  match meth with
  | String c _ => bool_decide (c = "$"%char)
  | EmptyString => false
  end.

Record endpoint := Endpoint {
  ep_services : jsmap string service;
  ep_pending : list nat;
  ep_next : nat;
  ep_log : list (nat * resolution);
  ep_jobs : list message
}.

Definition init_endpoint : endpoint := Endpoint [] [] 0 [] [].

Definition set_services e s := Endpoint s (ep_pending e) (ep_next e) (ep_log e) (ep_jobs e).
Definition set_pending e p := Endpoint (ep_services e) p (ep_next e) (ep_log e) (ep_jobs e).
Definition set_next e n := Endpoint (ep_services e) (ep_pending e) n (ep_log e) (ep_jobs e).
Definition set_log e l := Endpoint (ep_services e) (ep_pending e) (ep_next e) l (ep_jobs e).
Definition set_jobs e j := Endpoint (ep_services e) (ep_pending e) (ep_next e) (ep_log e) j.

(** [set(id, impl)]: a second object under the same identifier is a
    [DuplicateRegistrationError]. *)
Definition rpc_set (e : endpoint) (id : string) (impl : service) : outcome endpoint :=
  if jm_has (ep_services e) id
  then throw ("DuplicateRegistrationError: " +:+ id)
  else Ret (set_services e (jm_set (ep_services e) id impl)).

(** The method a request may run: only a remote-callable method of a
    published object. *)
Definition lookup_method (svcs : jsmap string service) (target meth : string)
    : option (list value → outcome value) :=
  if remote_callable meth then s ← jm_get svcs target; jm_get s meth else None.

(** The receiving side runs the method and turns its value or its exception
    into the reply; nothing escapes the dispatcher. *)
Definition dispatch (svcs : jsmap string service) (cid : nat) (target meth : string)
    (args : list token) : message :=
  match lookup_method svcs target meth with
  | None => MError cid ("Unknown method " +:+ target +:+ "." +:+ meth)
  | Some f =>
      match decode_value args with
      | Some (VArr vs) =>
          match f vs with
          | Ret v => MResponse cid (encode v)
          | Throw err => MError cid err
          end
      | _ => MError cid "Malformed arguments"
      end
  end.

Definition reply_resolution (m : message) : option (nat * resolution) :=
  match m with
  | MResponse cid res =>
      Some (cid, match decode_value res with
                 | Some v => Resolved v
                 | None => Rejected (DispatchError "Malformed result")
                 end)
  | MError cid err => Some (cid, Rejected (DispatchError err))
  | MRequest _ _ _ _ => None
  end.

(** A reply settles its call if the call is still pending; a reply for an
    id that is not pending is dropped. *)
Definition settle_call (e : endpoint) (cid : nat) (r : resolution) : endpoint :=
  if bool_decide (cid ∈ ep_pending e)
  then set_log (set_pending e (filter (λ x, x ≠ cid) (ep_pending e))) (ep_log e ++ [(cid, r)])
  else e.

(** Closing rejects every pending call with [ChannelClosedError]. *)
Definition reject_all (e : endpoint) : endpoint :=
  set_pending (set_log e (ep_log e ++ ((λ c, (c, Rejected ChannelClosedError)) <$> ep_pending e))) [].

(** ** The two endpoints and the channel *)
Inductive side := SideMain | SideExt.

#[export] Instance side_eq_dec : EqDecision side.
Proof. solve_decision. Defined.

Definition other (s : side) : side :=
  match s with SideMain => SideExt | SideExt => SideMain end.

(** [c_to_main] and [c_to_ext] are the frames in flight towards each side,
    oldest first. *)
Record conn := Conn {
  c_main : endpoint;
  c_ext : endpoint;
  c_to_main : list message;
  c_to_ext : list message;
  c_open : bool
}.

Definition init_conn : conn := Conn init_endpoint init_endpoint [] [] true.

Definition ep_of (c : conn) (s : side) : endpoint :=
  match s with SideMain => c_main c | SideExt => c_ext c end.

Definition inbox (c : conn) (s : side) : list message :=
  match s with SideMain => c_to_main c | SideExt => c_to_ext c end.

Definition set_ep (c : conn) (s : side) (e : endpoint) : conn :=
  match s with
  | SideMain => Conn e (c_ext c) (c_to_main c) (c_to_ext c) (c_open c)
  | SideExt => Conn (c_main c) e (c_to_main c) (c_to_ext c) (c_open c)
  end.

Definition set_inbox (c : conn) (s : side) (q : list message) : conn :=
  match s with
  | SideMain => Conn (c_main c) (c_ext c) q (c_to_ext c) (c_open c)
  | SideExt => Conn (c_main c) (c_ext c) (c_to_main c) q (c_open c)
  end.

(** [s] sends [m]: it is queued for the other side while the channel is
    open, and lost once it is closed. *)
Definition send (c : conn) (s : side) (m : message) : conn :=
  if c_open c then set_inbox c (other s) (inbox c (other s) ++ [m]) else c.

(** A call on a proxy held by [s]: a fresh correlation id, a pending slot,
    and the request on the wire. On a closed channel the call is rejected at
    once. *)
Definition proxy_call (c : conn) (s : side) (target meth : string) (args : list value) : conn :=
  let e := ep_of c s in
  let cid := ep_next e in
  if c_open c
  then send (set_ep c s (set_next (set_pending e (ep_pending e ++ [cid])) (S cid))) s
            (MRequest cid target meth (encode (VArr args)))
  else set_ep c s (set_next (set_log e (ep_log e ++ [(cid, Rejected ChannelClosedError)])) (S cid)).

(** [s] takes the oldest frame of its inbox: a request starts a job, a
    reply settles the pending call it names. *)
Definition deliver (c : conn) (s : side) : option conn :=
  match inbox c s with
  | [] => None
  | m :: rest =>
      let c := set_inbox c s rest in
      let e := ep_of c s in
      match m with
      | MRequest cid target meth args =>
          Some (set_ep c s (set_jobs e (ep_jobs e ++ [dispatch (ep_services e) cid target meth args])))
      | _ =>
          match reply_resolution m with
          | Some (cid, r) => Some (set_ep c s (settle_call e cid r))
          | None => Some c
          end
      end
  end.

(** The [i]-th running method of [s] finishes and its reply is sent. *)
Definition finish (c : conn) (s : side) (i : nat) : option conn :=
  let e := ep_of c s in
  m ← ep_jobs e !! i;
  Some (send (set_ep c s (set_jobs e (delete i (ep_jobs e)))) s m).

Definition close (c : conn) : conn :=
  Conn (reject_all (c_main c)) (reject_all (c_ext c)) [] [] false.

Inductive rpc_choice :=
| RSet (s : side) (id : string) (impl : service)
| RCall (s : side) (target meth : string) (args : list value)
| RDeliver (s : side)
| RFinish (s : side) (i : nat)
| RClose.

(** One step; [None] when the choice is not enabled. A failed [set] leaves
    the state as it was (the exception goes to its caller). *)
Definition rpc_step (c : conn) (ch : rpc_choice) : option conn :=
  match ch with
  | RSet s id impl =>
      Some (match rpc_set (ep_of c s) id impl with
            | Ret e => set_ep c s e
            | Throw _ => c
            end)
  | RCall s target meth args => Some (proxy_call c s target meth args)
  | RDeliver s => deliver c s
  | RFinish s i => finish c s i
  | RClose => Some (close c)
  end.

Fixpoint rpc_run (c : conn) (chs : list rpc_choice) : option conn :=
  match chs with
  | [] => Some c
  | ch :: t => c' ← rpc_step c ch; rpc_run c' t
  end.

Inductive rpc_reachable : conn → Prop :=
| rr_init : rpc_reachable init_conn
| rr_step c ch c' : rpc_reachable c → rpc_step c ch = Some c' → rpc_reachable c'.

(** ** The pending call table: every call settles exactly once *)

(** Each correlation id issued so far is either pending or settled in the
    log, and only once. *)
Definition ep_ok (e : endpoint) : Prop :=
  ep_pending e ++ (ep_log e).*1 ≡ₚ seq 0 (ep_next e).

(** Once the channel is closed nothing is pending and nothing is in flight. *)
Definition rpc_inv (c : conn) : Prop :=
  (∀ s, ep_ok (ep_of c s)) ∧
  (c_open c = false → ∀ s, ep_pending (ep_of c s) = [] ∧ inbox c s = []).

Lemma ep_of_set_ep_eq c s e : ep_of (set_ep c s e) s = e.
Proof. by destruct s. Qed.

Lemma ep_of_set_ep_ne c s s' e : s ≠ s' → ep_of (set_ep c s e) s' = ep_of c s'.
Proof. destruct s, s'; done. Qed.

Lemma inbox_set_ep c s e s' : inbox (set_ep c s e) s' = inbox c s'.
Proof. by destruct s, s'. Qed.

Lemma ep_of_set_inbox c s q s' : ep_of (set_inbox c s q) s' = ep_of c s'.
Proof. by destruct s, s'. Qed.

Lemma ep_of_send c s m s' : ep_of (send c s m) s' = ep_of c s'.
Proof. unfold send. case_match; [apply ep_of_set_inbox | done]. Qed.

Lemma c_open_set_ep c s e : c_open (set_ep c s e) = c_open c.
Proof. by destruct s. Qed.

Lemma c_open_set_inbox c s q : c_open (set_inbox c s q) = c_open c.
Proof. by destruct s. Qed.

Lemma c_open_send c s m : c_open (send c s m) = c_open c.
Proof. unfold send. destruct (c_open c) eqn:E; [by rewrite c_open_set_inbox | done]. Qed.

Lemma send_closed c s m : c_open c = false → send c s m = c.
Proof. unfold send. by intros ->. Qed.

#[export] Hint Rewrite ep_of_set_ep_eq inbox_set_ep ep_of_set_inbox ep_of_send
  c_open_set_ep c_open_set_inbox c_open_send : s2p_rw.

Lemma ep_ok_nodup e : ep_ok e → NoDup (ep_pending e ++ (ep_log e).*1).
Proof. unfold ep_ok. intros ->. apply NoDup_seq. Qed.

(** Replacing one endpoint by a well-formed one keeps both well-formed. *)
Lemma set_ep_ok c s e :
  (∀ s', ep_ok (ep_of c s')) → ep_ok e → ∀ s', ep_ok (ep_of (set_ep c s e) s').
Proof.
  intros Hc He s'. destruct (decide (s = s')) as [<-|]; [by rewrite ep_of_set_ep_eq |].
  by rewrite ep_of_set_ep_ne.
Qed.

Lemma ep_ok_fresh_pending e :
  ep_ok e → ep_ok (set_next (set_pending e (ep_pending e ++ [ep_next e])) (S (ep_next e))).
Proof.
  unfold ep_ok. cbn -[seq]. intros H. rewrite seq_S, <- H. solve_Permutation.
Qed.

Lemma ep_ok_fresh_log e r :
  ep_ok e → ep_ok (set_next (set_log e (ep_log e ++ [(ep_next e, r)])) (S (ep_next e))).
Proof.
  unfold ep_ok. cbn -[seq]. intros H. rewrite seq_S, <- H, fmap_app, app_assoc. done.
Qed.

Lemma ep_ok_settle_call e cid r : ep_ok e → ep_ok (settle_call e cid r).
Proof.
  unfold settle_call. case_bool_decide as Hin; [| done]. unfold ep_ok; simpl.
  intros H. rewrite <- H. pose proof (ep_ok_nodup e H) as Hnd. apply NoDup_app in Hnd as [Hp _].
  rewrite (NoDup_filter_neq_perm (ep_pending e) cid) at 2 by done.
  rewrite fmap_app. simpl. solve_Permutation.
Qed.

Lemma ep_ok_reject_all e : ep_ok e → ep_ok (reject_all e).
Proof.
  unfold ep_ok; simpl. intros H. rewrite <- H, fmap_app, fmap_pair_fst.
  simpl. apply Permutation_app_comm.
Qed.

Lemma ep_ok_services e s : ep_ok e → ep_ok (set_services e s).
Proof. done. Qed.

Lemma ep_ok_jobs e j : ep_ok e → ep_ok (set_jobs e j).
Proof. done. Qed.

#[export] Hint Resolve set_ep_ok ep_ok_fresh_pending ep_ok_fresh_log ep_ok_settle_call
  ep_ok_reject_all ep_ok_services ep_ok_jobs : s2p.

Lemma set_ep_closed c s e :
  (∀ s', ep_pending (ep_of c s') = [] ∧ inbox c s' = []) → ep_pending e = [] →
  ∀ s', ep_pending (ep_of (set_ep c s e) s') = [] ∧ inbox (set_ep c s e) s' = [].
Proof.
  intros Hc He s'. rewrite inbox_set_ep. destruct (decide (s = s')) as [<-|].
  - rewrite ep_of_set_ep_eq. split; [done | apply Hc].
  - rewrite ep_of_set_ep_ne by done. apply Hc.
Qed.

Lemma init_conn_inv : rpc_inv init_conn.
Proof. split; [intros []; constructor | done]. Qed.

Lemma rpc_set_inv c s id impl e :
  rpc_inv c → rpc_set (ep_of c s) id impl = Ret e → rpc_inv (set_ep c s e).
Proof.
  intros [Hok Hcl]. unfold rpc_set. case_match; intros; simplify_eq.
  split; [auto with s2p |]. rewrite c_open_set_ep. intros Hc.
  apply set_ep_closed; [auto | apply Hcl, Hc].
Qed.

Lemma proxy_call_inv c s target meth args :
  rpc_inv c → rpc_inv (proxy_call c s target meth args).
Proof.
  intros [Hok Hcl]. unfold proxy_call. destruct (c_open c) eqn:Ho.
  - split; [intros s'; rewrite ep_of_send; auto with s2p |].
    by rewrite c_open_send, c_open_set_ep, Ho.
  - split; [auto with s2p |]. rewrite c_open_set_ep. intros _.
    apply set_ep_closed; [by apply Hcl | apply (Hcl eq_refl s)].
Qed.

Lemma deliver_inv c s c' : rpc_inv c → deliver c s = Some c' → rpc_inv c'.
Proof.
  intros [Hok Hcl]. unfold deliver. destruct (inbox c s) as [|m rest] eqn:Hin; [done |].
  assert (c_open c = true) as Ho.
  { destruct (c_open c) eqn:E; [done |]. by rewrite (proj2 (Hcl eq_refl s)) in Hin. }
  assert (∀ s', ep_ok (ep_of (set_inbox c s rest) s')) as Hok'.
  { intros s'. rewrite ep_of_set_inbox. auto. }
  assert (∀ e, c_open (set_ep (set_inbox c s rest) s e) ≠ false) as Ho'.
  { intros e. by rewrite c_open_set_ep, c_open_set_inbox, Ho. }
  intros Hd. destruct m; simpl in Hd; simplify_eq; (split; [auto with s2p | by intros ?%Ho']).
Qed.

Lemma finish_inv c s i c' : rpc_inv c → finish c s i = Some c' → rpc_inv c'.
Proof.
  intros [Hok Hcl]. unfold finish. destruct (ep_jobs (ep_of c s) !! i) eqn:Hj; [| done].
  intros [= <-]. split; [intros s'; rewrite ep_of_send; auto with s2p |].
  rewrite c_open_send, c_open_set_ep. intros Hc. rewrite send_closed by by rewrite c_open_set_ep.
  apply set_ep_closed; [auto | apply Hcl, Hc].
Qed.

Lemma close_inv c : rpc_inv c → rpc_inv (close c).
Proof.
  intros [Hok _]. split; [| by intros _ []].
  intros []; apply ep_ok_reject_all; [apply (Hok SideMain) | apply (Hok SideExt)].
Qed.

Lemma rpc_step_inv c ch c' : rpc_inv c → rpc_step c ch = Some c' → rpc_inv c'.
Proof.
  intros Hi. destruct ch; simpl; intros Hs.
  - destruct (rpc_set _ _ _) eqn:E; simplify_eq; [by eapply rpc_set_inv | done].
  - simplify_eq. by apply proxy_call_inv.
  - by eapply deliver_inv.
  - by eapply finish_inv.
  - simplify_eq. by apply close_inv.
Qed.

Lemma rpc_reachable_inv c : rpc_reachable c → rpc_inv c.
Proof.
  induction 1; [apply init_conn_inv | by eapply rpc_step_inv].
Qed.

Lemma rpc_run_reachable c chs c' :
  rpc_reachable c → rpc_run c chs = Some c' → rpc_reachable c'.
Proof.
  revert c. induction chs as [|ch t IH]; intros c Hr; simpl; [by intros [= <-] |].
  destruct (rpc_step c ch) eqn:E; [| done]. intros Hrun. eapply IH; [| done]. by econstructor.
Qed.

(** ** Calls through a proxy *)

Lemma settle_call_fresh e cid r :
  cid ∈ ep_pending e → ep_log (settle_call e cid r) = ep_log e ++ [(cid, r)].
Proof. intros H. unfold settle_call. by rewrite bool_decide_eq_true_2. Qed.

Lemma dispatch_ok svcs cid target meth args f v :
  lookup_method svcs target meth = Some f → f args = Ret v →
  dispatch svcs cid target meth (encode (VArr args)) = MResponse cid (encode v).
Proof. intros Hl Hf. unfold dispatch. by rewrite Hl, decode_value_encode, Hf. Qed.

Lemma dispatch_unknown svcs cid target meth args :
  lookup_method svcs target meth = None →
  dispatch svcs cid target meth args = MError cid ("Unknown method " +:+ target +:+ "." +:+ meth).
Proof. intros Hl. unfold dispatch. by rewrite Hl. Qed.

(** A call made by [s] on an open channel with empty queues: its request
    reaches the other side, which runs the method to the reply [m]; the reply
    comes back and settles the call with [r]. *)
Lemma call_round c s target meth args m r :
  c_open c = true → inbox c SideMain = [] → inbox c SideExt = [] →
  dispatch (ep_services (ep_of c (other s))) (ep_next (ep_of c s)) target meth (encode (VArr args)) = m →
  reply_resolution m = Some (ep_next (ep_of c s), r) →
  ∃ c', rpc_run c [RCall s target meth args; RDeliver (other s);
                   RFinish (other s) (length (ep_jobs (ep_of c (other s)))); RDeliver s] = Some c' ∧
        ep_log (ep_of c' s) = ep_log (ep_of c s) ++ [(ep_next (ep_of c s), r)] ∧
        c_open c' = true ∧ inbox c' SideMain = [] ∧ inbox c' SideExt = [].
Proof.
  destruct c as [em ee qm qe o]; intros Ho Hm He Hd Hr; simpl in Ho, Hm, He; subst o qm qe.
  destruct s; simpl in *; unfold finish; simpl; rewrite lookup_app_r, Nat.sub_diag by lia;
    simpl; rewrite Hd; unfold deliver; simpl; destruct m; simpl in Hr |- *; simplify_eq;
    (eexists; split; [reflexivity |]); simpl;
    rewrite ?settle_call_fresh by (simpl; set_solver); done.
Qed.

Lemma settle_call_log e cid r :
  ep_log (settle_call e cid r) =
  if bool_decide (cid ∈ ep_pending e) then ep_log e ++ [(cid, r)] else ep_log e.
Proof. unfold settle_call. by case_bool_decide. Qed.

Lemma settle_call_pending e cid r :
  ep_pending (settle_call e cid r) =
  if bool_decide (cid ∈ ep_pending e) then filter (λ x, x ≠ cid) (ep_pending e) else ep_pending e.
Proof. unfold settle_call. by case_bool_decide. Qed.

(** ** Properties of the bridge *)

(** Every call settles exactly once. In every reachable state, for each
    endpoint, the correlation ids issued so far are exactly the pending ids
    together with the ids settled in the log, each appearing once. So no call
    is both pending and settled, none is settled twice, and none is lost. *)
Theorem rpc_exactly_once c s :
  rpc_reachable c →
  ep_pending (ep_of c s) ++ (ep_log (ep_of c s)).*1 ≡ₚ seq 0 (ep_next (ep_of c s)).
Proof. intros Hr. apply (rpc_reachable_inv c Hr). Qed.

(** Closing the channel is the one cancellation signal. Once it is
    closed, no call is pending, nothing is in flight towards either side, so
    no further frame is ever dispatched. Every call issued on that endpoint
    has settled exactly once. *)
Theorem rpc_closed_settles_all c s :
  rpc_reachable c → c_open c = false →
  ep_pending (ep_of c s) = [] ∧ deliver c s = None ∧
  (ep_log (ep_of c s)).*1 ≡ₚ seq 0 (ep_next (ep_of c s)).
Proof.
  intros Hr Ho. destruct (rpc_reachable_inv c Hr) as [Hok Hcl].
  destruct (Hcl Ho s) as [Hp Hq]. specialize (Hok s). unfold ep_ok in Hok.
  rewrite Hp in Hok. split_and!; [done | | done]. unfold deliver. by rewrite Hq.
Qed.

(** Round trip. A remote-callable method published by the other side is
    called through a proxy on an open, idle channel. Its arguments are
    encoded and decoded and the method runs. Its value is encoded and
    decoded again. The call then resolves with exactly the value the method
    returns when called locally, and the channel stays open and idle. *)
Theorem rpc_round_trip c s target meth args f v :
  c_open c = true → inbox c SideMain = [] → inbox c SideExt = [] →
  lookup_method (ep_services (ep_of c (other s))) target meth = Some f → f args = Ret v →
  ∃ c', rpc_run c [RCall s target meth args; RDeliver (other s);
                   RFinish (other s) (length (ep_jobs (ep_of c (other s)))); RDeliver s] = Some c' ∧
        ep_log (ep_of c' s) = ep_log (ep_of c s) ++ [(ep_next (ep_of c s), Resolved v)] ∧
        c_open c' = true ∧ inbox c' SideMain = [] ∧ inbox c' SideExt = [].
Proof.
  intros Ho Hm He Hl Hf. eapply call_round; [done | done | done | by eapply dispatch_ok |].
  simpl. by rewrite decode_value_encode.
Qed.

(** Dispatch errors do not break the channel. A call to a method the
    other side does not publish, or that lacks the [$] marker, is rejected
    with a [DispatchError] for that caller alone. The channel stays open and
    idle, so the next call can succeed (see [rpc_round_trip]). *)
Theorem rpc_unknown_method c s target meth args :
  c_open c = true → inbox c SideMain = [] → inbox c SideExt = [] →
  lookup_method (ep_services (ep_of c (other s))) target meth = None →
  ∃ c', rpc_run c [RCall s target meth args; RDeliver (other s);
                   RFinish (other s) (length (ep_jobs (ep_of c (other s)))); RDeliver s] = Some c' ∧
        ep_log (ep_of c' s) = ep_log (ep_of c s) ++
          [(ep_next (ep_of c s),
            Rejected (DispatchError ("Unknown method " +:+ target +:+ "." +:+ meth)))] ∧
        c_open c' = true ∧ inbox c' SideMain = [] ∧ inbox c' SideExt = [].
Proof.
  intros Ho Hm He Hl. eapply call_round; [done | done | done | by apply dispatch_unknown | done].
Qed.

(** Replies are matched by correlation id, not by arrival order. Two
    calls are issued back to back and the other side finishes the second
    method first. The second call then settles first, with the second value,
    and the first call settles after it, with the first value. *)
Theorem rpc_out_of_order c s t1 m1 a1 f1 v1 t2 m2 a2 f2 v2 :
  c_open c = true → inbox c SideMain = [] → inbox c SideExt = [] →
  lookup_method (ep_services (ep_of c (other s))) t1 m1 = Some f1 → f1 a1 = Ret v1 →
  lookup_method (ep_services (ep_of c (other s))) t2 m2 = Some f2 → f2 a2 = Ret v2 →
  let n := ep_next (ep_of c s) in
  let k := length (ep_jobs (ep_of c (other s))) in
  ∃ c', rpc_run c [RCall s t1 m1 a1; RCall s t2 m2 a2; RDeliver (other s); RDeliver (other s);
                   RFinish (other s) (S k); RFinish (other s) k; RDeliver s; RDeliver s] = Some c' ∧
        ep_log (ep_of c' s) = ep_log (ep_of c s) ++ [(S n, Resolved v2); (n, Resolved v1)].
Proof.
  cbv zeta. destruct c as [em ee qm qe o]; intros Ho Hm He Hl1 Hf1 Hl2 Hf2;
    simpl in Ho, Hm, He; subst o qm qe.
  destruct s; simpl in *; unfold finish, deliver; simpl;
    rewrite (dispatch_ok _ _ _ _ _ _ _ Hl1 Hf1), (dispatch_ok _ _ _ _ _ _ _ Hl2 Hf2);
    rewrite <- !app_assoc; simpl; repeat (autorewrite with s2p_rw; simpl);
    rewrite !decode_value_encode;
    (eexists; split; [reflexivity |]); simpl;
    rewrite !settle_call_log, !settle_call_pending; simpl;
    rewrite !bool_decide_eq_true_2; try (by rewrite <- app_assoc);
    rewrite ?bool_decide_eq_true_2, ?list_elem_of_filter by set_solver;
    rewrite ?list_elem_of_filter; repeat split; try lia; set_solver.
Qed.

(** ** Concrete runs *)

(** The extension side publishes [ExtHostExtensionService] with the two
    methods the manager calls. [getExtensions] has no [$] marker and is not
    remotely callable. *)
Definition demo_ext_service : service :=
  [("$getExtensions", λ _, Ret (VArr [VStr "foo"]));
   ("$activateExtension", λ args, match args with
                                   | [VStr _] => Ret VUndef
                                   | _ => throw "TypeError: path"
                                   end);
   ("getExtensions", λ _, Ret VUndef)].

Definition run_from_init (chs : list rpc_choice) : conn :=
  match rpc_run init_conn chs with Some c => c | None => init_conn end.

Definition demo_published : conn :=
  run_from_init [RSet SideExt "ExtHostExtensionService" demo_ext_service].

Definition demo_calls : list rpc_choice :=
  [RSet SideExt "ExtHostExtensionService" demo_ext_service;
   RCall SideMain "ExtHostExtensionService" "$getExtensions" [];
   RCall SideMain "ExtHostExtensionService" "$activateExtension" [VStr "/ext/foo"];
   RCall SideMain "ExtHostExtensionService" "$getExtensions" []].

(** Three calls are pending when the channel closes. *)
Definition demo_closed : conn := run_from_init (demo_calls ++ [RClose]).

Lemma run_from_init_reachable chs :
  is_Some (rpc_run init_conn chs) → rpc_reachable (run_from_init chs).
Proof.
  intros [c Hc]. unfold run_from_init. rewrite Hc.
  eapply rpc_run_reachable; [constructor | exact Hc].
Qed.

Lemma rpc_exactly_once_example :
  ep_pending (ep_of (run_from_init demo_calls) SideMain) ++
    (ep_log (ep_of (run_from_init demo_calls) SideMain)).*1 ≡ₚ seq 0 3.
Proof.
  apply (rpc_exactly_once (run_from_init demo_calls) SideMain).
  apply run_from_init_reachable. vm_compute. by eexists.
Defined.

(** The scenario of [spec.md]: three calls pending when the channel closes
    are each rejected with [ChannelClosedError], and nothing is dispatched
    afterwards. *)
Lemma rpc_closed_settles_all_example :
  ep_log (ep_of demo_closed SideMain) =
    [(0, Rejected ChannelClosedError); (1, Rejected ChannelClosedError);
     (2, Rejected ChannelClosedError)] ∧
  (ep_pending (ep_of demo_closed SideMain) = [] ∧ deliver demo_closed SideMain = None ∧
   (ep_log (ep_of demo_closed SideMain)).*1 ≡ₚ seq 0 (ep_next (ep_of demo_closed SideMain))).
Proof.
  split; [vm_compute; reflexivity |].
  apply rpc_closed_settles_all; [| vm_compute; reflexivity].
  apply run_from_init_reachable. vm_compute. by eexists.
Defined.

Lemma rpc_round_trip_example :
  ∃ c', rpc_run demo_published
          [RCall SideMain "ExtHostExtensionService" "$getExtensions" []; RDeliver SideExt;
           RFinish SideExt 0; RDeliver SideMain] = Some c' ∧
        ep_log (ep_of c' SideMain) = [(0, Resolved (VArr [VStr "foo"]))] ∧
        c_open c' = true ∧ inbox c' SideMain = [] ∧ inbox c' SideExt = [].
Proof.
  apply (rpc_round_trip demo_published SideMain "ExtHostExtensionService" "$getExtensions" []
           (λ _, Ret (VArr [VStr "foo"]))); vm_compute; reflexivity.
Defined.

Lemma rpc_unknown_method_example :
  ∃ c', rpc_run demo_published
          [RCall SideMain "ExtHostExtensionService" "getExtensions" []; RDeliver SideExt;
           RFinish SideExt 0; RDeliver SideMain] = Some c' ∧
        ep_log (ep_of c' SideMain) =
          [(0, Rejected (DispatchError
                 ("Unknown method " +:+ "ExtHostExtensionService" +:+ "." +:+ "getExtensions")))] ∧
        c_open c' = true ∧ inbox c' SideMain = [] ∧ inbox c' SideExt = [].
Proof.
  apply (rpc_unknown_method demo_published SideMain); vm_compute; reflexivity.
Defined.

Lemma rpc_out_of_order_example :
  ∃ c', rpc_run demo_published
          [RCall SideMain "ExtHostExtensionService" "$getExtensions" [];
           RCall SideMain "ExtHostExtensionService" "$activateExtension" [VStr "/ext/foo"];
           RDeliver SideExt; RDeliver SideExt; RFinish SideExt 1; RFinish SideExt 0;
           RDeliver SideMain; RDeliver SideMain] = Some c' ∧
        ep_log (ep_of c' SideMain) = [(1, Resolved VUndef); (0, Resolved (VArr [VStr "foo"]))].
Proof.
  apply (rpc_out_of_order demo_published SideMain
           "ExtHostExtensionService" "$getExtensions" [] (λ _, Ret (VArr [VStr "foo"])) _
           "ExtHostExtensionService" "$activateExtension" [VStr "/ext/foo"]
           (λ args, match args with [VStr _] => Ret VUndef | _ => throw "TypeError: path" end));
    vm_compute; reflexivity.
Defined.
