(* ===== verification/Bridge.v ===== *)
(** * The manager's extension host over the RPC bridge

    [activeExtension()] (extension.service.ts, lines 146-151) calls
    [$getExtension] and then [$activateExtension] through
    [this.protocol.getProxy(ExtHostAPIIdentifier.ExtHostExtensionService)].
    This file gives the instance [bridge_host] of the interface
    [ExtHostService] of [Manager]. Its state is the connection [conn] of
    [Rpc]. Each awaited call is a proxy call of the main side to
    [ExtHostExtensionService], followed by one schedule of the other side:
    - the extension side takes every frame of its inbox;
    - it finishes its running methods in the order they started;
    - the main side takes every frame of its inbox.
    The call's result is what the main side's log records for its
    correlation id. This schedule serves the call as soon as it arrives.
    The instance fixes that one schedule. Other schedules are steps of
    [rpc_step] too, and the protocol theorems of [Rpc] cover them:
    exactly-once settlement, and matching of replies by correlation id
    ([rpc_out_of_order]). *)

From S2P Require Import Prelude JsCollections Registry Lifecycle Manager Rpc.
From Stdlib Require Import Lia.

(** [s] takes the first [n] frames of its inbox. *)
Fixpoint deliver_n (c : conn) (s : side) (n : nat) : conn :=
  match n with
  | 0 => c
  | S n' => match deliver c s with Some c' => deliver_n c' s n' | None => c end
  end.

(** [s] finishes its first running method, [n] times. *)
Fixpoint finish_n (c : conn) (s : side) (n : nat) : conn :=
  match n with
  | 0 => c
  | S n' => match finish c s 0 with Some c' => finish_n c' s n' | None => c end
  end.

(** The resolution recorded for a correlation id. *)
Fixpoint log_find (l : list (nat * resolution)) (cid : nat) : option resolution :=
  match l with
  | [] => None
  | (k, r) :: t => if decide (k = cid) then Some r else log_find t cid
  end.

(** One awaited call of the main side on the [ExtHostExtensionService] proxy. *)
Definition host_call (c : conn) (meth : string) (args : list value) : conn * resolution :=
  let cid := ep_next (c_main c) in
  let c1 := proxy_call c SideMain ExtHostExtensionService meth args in
  let c2 := deliver_n c1 SideExt (length (c_to_ext c1)) in
  let c3 := finish_n c2 SideExt (length (ep_jobs (c_ext c2))) in
  let c4 := deliver_n c3 SideMain (length (c_to_main c3)) in
  (c4, default (Rejected ChannelClosedError) (log_find (ep_log (c_main c4)) cid)).

(** How [await] sees the settled promise: a rejection is thrown. *)
Definition to_outcome (r : resolution) : outcome value :=
  match r with
  | Resolved v => Ret v
  | Rejected ChannelClosedError => throw "ChannelClosedError"
  | Rejected (DispatchError m) => throw m
  end.

(** The extension list [$getExtension] resolves with, as the manager reads
    it. An extension is represented by its [path], the one field
    [activeExtension] reads, and it reads it of [extension[0]] alone (lines
    149-150): the rest of the array is never inspected. So the decoder
    passes on the first path, or nothing for an empty array. *)
Definition extensions_of (v : value) : outcome (list string) :=
  match v with
  | VArr [] => Ret []
  | VArr (VStr p :: _) => Ret [p]
  | _ => throw type_error_path
  end.

#[export] Instance bridge_host : ExtHostService conn := {
  eh_getExtension c :=
    let '(c', r) := host_call c "$getExtension" [] in (c', to_outcome r ≫= extensions_of);
  eh_activateExtension p c :=
    let '(c', r) := host_call c "$activateExtension" [VStr p] in
    (c', to_outcome r ≫= λ _, Ret tt)
}.

(** ** The schedule is made of bridge steps *)

Lemma deliver_n_reachable c s n : rpc_reachable c → rpc_reachable (deliver_n c s n).
Proof.
  revert c. induction n as [|n IH]; intros c Hr; simpl; [done |].
  destruct (deliver c s) eqn:E; [| done]. apply IH. by apply (rr_step c (RDeliver s)).
Qed.

Lemma finish_n_reachable c s n : rpc_reachable c → rpc_reachable (finish_n c s n).
Proof.
  revert c. induction n as [|n IH]; intros c Hr; simpl; [done |].
  destruct (finish c s 0) eqn:E; [| done]. apply IH. by apply (rr_step c (RFinish s 0)).
Qed.

Lemma host_call_reachable c meth args :
  rpc_reachable c → rpc_reachable (host_call c meth args).1.
Proof.
  intros Hr. unfold host_call; simpl.
  apply deliver_n_reachable, finish_n_reachable, deliver_n_reachable.
  by apply (rr_step c (RCall SideMain ExtHostExtensionService meth args)).
Qed.

(** The schedule issues no call of the main side: only [proxy_call] takes a
    correlation id. *)
Lemma deliver_next c s c' : deliver c s = Some c' → ep_next (c_main c') = ep_next (c_main c).
Proof.
  unfold deliver. destruct (inbox c s) as [|m rest]; [done |].
  destruct s, m; simpl; repeat case_match; intros; simplify_eq; simpl; try done;
    unfold settle_call; by case_bool_decide.
Qed.

Lemma finish_next c s i c' : finish c s i = Some c' → ep_next (c_main c') = ep_next (c_main c).
Proof.
  unfold finish. destruct (ep_jobs (ep_of c s) !! i); [| done]. intros [= <-].
  change (c_main ?x) with (ep_of x SideMain). rewrite ep_of_send. by destruct s.
Qed.

Lemma deliver_n_next c s n : ep_next (c_main (deliver_n c s n)) = ep_next (c_main c).
Proof.
  revert c. induction n as [|n IH]; intros c; simpl; [done |].
  destruct (deliver c s) eqn:E; [| done]. rewrite IH. by eapply deliver_next.
Qed.

Lemma finish_n_next c s n : ep_next (c_main (finish_n c s n)) = ep_next (c_main c).
Proof.
  revert c. induction n as [|n IH]; intros c; simpl; [done |].
  destruct (finish c s 0) eqn:E; [| done]. rewrite IH. by eapply finish_next.
Qed.

Lemma proxy_call_next c meth args :
  ep_next (c_main (proxy_call c SideMain ExtHostExtensionService meth args)) = S (ep_next (c_main c)).
Proof.
  unfold proxy_call. change (c_main ?x) with (ep_of x SideMain).
  case_match; [rewrite ep_of_send |]; done.
Qed.

(** Each awaited call takes exactly one correlation id. *)
Lemma host_call_next c meth args :
  ep_next (c_main (host_call c meth args).1) = S (ep_next (c_main c)).
Proof.
  unfold host_call; cbn [fst]. by rewrite deliver_n_next, finish_n_next, deliver_n_next, proxy_call_next.
Qed.

(** ** Reading the result of a call *)

Lemma log_find_absent l cid : cid ∉ l.*1 → log_find l cid = None.
Proof.
  induction l as [|[k r] t IH]; intros Hn; simpl; [done |].
  rewrite decide_False by set_solver. apply IH. set_solver.
Qed.

Lemma log_find_snoc_fresh l cid r : cid ∉ l.*1 → log_find (l ++ [(cid, r)]) cid = Some r.
Proof.
  induction l as [|[k r'] t IH]; intros Hn; simpl; [by rewrite decide_True |].
  rewrite decide_False by set_solver. apply IH. set_solver.
Qed.

(** The next correlation id of a well-formed endpoint is neither pending nor
    settled. *)
Lemma ep_next_fresh e : ep_ok e → ep_next e ∉ ep_pending e ++ (ep_log e).*1.
Proof. unfold ep_ok. intros ->. rewrite elem_of_seq. lia. Qed.

Lemma filter_snoc_fresh (p : list nat) cid :
  cid ∉ p → filter (λ x, x ≠ cid) (p ++ [cid]) = p.
Proof.
  intros Hn. rewrite filter_app, filter_neq_notin by done.
  rewrite filter_cons_False by tauto. apply app_nil_r.
Qed.

(** Nothing in flight and no running method on the extension side. *)
Definition idle (c : conn) : Prop :=
  c_to_main c = [] ∧ c_to_ext c = [] ∧ ep_jobs (c_ext c) = [].

(** On an open, idle, well-formed connection, an awaited call settles with
    the reply the extension side's dispatcher makes for it. The main side's
    log gains exactly that call, and the connection is idle again. *)
Lemma host_call_idle c meth args m r :
  rpc_reachable c → c_open c = true → idle c →
  dispatch (ep_services (c_ext c)) (ep_next (c_main c)) ExtHostExtensionService meth
           (encode (VArr args)) = m →
  reply_resolution m = Some (ep_next (c_main c), r) →
  (host_call c meth args).2 = r ∧
  ep_log (c_main (host_call c meth args).1) = ep_log (c_main c) ++ [(ep_next (c_main c), r)] ∧
  ep_pending (c_main (host_call c meth args).1) = ep_pending (c_main c) ∧
  ep_services (c_ext (host_call c meth args).1) = ep_services (c_ext c) ∧
  c_open (host_call c meth args).1 = true ∧ idle (host_call c meth args).1.
Proof.
  intros Hr. pose proof (ep_next_fresh _ (proj1 (rpc_reachable_inv c Hr) SideMain)) as Hf.
  destruct c as [em ee qm qe o]; unfold idle; simpl in *.
  intros -> (-> & -> & Hj) Hd Hrr.
  unfold host_call, proxy_call; simpl. rewrite Hj; simpl. unfold finish; simpl.
  rewrite Hd; simpl. unfold deliver; simpl.
  destruct m as [| cid res | cid err]; simpl in Hrr |- *; simplify_eq;
    unfold settle_call; simpl; rewrite bool_decide_eq_true_2 by set_solver; simpl;
    rewrite log_find_snoc_fresh, filter_snoc_fresh by set_solver; done.
Qed.

Lemma finish_n_closed c s n :
  c_open c = false →
  ep_of (finish_n c s n) (other s) = ep_of c (other s) ∧
  inbox (finish_n c s n) (other s) = inbox c (other s) ∧ c_open (finish_n c s n) = false.
Proof.
  revert c. induction n as [|n IH]; intros c Ho; simpl; [done |].
  unfold finish. destruct (ep_jobs (ep_of c s) !! 0); simpl; [| done].
  rewrite send_closed by by rewrite c_open_set_ep.
  destruct (IH (set_ep c s (set_jobs (ep_of c s) (delete 0 (ep_jobs (ep_of c s))))))
    as (H1 & H2 & H3); [by rewrite c_open_set_ep |].
  rewrite H1, H2, H3, inbox_set_ep, ep_of_set_ep_ne by (destruct s; done). done.
Qed.

(** On a closed connection an awaited call is rejected at once with
    [ChannelClosedError]; the main side's log records it, and nothing else
    happens on the main side. *)
Lemma host_call_closed c meth args :
  rpc_reachable c → c_open c = false →
  (host_call c meth args).2 = Rejected ChannelClosedError ∧
  ep_log (c_main (host_call c meth args).1) =
    ep_log (c_main c) ++ [(ep_next (c_main c), Rejected ChannelClosedError)] ∧
  c_open (host_call c meth args).1 = false.
Proof.
  intros Hr Ho. destruct (rpc_reachable_inv c Hr) as [Hok Hcl].
  pose proof (ep_next_fresh _ (Hok SideMain)) as Hf.
  destruct (Hcl Ho SideMain) as [_ Hm]. destruct (Hcl Ho SideExt) as [_ He].
  unfold host_call, proxy_call. rewrite Ho. cbn [fst snd].
  set (c1 := set_ep c SideMain _).
  assert (c_to_ext c1 = []) as -> by (subst c1; by destruct c).
  cbn [length deliver_n].
  destruct (finish_n_closed c1 SideExt (length (ep_jobs (c_ext c1)))) as (H1 & H2 & H3);
    [subst c1; by rewrite c_open_set_ep |].
  cbn [other ep_of inbox] in H1, H2. rewrite H2.
  assert (c_to_main c1 = []) as -> by (subst c1; by destruct c).
  cbn [length deliver_n]. rewrite H1, H3. subst c1. destruct c; simpl in *.
  rewrite log_find_snoc_fresh by set_solver. done.
Qed.

(** A call to a published method that returns [v]. *)
Lemma host_call_resolved c meth args f v :
  rpc_reachable c → c_open c = true → idle c →
  lookup_method (ep_services (c_ext c)) ExtHostExtensionService meth = Some f → f args = Ret v →
  (host_call c meth args).2 = Resolved v ∧
  ep_log (c_main (host_call c meth args).1) =
    ep_log (c_main c) ++ [(ep_next (c_main c), Resolved v)] ∧
  ep_services (c_ext (host_call c meth args).1) = ep_services (c_ext c) ∧
  c_open (host_call c meth args).1 = true ∧ idle (host_call c meth args).1.
Proof.
  intros Hr Ho Hi Hl Hf.
  destruct (host_call_idle c meth args _ (Resolved v) Hr Ho Hi (dispatch_ok _ _ _ _ _ _ _ Hl Hf))
    as (? & ? & _ & ?); [simpl; by rewrite decode_value_encode | naive_solver].
Qed.

(** A call to a method the extension side does not publish. *)
Lemma host_call_unknown c meth args :
  rpc_reachable c → c_open c = true → idle c →
  lookup_method (ep_services (c_ext c)) ExtHostExtensionService meth = None →
  let e := DispatchError ("Unknown method " +:+ ExtHostExtensionService +:+ "." +:+ meth) in
  (host_call c meth args).2 = Rejected e ∧
  ep_log (c_main (host_call c meth args).1) = ep_log (c_main c) ++ [(ep_next (c_main c), Rejected e)] ∧
  c_open (host_call c meth args).1 = true ∧ idle (host_call c meth args).1.
Proof.
  intros Hr Ho Hi Hl e.
  destruct (host_call_idle c meth args _ (Rejected e) Hr Ho Hi (dispatch_unknown _ _ _ _ _ Hl))
    as (? & ? & _ & ?); [done | naive_solver].
Qed.

(** ** The manager over the bridge *)

Section ManagerOverBridge.
Context {T : Type}.

(** Unfold [activeExtension], the manager's monad and the host instance. *)
Ltac host_simpl :=
  unfold activeExtension, mbind, M_bind, mret, M_ret, m_throw, m_get, m_emit, m_host_call;
  cbn [eh_getExtension eh_activateExtension bridge_host].

(** C27. [activeExtension()] over the RPC bridge, when the extension host
    publishes both methods. [$getExtension] resolves with an array whose
    first extension has path [p], the rest of it being any values, and
    [$activateExtension] on [p] returns [v]. Then the
    manager activates [p], and its promise resolves. The main side's log
    records the two calls, with consecutive correlation ids, resolved with
    the values the host's methods returned. The connection is left open and
    idle. *)
Theorem activeExtension_bridge_success (s : @manager T conn) n g a p vs v :
  rpc_reachable (m_host s) → c_open (m_host s) = true → idle (m_host s) →
  m_protocol s = Some n →
  lookup_method (ep_services (c_ext (m_host s))) ExtHostExtensionService "$getExtension" = Some g →
  g [] = Ret (VArr (VStr p :: vs)) →
  lookup_method (ep_services (c_ext (m_host s))) ExtHostExtensionService "$activateExtension" = Some a →
  a [VStr p] = Ret v →
  let k := ep_next (c_main (m_host s)) in
  ∃ s', activeExtension s = (Ret tt, s') ∧
        m_trace s' = m_trace s ++ [EffGetProxy n ExtHostExtensionService;
                                   EffRemoteCall "$getExtension" []; EffConsoleLog p;
                                   EffRemoteCall "$activateExtension" [p]] ∧
        ep_log (c_main (m_host s')) =
          ep_log (c_main (m_host s)) ++ [(k, Resolved (VArr (VStr p :: vs))); (S k, Resolved v)] ∧
        c_open (m_host s') = true ∧ idle (m_host s').
Proof.
  intros Hr Ho Hi Hp Hlg Hg Hla Ha k. host_simpl. rewrite Hp. cbn -[host_call].
  destruct (host_call_resolved _ _ _ _ _ Hr Ho Hi Hlg Hg) as (Hr1 & Hl1 & Hs1 & Ho1 & Hi1).
  pose proof (host_call_next (m_host s) "$getExtension" []) as Hn1.
  pose proof (host_call_reachable (m_host s) "$getExtension" [] Hr) as Hrc1.
  destruct (host_call (m_host s) "$getExtension" []) as [c1 r1]; cbn [fst snd] in *; subst r1.
  cbn [to_outcome mbind outcome_bind extensions_of]. cbn -[host_call].
  rewrite <- Hs1 in Hla.
  destruct (host_call_resolved c1 _ _ _ _ Hrc1 Ho1 Hi1 Hla Ha)
    as (Hr2 & Hl2 & _ & Ho2 & Hi2).
  destruct (host_call c1 "$activateExtension" [VStr p]) as [c2 r2]; cbn [fst snd] in *; subst r2.
  eexists; split_and!; [reflexivity | | | done | done]; simpl.
  - by rewrite <- !app_assoc.
  - rewrite Hl2, Hl1, Hn1, <- app_assoc. done.
Qed.

(** C28. [activeExtension()] when the channel is already closed. The
    [$getExtension] call is rejected with [ChannelClosedError], the
    manager's promise rejects with it, and [$activateExtension] is never
    called. The main side's log settles that one call. *)
Theorem activeExtension_bridge_closed (s : @manager T conn) n :
  rpc_reachable (m_host s) → c_open (m_host s) = false → m_protocol s = Some n →
  ∃ s', activeExtension s = (throw "ChannelClosedError", s') ∧
        m_trace s' = m_trace s ++ [EffGetProxy n ExtHostExtensionService;
                                   EffRemoteCall "$getExtension" []] ∧
        ep_log (c_main (m_host s')) =
          ep_log (c_main (m_host s)) ++ [(ep_next (c_main (m_host s)), Rejected ChannelClosedError)].
Proof.
  intros Hr Ho Hp. host_simpl. rewrite Hp. cbn -[host_call].
  destruct (host_call_closed _ "$getExtension" [] Hr Ho) as (Hr1 & Hl1 & _).
  destruct (host_call (m_host s) "$getExtension" []) as [c1 r1]; cbn [fst snd] in *; subst r1.
  eexists; split_and!; [reflexivity | | done]. simpl. by rewrite <- app_assoc.
Qed.

(** C29. [activeExtension()] when the extension host does not publish
    [$getExtension]. The call is rejected with a [DispatchError] naming
    the method, and the manager's promise rejects with that message. The
    connection stays open and idle, so later calls still work. *)
Theorem activeExtension_bridge_unpublished (s : @manager T conn) n :
  rpc_reachable (m_host s) → c_open (m_host s) = true → idle (m_host s) →
  m_protocol s = Some n →
  lookup_method (ep_services (c_ext (m_host s))) ExtHostExtensionService "$getExtension" = None →
  let msg := "Unknown method " +:+ ExtHostExtensionService +:+ "." +:+ "$getExtension" in
  ∃ s', activeExtension s = (throw msg, s') ∧
        m_trace s' = m_trace s ++ [EffGetProxy n ExtHostExtensionService;
                                   EffRemoteCall "$getExtension" []] ∧
        ep_log (c_main (m_host s')) =
          ep_log (c_main (m_host s)) ++ [(ep_next (c_main (m_host s)), Rejected (DispatchError msg))] ∧
        c_open (m_host s') = true ∧ idle (m_host s').
Proof.
  intros Hr Ho Hi Hp Hl msg. host_simpl. rewrite Hp. cbn -[host_call].
  destruct (host_call_unknown _ "$getExtension" [] Hr Ho Hi Hl) as (Hr1 & Hl1 & Ho1 & Hi1).
  destruct (host_call (m_host s) "$getExtension" []) as [c1 r1]; cbn [fst snd] in *; subst r1.
  eexists; split_and!; [reflexivity | | done | done | done]. simpl. by rewrite <- app_assoc.
Qed.

End ManagerOverBridge.

(** ** Witnesses *)

(** An extension host that publishes the two methods the manager calls. *)
Definition host_service : service :=
  [("$getExtension", λ _, Ret (VArr [VStr "/ext/a"; VStr "/ext/b"]));
   ("$activateExtension", λ _, Ret VUndef)].

Definition bridge_published : conn :=
  run_from_init [RSet SideExt ExtHostExtensionService host_service].

Definition bridge_closed : conn :=
  run_from_init [RSet SideExt ExtHostExtensionService host_service; RClose].

(** The manager after [activate()], talking to the extension host over [c]. *)
Definition bridge_manager (c : conn) : @manager demo_type conn :=
  (activate demo_contributions (Ret tt) (λ _, Ret tt) (init_manager c)).2.

Lemma bridge_published_reachable : rpc_reachable (m_host (bridge_manager bridge_published)).
Proof. apply run_from_init_reachable. vm_compute. by eexists. Qed.

Lemma bridge_closed_reachable : rpc_reachable (m_host (bridge_manager bridge_closed)).
Proof. apply run_from_init_reachable. vm_compute. by eexists. Qed.

Lemma activeExtension_bridge_success_witness :
  let s := bridge_manager bridge_published in
  ∃ s', activeExtension s = (Ret tt, s') ∧
        m_trace s' = m_trace s ++ [EffGetProxy 0 ExtHostExtensionService;
                                   EffRemoteCall "$getExtension" []; EffConsoleLog "/ext/a";
                                   EffRemoteCall "$activateExtension" ["/ext/a"]] ∧
        ep_log (c_main (m_host s')) =
          [(0, Resolved (VArr [VStr "/ext/a"; VStr "/ext/b"])); (1, Resolved VUndef)] ∧
        c_open (m_host s') = true ∧ idle (m_host s').
Proof.
  apply (activeExtension_bridge_success _ 0 (λ _, Ret (VArr [VStr "/ext/a"; VStr "/ext/b"]))
           (λ _, Ret VUndef) "/ext/a" [VStr "/ext/b"] VUndef bridge_published_reachable);
    vm_compute; repeat split; reflexivity.
Defined.

Lemma activeExtension_bridge_closed_witness :
  let s := bridge_manager bridge_closed in
  ∃ s', activeExtension s = (throw "ChannelClosedError", s') ∧
        m_trace s' = m_trace s ++ [EffGetProxy 0 ExtHostExtensionService;
                                   EffRemoteCall "$getExtension" []] ∧
        ep_log (c_main (m_host s')) = [(0, Rejected ChannelClosedError)].
Proof.
  apply (activeExtension_bridge_closed _ 0 bridge_closed_reachable); vm_compute; reflexivity.
Defined.

(** The host of [Rpc.demo_published] publishes [$getExtensions], not the
    [$getExtension] the manager calls. *)
Lemma activeExtension_bridge_unpublished_witness :
  let s := bridge_manager demo_published in
  let msg := "Unknown method " +:+ ExtHostExtensionService +:+ "." +:+ "$getExtension" in
  ∃ s', activeExtension s = (throw msg, s') ∧
        m_trace s' = m_trace s ++ [EffGetProxy 0 ExtHostExtensionService;
                                   EffRemoteCall "$getExtension" []] ∧
        ep_log (c_main (m_host s')) = [(0, Rejected (DispatchError msg))] ∧
        c_open (m_host s') = true ∧ idle (m_host s').
Proof.
  apply (activeExtension_bridge_unpublished (bridge_manager demo_published) 0);
    [apply run_from_init_reachable; vm_compute; by eexists | ..];
    vm_compute; repeat split; reflexivity.
Defined.
