(* ===== verification/Layout.v ===== *)
(** * [MainThreaLayout]: the layout bridge of the main thread

    This file models [src/packages/kaitian-extension/src/browser/kaitian/main.thread.layout.ts].
    The class answers the extension host's [$setSize], [$activate],
    [$deactivate] and [$connectTabbar] calls. It forwards tab-bar
    activation events to the extension host through [proxy.$acceptMessage].

    The extension host calls the [$]-prefixed methods remotely. A Rocq name
    cannot hold [$], so [$setSize] is [remote_setSize], and likewise for
    [$activate], [$deactivate] and [$connectTabbar].

    The record [layout] holds:
    - [l_tabbars]: the ids [layoutService.getTabbarHandler] knows. A
      handler's [containerId] is the id it is registered under;
    - [l_on_activate] and [l_on_inactivate]: the listeners registered on each
      handler with [handle.onActivate] and [handle.onInActivate], one entry
      per registration, by the handler id they report;
    - [l_bus]: the [TabBarRegistrationEvent] listeners on the event bus,
      each with its identity and the tab-bar id it waits for;
    - [l_handlerMap]: [this.handlerMap];
    - [l_toDispose]: the disposers given to [addDispose];
    - [l_trace]: every call to a handler, every warning, and every message
      sent to the extension host.
    The layout service's registration of a tab bar ([register_tabbar]) and a
    tab bar becoming active or inactive ([tabbar_activated],
    [tabbar_inactivated]) are the external events that run the listeners.
    [layout_step] takes one method call or one external event.
    [layout_reachable] is its closure from [init_layout]. *)

From S2P Require Import Prelude JsCollections.
From Stdlib Require Import ZArith Lia.

(** What the bridge does that can be observed. *)
Inductive leffect :=
| LSetSize (id : string) (size : Z)     (** [handler.setSize(size)] *)
| LActivate (id : string)               (** [handler.activate()] *)
| LDeactivate (id : string)             (** [handler.deactivate()] *)
| LWarn (msg : string)                  (** [console.warn(...)] *)
| LAccept (containerId msg : string).   (** [proxy.$acceptMessage(containerId, msg)] *)

#[export] Instance leffect_eq_dec : EqDecision leffect.
Proof. solve_decision. Defined.

Record layout := mkLayout {
  l_tabbars : list string;
  l_on_activate : list string;
  l_on_inactivate : list string;
  l_bus : list (nat * string);
  l_next : nat;
  l_handlerMap : jsmap string string;
  l_toDispose : list nat;
  l_trace : list leffect
}.

Definition init_layout : layout := mkLayout [] [] [] [] 0 [] [] [].

Definition set_tabbars st x :=
  mkLayout x (l_on_activate st) (l_on_inactivate st) (l_bus st) (l_next st) (l_handlerMap st)
    (l_toDispose st) (l_trace st).
Definition set_listeners st a i :=
  mkLayout (l_tabbars st) a i (l_bus st) (l_next st) (l_handlerMap st) (l_toDispose st) (l_trace st).
Definition set_bus st b :=
  mkLayout (l_tabbars st) (l_on_activate st) (l_on_inactivate st) b (l_next st) (l_handlerMap st)
    (l_toDispose st) (l_trace st).
Definition set_handlerMap st m :=
  mkLayout (l_tabbars st) (l_on_activate st) (l_on_inactivate st) (l_bus st) (l_next st) m
    (l_toDispose st) (l_trace st).
Definition add_bus_listener st id :=
  mkLayout (l_tabbars st) (l_on_activate st) (l_on_inactivate st) (l_bus st ++ [(l_next st, id)])
    (S (l_next st)) (l_handlerMap st) (l_toDispose st ++ [l_next st]) (l_trace st).
Definition set_toDispose st d :=
  mkLayout (l_tabbars st) (l_on_activate st) (l_on_inactivate st) (l_bus st) (l_next st)
    (l_handlerMap st) d (l_trace st).
Definition ltrace st ev :=
  mkLayout (l_tabbars st) (l_on_activate st) (l_on_inactivate st) (l_bus st) (l_next st)
    (l_handlerMap st) (l_toDispose st) (l_trace st ++ [ev]).

(** The [TypeError] of calling a method on the [undefined] handler. *)
Definition type_error_handler (meth : string) : js_error :=
  "Cannot read properties of undefined (reading '" +:+ meth +:+ "')".

(** [getHandler(id)], lines 67-73: warn when there is no handler, and
    return it anyway (the [!] does not check). *)
Definition getHandler (st : layout) (id : string) : option string * layout :=
  if bool_decide (id ∈ l_tabbars st) then (Some id, st)
  else (None, ltrace st (LWarn ("MainThreaLayout:没有找到" +:+ id +:+ "对应的handler"))).

(** [$setSize], [$activate], [$deactivate], lines 27-37: call the handler's
    method; on the [undefined] handler the call throws. *)
Definition call_handler (meth : string) (ev : string → leffect) (st : layout) (id : string)
    : outcome unit * layout :=
  match getHandler st id with
  | (Some h, st') => (Ret tt, ltrace st' (ev h))
  | (None, st') => (throw (type_error_handler meth), st')
  end.

Definition remote_setSize (st : layout) (id : string) (size : Z) := call_handler "setSize" (λ h, LSetSize h size) st id.
Definition remote_activate (st : layout) (id : string) := call_handler "activate" LActivate st id.
Definition remote_deactivate (st : layout) (id : string) := call_handler "deactivate" LDeactivate st id.

(** [bindHandleEvents(handle)], lines 57-65. The two listeners are never
    disposed: the disposers [onActivate]/[onInActivate] return are dropped. *)
Definition bindHandleEvents (st : layout) (h : string) : layout :=
  set_listeners (set_handlerMap st (jm_set (l_handlerMap st) h h))
    (l_on_activate st ++ [h]) (l_on_inactivate st ++ [h]).

(** [$connectTabbar(id)], lines 39-55. Without a handler yet, it waits on
    the event bus for the tab bar's registration, and gives the listener's
    disposer to [addDispose]. *)
Definition remote_connectTabbar (st : layout) (id : string) : layout :=
  if jm_has (l_handlerMap st) id then st
  else if bool_decide (id ∈ l_tabbars st) then bindHandleEvents st id
  else add_bus_listener st id.

(** The layout service registers the tab bar [id] and fires
    [TabBarRegistrationEvent]. Every bus listener present when the event
    fires runs. A listener waiting for [id] binds the handler and disposes
    of itself (lines 46-50). *)
Fixpoint fire_registration (st : layout) (id : string) (ls : list (nat * string)) : layout :=
  match ls with
  | [] => st
  | (n, tid) :: t =>
      let st' := if bool_decide (tid = id)
                 then let st1 := bindHandleEvents st id in
                      set_bus st1 (filter (λ l, l.1 ≠ n) (l_bus st1))
                 else st in
      fire_registration st' id t
  end.

Definition register_tabbar (st : layout) (id : string) : layout :=
  let st1 := if bool_decide (id ∈ l_tabbars st) then st else set_tabbars st (l_tabbars st ++ [id]) in
  fire_registration st1 id (l_bus st1).

(** The handler [id] fires [onActivate] (or [onInActivate]): each listener
    registered on it sends [$acceptMessage] to the extension host. *)
Definition fire_handler (msg : string) (ls : list string) (st : layout) (id : string) : layout :=
  foldl (λ st h, if bool_decide (h = id) then ltrace st (LAccept h msg) else st) st ls.

Definition tabbar_activated (st : layout) (id : string) : layout :=
  fire_handler "activate" (l_on_activate st) st id.

Definition tabbar_inactivated (st : layout) (id : string) : layout :=
  fire_handler "deactivate" (l_on_inactivate st) st id.

(** [dispose()] of [Disposable]: run every disposer given to [addDispose].
    Each removes its bus listener; one that already removed itself does
    nothing. The handler listeners are not among them. *)
Definition dispose (st : layout) : layout :=
  set_toDispose (set_bus st (filter (λ l, l.1 ∉ l_toDispose st) (l_bus st))) [].

Inductive lchoice :=
| LCSetSize (id : string) (size : Z)
| LCActivate (id : string)
| LCDeactivate (id : string)
| LCConnectTabbar (id : string)
| LCRegister (id : string)
| LCTabActivated (id : string)
| LCTabInactivated (id : string)
| LCDispose.

(** One call or event. A call that throws leaves the state it reached. *)
Definition layout_step (st : layout) (ch : lchoice) : layout :=
  match ch with
  | LCSetSize id n => (remote_setSize st id n).2
  | LCActivate id => (remote_activate st id).2
  | LCDeactivate id => (remote_deactivate st id).2
  | LCConnectTabbar id => remote_connectTabbar st id
  | LCRegister id => register_tabbar st id
  | LCTabActivated id => tabbar_activated st id
  | LCTabInactivated id => tabbar_inactivated st id
  | LCDispose => dispose st
  end.

Definition layout_run (st : layout) (chs : list lchoice) : layout := foldl layout_step st chs.

Inductive layout_reachable : layout → Prop :=
| lr_init : layout_reachable init_layout
| lr_step st ch : layout_reachable st → layout_reachable (layout_step st ch).

(** ** The invariant *)

(** [handlerMap] is a well-formed map of registered tab bars. Every handler
    listener and every message sent names a tab bar of [handlerMap]. *)
Record lay_inv (st : layout) : Prop := {
  li_wf : jm_wf (l_handlerMap st);
  li_registered : ∀ k, k ∈ jm_keys (l_handlerMap st) → k ∈ l_tabbars st;
  li_listeners : ∀ h, h ∈ l_on_activate st ++ l_on_inactivate st → h ∈ jm_keys (l_handlerMap st);
  li_messages : ∀ c m, LAccept c m ∈ l_trace st → c ∈ jm_keys (l_handlerMap st)
}.

Lemma init_layout_inv : lay_inv init_layout.
Proof. split; simpl; try set_solver. constructor. Qed.

Lemma ltrace_inv st ev : lay_inv st → (∀ c m, ev ≠ LAccept c m) → lay_inv (ltrace st ev).
Proof.
  intros [Hw Hr Hl Hm] Hev. split; simpl; auto.
  intros c m [Hin | He%list_elem_of_singleton]%elem_of_app; [eauto | by destruct (Hev c m)].
Qed.

Lemma bindHandleEvents_inv st h : lay_inv st → h ∈ l_tabbars st → lay_inv (bindHandleEvents st h).
Proof.
  intros [Hw Hr Hl Hm] Hh. unfold bindHandleEvents. split; simpl.
  - by apply jm_set_wf.
  - rewrite jm_keys_set. case_bool_decide; [done |]. set_solver.
  - rewrite jm_keys_set. case_bool_decide; set_solver.
  - rewrite jm_keys_set. case_bool_decide; set_solver.
Qed.

Lemma set_bus_inv st b : lay_inv st → lay_inv (set_bus st b).
Proof. by intros [Hw Hr Hl Hm]; split. Qed.

Lemma fire_registration_inv st id ls :
  lay_inv st → id ∈ l_tabbars st → lay_inv (fire_registration st id ls).
Proof.
  revert st. induction ls as [|[n tid] t IH]; intros st Hi Hid; simpl; [done |].
  apply IH; case_bool_decide; auto using set_bus_inv, bindHandleEvents_inv.
Qed.

Lemma fire_handler_inv msg ls st id :
  lay_inv st → (∀ h, h ∈ ls → h ∈ jm_keys (l_handlerMap st)) → lay_inv (fire_handler msg ls st id).
Proof.
  unfold fire_handler. revert st. induction ls as [|h t IH]; intros st Hi Hls; simpl; [done |].
  apply IH; [| case_bool_decide; set_solver].
  case_bool_decide; [| done]. destruct Hi as [Hw Hr Hl Hm]. split; simpl; auto.
  intros c m [Hin | [= -> ->]%list_elem_of_singleton]%elem_of_app; [eauto | set_solver].
Qed.

Lemma layout_step_inv st ch : lay_inv st → lay_inv (layout_step st ch).
Proof.
  intros Hi. destruct ch; simpl.
  1-3: unfold remote_setSize, remote_activate, remote_deactivate, call_handler, getHandler;
       case_bool_decide; simpl; apply ltrace_inv; done.
  - unfold remote_connectTabbar. destruct (jm_has _ _); [done |].
    case_bool_decide; [by apply bindHandleEvents_inv |].
    destruct Hi as [Hw Hr Hl Hm]. by split.
  - unfold register_tabbar. apply fire_registration_inv; case_bool_decide; [done | | done | simpl; set_solver].
    destruct Hi as [Hw Hr Hl Hm]. split; simpl; set_solver.
  - apply fire_handler_inv; [done |]. intros h Hh. apply Hi. set_solver.
  - apply fire_handler_inv; [done |]. intros h Hh. apply Hi. set_solver.
  - destruct Hi as [Hw Hr Hl Hm]. by split.
Qed.

Lemma layout_reachable_inv st : layout_reachable st → lay_inv st.
Proof. induction 1; [apply init_layout_inv | by apply layout_step_inv]. Qed.

(** ** Counting listeners and messages *)

Lemma fire_handler_trace msg ls st id :
  l_trace (fire_handler msg ls st id) =
  l_trace st ++ replicate (length (filter (λ h, h = id) ls)) (LAccept id msg).
Proof.
  unfold fire_handler. revert st. induction ls as [|h t IH]; intros st; simpl.
  - by rewrite app_nil_r.
  - rewrite IH. rewrite filter_cons. case_bool_decide; case_decide; try done; subst; simpl.
    by rewrite <- app_assoc.
Qed.

Lemma fire_registration_spec st id ls :
  l_on_activate (fire_registration st id ls) =
    l_on_activate st ++ replicate (length (filter (λ l, l.2 = id) ls)) id ∧
  l_trace (fire_registration st id ls) = l_trace st.
Proof.
  revert st. induction ls as [|[n tid] t IH]; intros st; simpl; [by rewrite app_nil_r |].
  rewrite filter_cons. case_bool_decide as Hid; rewrite (proj1 (IH _)), (proj2 (IH _));
    case_decide; simpl in *; try done; subst; simpl; by rewrite ?app_nil_r, <- ?app_assoc.
Qed.

Lemma filter_eq_notin (ls : list string) id : id ∉ ls → filter (λ h, h = id) ls = [].
Proof.
  induction ls as [|h t IH]; intros Hn; [done |].
  rewrite filter_cons_False by set_solver. apply IH. set_solver.
Qed.

Lemma filter_bus_notin (ls : list (nat * string)) id :
  (∀ n, (n, id) ∉ ls) → filter (λ l, l.2 = id) ls = [].
Proof.
  induction ls as [|[n t] ls IH]; intros Hn; [done |].
  rewrite filter_cons_False; [apply IH; intros m; specialize (Hn m); set_solver |].
  simpl. intros ->. apply (Hn n). set_solver.
Qed.

Lemma connectTabbar_unregistered st id :
  id ∉ l_tabbars st → jm_has (l_handlerMap st) id = false → remote_connectTabbar st id = add_bus_listener st id.
Proof. intros Ht Hh. unfold remote_connectTabbar. rewrite Hh, bool_decide_eq_false_2 by done. done. Qed.

Lemma connectTabbar_registered st id :
  id ∈ l_tabbars st → jm_has (l_handlerMap st) id = false → remote_connectTabbar st id = bindHandleEvents st id.
Proof. intros Ht Hh. unfold remote_connectTabbar. rewrite Hh, bool_decide_eq_true_2 by done. done. Qed.

Lemma jm_has_bind st h : jm_has (l_handlerMap (bindHandleEvents st h)) h = true.
Proof. unfold jm_has. simpl. rewrite jm_get_set_eq. by apply bool_decide_eq_true_2. Qed.

(** ** Theorems *)

(** C31. The extension host only hears about connected tab bars. In every
    state reachable by any sequence of calls and layout events, each
    [$acceptMessage(containerId, ...)] sent names a tab bar that is in
    [handlerMap] and is registered with the layout service. *)
Theorem layout_messages_connected st c m :
  layout_reachable st → LAccept c m ∈ l_trace st →
  c ∈ jm_keys (l_handlerMap st) ∧ c ∈ l_tabbars st.
Proof.
  intros Hr Hm. destruct (layout_reachable_inv st Hr) as [_ Hreg _ Hmsg].
  pose proof (Hmsg c m Hm). auto.
Qed.

(** C32. Two [$connectTabbar(id)] calls made before the tab bar exists both
    wait on the event bus. [handlerMap] is only filled when the tab bar
    registers. When it registers, both listeners bind the handler, and each
    activation of the tab bar then sends [$acceptMessage(id, 'activate')]
    twice. *)
Theorem connectTabbar_twice_duplicates st id :
  id ∉ l_tabbars st → jm_has (l_handlerMap st) id = false →
  (∀ n, (n, id) ∉ l_bus st) → id ∉ l_on_activate st →
  l_trace (tabbar_activated (register_tabbar (remote_connectTabbar (remote_connectTabbar st id) id) id) id) =
  l_trace st ++ [LAccept id "activate"; LAccept id "activate"].
Proof.
  intros Ht Hh Hb Ha. rewrite (connectTabbar_unregistered st) by done.
  rewrite (connectTabbar_unregistered (add_bus_listener st id)) by done.
  unfold register_tabbar. rewrite bool_decide_eq_false_2 by done.
  unfold tabbar_activated. rewrite fire_handler_trace.
  destruct (fire_registration_spec (set_tabbars (add_bus_listener (add_bus_listener st id) id)
              (l_tabbars (add_bus_listener (add_bus_listener st id) id) ++ [id])) id
              (l_bus (set_tabbars (add_bus_listener (add_bus_listener st id) id)
                 (l_tabbars (add_bus_listener (add_bus_listener st id) id) ++ [id]))))
    as [-> ->].
  simpl. rewrite <- app_assoc. simpl. rewrite !filter_app, filter_bus_notin, filter_eq_notin by done.
  simpl. rewrite !filter_cons_True by done. simpl. rewrite !filter_cons_True by done. done.
Qed.

(** When the tab bar is already registered, [$connectTabbar] binds it once:
    a second call finds it in [handlerMap], and an activation sends one
    message. *)
Lemma connectTabbar_registered_once st id :
  id ∈ l_tabbars st → jm_has (l_handlerMap st) id = false → id ∉ l_on_activate st →
  l_trace (tabbar_activated (remote_connectTabbar (remote_connectTabbar st id) id) id) =
  l_trace st ++ [LAccept id "activate"].
Proof.
  intros Ht Hh Ha. rewrite (connectTabbar_registered st) by done.
  unfold remote_connectTabbar at 1. rewrite jm_has_bind.
  unfold tabbar_activated. rewrite fire_handler_trace. simpl.
  rewrite filter_app, filter_eq_notin by done. simpl. by rewrite filter_cons_True.
Qed.

(** C33. [dispose()] does not remove the handler listeners. After a tab bar
    is connected and the bridge is disposed, activating the tab bar still
    sends [$acceptMessage(id, 'activate')] to the extension host. *)
Theorem dispose_keeps_handler_listeners st id :
  id ∈ l_tabbars st → jm_has (l_handlerMap st) id = false → id ∉ l_on_activate st →
  l_trace (tabbar_activated (dispose (remote_connectTabbar st id)) id) =
  l_trace st ++ [LAccept id "activate"].
Proof.
  intros Ht Hh Ha. rewrite (connectTabbar_registered st) by done.
  unfold tabbar_activated. rewrite fire_handler_trace. simpl.
  rewrite filter_app, filter_eq_notin by done. simpl. by rewrite filter_cons_True.
Qed.

(** [$setSize] on a tab bar the layout service does not know warns and then
    throws a [TypeError]; no handler is called. *)
Lemma setSize_missing_handler st id size :
  id ∉ l_tabbars st →
  remote_setSize st id size =
  (throw (type_error_handler "setSize"),
   ltrace st (LWarn ("MainThreaLayout:没有找到" +:+ id +:+ "对应的handler"))).
Proof. intros Ht. unfold remote_setSize, call_handler, getHandler. by rewrite bool_decide_eq_false_2. Qed.

(** ** Witnesses *)

Lemma layout_run_reachable st chs : layout_reachable st → layout_reachable (layout_run st chs).
Proof. revert st. induction chs as [|ch t IH]; intros st Hr; simpl; [done |]. apply IH. by constructor. Qed.

(** The extension host connects the [explorer] tab bar twice before the
    layout registers it, then the user activates it. *)
Definition demo_connect_twice : layout :=
  layout_run init_layout [LCConnectTabbar "explorer"; LCConnectTabbar "explorer";
                          LCRegister "explorer"; LCTabActivated "explorer"].

Lemma layout_messages_connected_witness :
  layout_reachable demo_connect_twice ∧ LAccept "explorer" "activate" ∈ l_trace demo_connect_twice ∧
  ("explorer" ∈ jm_keys (l_handlerMap demo_connect_twice) ∧ "explorer" ∈ l_tabbars demo_connect_twice).
Proof.
  assert (layout_reachable demo_connect_twice) as Hr by (apply layout_run_reachable; constructor).
  assert (LAccept "explorer" "activate" ∈ l_trace demo_connect_twice) as Hm by decide_prop.
  exact (conj Hr (conj Hm (layout_messages_connected _ _ _ Hr Hm))).
Defined.

Lemma connectTabbar_twice_duplicates_witness :
  l_trace (tabbar_activated (register_tabbar (remote_connectTabbar (remote_connectTabbar init_layout "explorer")
             "explorer") "explorer") "explorer") =
  [LAccept "explorer" "activate"; LAccept "explorer" "activate"].
Proof.
  apply (connectTabbar_twice_duplicates init_layout "explorer"); [set_solver | reflexivity | set_solver | set_solver].
Defined.

Lemma dispose_keeps_handler_listeners_witness :
  let st := register_tabbar init_layout "explorer" in
  l_trace (tabbar_activated (dispose (remote_connectTabbar st "explorer")) "explorer") =
  [LAccept "explorer" "activate"].
Proof.
  apply (dispose_keeps_handler_listeners (register_tabbar init_layout "explorer") "explorer");
    [vm_compute; left | reflexivity | set_solver].
Defined.
