(* ===== verification/FileResource.v ===== *)
(** * [FileResource] and [FileResourceResolver]

    This file models [src/packages/file-service/src/browser/file-service-contribution.ts].
    A [FileResource] wraps one URI over the file-service client
    [IFileServiceClient]. The client is the interface [FileServiceClient]
    over an abstract state [FS]: each of its methods changes the state and
    resolves or rejects. [mem_fs] is an in-memory client for the witnesses.

    The resource's own state is the record [resource]:
    - [r_stat] is [this.stat];
    - [r_toDispose] is [this.toDispose];
    - [r_fired] counts the [onDidChangeContents] events fired;
    - [r_log] holds the errors given to [this.logger.error].
    Each [async] method is a computation of [SM] over [rstate], the resource
    together with the client's state. Awaiting a client call is [fs_call].

    Errors are messages. A client rejection for a missing file carries the
    prefix [FileNotFound], which [FileSystemError.FileNotFound.is] tests;
    [ResourceError.NotFound] carries the prefix [ResourceNotFound].
    [TextDocumentContentChangeEvent]s are full-text changes. The [options]
    arguments ([encoding]) are passed through to the client unchanged and
    are not modelled. *)

From S2P Require Import Prelude.
From Stdlib Require Import Lia.

Record filestat := FileStat {
  fs_uri : string;
  fs_lastModification : nat;
  fs_isDirectory : bool
}.

#[export] Instance filestat_eq_dec : EqDecision filestat.
Proof. solve_decision. Defined.

(** A full-text [TextDocumentContentChangeEvent]. *)
Definition change := string.

(** The [IFileServiceClient] methods [FileResource] calls. *)
Class FileServiceClient (FS : Type) := {
  fsc_exists : string → FS → FS * outcome bool;
  fsc_getFileStat : string → FS → FS * outcome (option filestat);
  fsc_resolveContent : string → FS → FS * outcome (filestat * string);
  fsc_setContent : filestat → string → FS → FS * outcome filestat;
  fsc_createFile : string → string → FS → FS * outcome filestat;
  fsc_updateContent : filestat → list change → FS → FS * outcome filestat;
  fsc_getFsPath : string → FS → FS * outcome string;
  fsc_watchFileChanges : string → FS → FS * outcome nat
}.

Definition file_not_found (uri : string) : js_error := "FileNotFound: " +:+ uri.

(** [FileSystemError.FileNotFound.is(e)] *)
Definition is_file_not_found (e : js_error) : bool :=
  String.prefix "FileNotFound" e.

(** [ResourceError.NotFound({...e.toJson(), data: {uri}})] *)
Definition resource_not_found (uri : string) : js_error := "ResourceNotFound: " +:+ uri.

(** What [this.toDispose] holds. *)
Inductive disposable :=
| DEmitter               (** [onDidChangeContentsEmitter] *)
| DFilesChanged          (** the [fileSystem.onFilesChanged] listener *)
| DWatcher (w : nat).    (** the disposable of [watchFileChanges] *)

#[export] Instance disposable_eq_dec : EqDecision disposable.
Proof. solve_decision. Defined.

Record resource := Resource {
  r_uri : string;
  r_stat : option filestat;
  r_toDispose : list disposable;
  r_disposed : list disposable;
  r_fired : nat;
  r_log : list js_error
}.

(** [new FileResource(uri, fileSystem)], lines 28-34. *)
Definition new_resource (uri : string) : resource := Resource uri None [DEmitter] [] 0 [].

Definition set_stat r s := Resource (r_uri r) s (r_toDispose r) (r_disposed r) (r_fired r) (r_log r).
Definition push_dispose r d :=
  Resource (r_uri r) (r_stat r) (r_toDispose r ++ [d]) (r_disposed r) (r_fired r) (r_log r).
Definition fire r := Resource (r_uri r) (r_stat r) (r_toDispose r) (r_disposed r) (S (r_fired r)) (r_log r).
Definition log_error r e :=
  Resource (r_uri r) (r_stat r) (r_toDispose r) (r_disposed r) (r_fired r) (r_log r ++ [e]).
Definition dispose_all r := Resource (r_uri r) (r_stat r) [] (r_disposed r ++ r_toDispose r) (r_fired r) (r_log r).

Section FileResource.
Context {FS : Type} `{FileServiceClient FS}.

Record rstate := RState { rs_res : resource; rs_fs : FS }.

Definition RM := SM rstate.

(** Await a call of the client. *)
Definition fs_call {A} (f : FS → FS * outcome A) : RM A :=
  λ s, let '(fs', o) := f (rs_fs s) in (o, RState (rs_res s) fs').

Definition res_modify (f : resource → resource) : RM unit :=
  sm_modify (λ s, RState (f (rs_res s)) (rs_fs s)).

Definition res_get : RM resource := λ s, (Ret (rs_res s), s).

Definition uri_of : RM string := r ← res_get; mret (r_uri r).

(** [getFileStat()], lines 120-131. The [try] block returns the client's
    promise without awaiting it. A rejection of that promise therefore
    settles the method's promise after the [try] has been left, and the
    [catch] never sees it: the rejection reaches the caller, and nothing is
    logged. *)
Definition getFileStat : RM (option filestat) :=
  uri ← uri_of;
  e_exist ← fs_call (fsc_exists uri);
  if negb e_exist then mret None
  else fs_call (fsc_getFileStat uri).

(** [init()], lines 36-58. *)
Definition init : RM unit :=
  uri ← uri_of;
  stat ← getFileStat;
  match stat with
  | Some st => if fs_isDirectory st then sm_throw ("The given uri is a directory: " +:+ uri) else mret tt
  | None => mret tt
  end;;
  res_modify (λ r, set_stat r stat);;
  res_modify (λ r, push_dispose r DFilesChanged);;
  sm_try (S:=rstate)
    (e_exist ← fs_call (fsc_exists uri);
     if (e_exist : bool)
     then w ← fs_call (fsc_watchFileChanges uri); res_modify (λ r, push_dispose r (DWatcher w))
     else mret tt)
    (λ e, res_modify (λ r, log_error r e)).

(** [dispose()], lines 60-62. *)
Definition dispose_resource : RM unit := res_modify dispose_all.

(** [readContents()], lines 64-81. *)
Definition readContents : RM string :=
  uri ← uri_of;
  sm_try (S:=rstate)
    ('(stat, content) ← fs_call (fsc_resolveContent uri);
     res_modify (λ r, set_stat r (Some stat));;
     mret content)
    (λ e, if is_file_not_found e
          then res_modify (λ r, set_stat r None);; sm_throw (resource_not_found uri)
          else sm_throw e).

(** [doSaveContents(content)], lines 91-97. *)
Definition doSaveContents (content : string) : RM filestat :=
  uri ← uri_of;
  stat ← getFileStat;
  match stat with
  | Some st => fs_call (fsc_setContent st content)
  | None => fs_call (fsc_createFile uri content)
  end.

(** [saveContents(content)], lines 83-85. *)
Definition saveContents (content : string) : RM unit :=
  st ← doSaveContents content; res_modify (λ r, set_stat r (Some st)).

(** [getFsPath()], lines 87-89. *)
Definition getFsPath : RM string := uri ← uri_of; fs_call (fsc_getFsPath uri).

(** [saveContentChanges(changes)], lines 99-104. *)
Definition saveContentChanges (changes : list change) : RM unit :=
  r ← res_get;
  match r_stat r with
  | None => sm_throw (r_uri r +:+ " has not been read yet")
  | Some stat => st ← fs_call (fsc_updateContent stat changes); res_modify (λ r, set_stat r (Some st))
  end.

(** [isInSync(current)], lines 112-118. *)
Definition isInSync (current : option filestat) : RM bool :=
  stat ← getFileStat;
  match current with
  | None => mret (negb (bool_decide (is_Some stat)))
  | Some c =>
      mret (match stat with
            | Some s => bool_decide (fs_lastModification s ≤ fs_lastModification c)
            | None => false
            end)
  end.

(** [sync()], lines 106-111. *)
Definition sync : RM unit :=
  r ← res_get;
  b ← isInSync (r_stat r);
  if (b : bool) then mret tt else res_modify fire.

(** The [onFilesChanged] listener of lines 43-48, run when the client
    reports a change of the URIs [uris]. It calls [sync()] without awaiting
    it, so a rejection of [sync()] does not reach the client. *)
Fixpoint run_listeners (ds : list disposable) (uris : list string) (uri : string) : RM unit :=
  match ds with
  | [] => mret tt
  | DFilesChanged :: t =>
      (if bool_decide (uri ∈ uris) then sm_detach sync else mret tt);; run_listeners t uris uri
  | _ :: t => run_listeners t uris uri
  end.

(** Each registered listener (one per [init()]) runs on the event. *)
Definition files_changed (uris : list string) : RM unit :=
  r ← res_get; run_listeners (r_toDispose r) uris (r_uri r).

(** [FileResourceResolver.resolve(uri)], lines 142-149. *)
Definition resolve (scheme uri : string) (fs : FS) : outcome (option resource) * FS :=
  if bool_decide (scheme ≠ "file") then (Ret None, fs)
  else let '(o, s) := init (RState (new_resource uri) fs) in
       (o ≫= λ _, Ret (Some (rs_res s)), rs_fs s).
End FileResource.

(** ** An in-memory client *)

Record mfile := MFile { mf_content : string; mf_mtime : nat; mf_dir : bool }.

(** Files by URI, a clock for modification times, the URIs whose stat
    cannot be read, and a counter of watchers. *)
Record mem_fs := MemFS {
  m_files : gmap string mfile;
  m_clock : nat;
  m_unreadable : list string;
  m_watchers : nat
}.

Definition mstat (u : string) (f : mfile) : filestat := FileStat u (mf_mtime f) (mf_dir f).

(** Write [c] to [u] at the next tick of the clock. *)
Definition mwrite (u c : string) (fs : mem_fs) : mem_fs * outcome filestat :=
  let f := MFile c (S (m_clock fs)) false in
  (MemFS (<[u := f]> (m_files fs)) (S (m_clock fs)) (m_unreadable fs) (m_watchers fs), Ret (mstat u f)).

#[export] Instance mem_client : FileServiceClient mem_fs := {
  fsc_exists u fs := (fs, Ret (bool_decide (is_Some (m_files fs !! u))));
  fsc_getFileStat u fs :=
    if bool_decide (u ∈ m_unreadable fs) then (fs, throw ("EACCES: " +:+ u))
    else (fs, Ret (mstat u <$> m_files fs !! u));
  fsc_resolveContent u fs :=
    match m_files fs !! u with
    | None => (fs, throw (file_not_found u))
    | Some f => if mf_dir f then (fs, throw ("EISDIR: " +:+ u)) else (fs, Ret (mstat u f, mf_content f))
    end;
  fsc_setContent st c fs :=
    if bool_decide (is_Some (m_files fs !! fs_uri st)) then mwrite (fs_uri st) c fs
    else (fs, throw (file_not_found (fs_uri st)));
  fsc_createFile u c fs :=
    if bool_decide (is_Some (m_files fs !! u)) then (fs, throw ("FileExists: " +:+ u)) else mwrite u c fs;
  fsc_updateContent st changes fs :=
    match last changes with
    | Some c => if bool_decide (is_Some (m_files fs !! fs_uri st)) then mwrite (fs_uri st) c fs
                else (fs, throw (file_not_found (fs_uri st)))
    | None => (fs, Ret st)
    end;
  fsc_getFsPath u fs := (fs, Ret u);
  fsc_watchFileChanges u fs :=
    (MemFS (m_files fs) (m_clock fs) (m_unreadable fs) (S (m_watchers fs)), Ret (m_watchers fs))
}.

(** ** Theorems *)

Section FileResourceProps.
Context {FS : Type} `{FileServiceClient FS}.

(** The change [sync()] reports, read off [isInSync]: the file appeared,
    disappeared, or has a newer modification time than [this.stat]. *)
Definition stat_changed (current latest : option filestat) : bool :=
  match current, latest with
  | None, None => false
  | None, Some _ => true
  | Some _, None => true
  | Some c, Some l => bool_decide (fs_lastModification c < fs_lastModification l)
  end.

Lemma uri_of_spec (s : @rstate FS) : uri_of s = (Ret (r_uri (rs_res s)), s).
Proof. reflexivity. Qed.

(** C34. The [catch] of [getFileStat()] is dead code for rejections. When
    the file exists but [fileSystem.getFileStat] rejects, the rejection
    escapes [getFileStat()] and nothing is logged. So [resolve] of that URI
    rejects with the client's error instead of returning a resource, and
    [sync] and [saveContents] reject the same way. *)
Theorem getFileStat_rejection_escapes (s : @rstate FS) fs1 fs2 e :
  fsc_exists (r_uri (rs_res s)) (rs_fs s) = (fs1, Ret true) →
  fsc_getFileStat (r_uri (rs_res s)) fs1 = (fs2, Throw e) →
  getFileStat s = (Throw e, RState (rs_res s) fs2) ∧
  ∀ u fs, fsc_exists u fs = (fs1, Ret true) → fsc_getFileStat u fs1 = (fs2, Throw e) →
          resolve "file" u fs = (Throw e, fs2).
Proof.
  intros He Hg. split.
  - unfold getFileStat. sm_simpl. unfold fs_call. rewrite He. simpl. by rewrite Hg.
  - intros u fs He' Hg'. unfold resolve, init, getFileStat.
    rewrite bool_decide_eq_false_2 by (intros Hn; by apply Hn).
    sm_simpl. unfold fs_call. simpl. rewrite He'. simpl. by rewrite Hg'.
Qed.

(** C35. What [sync()] reports. Suppose [getFileStat()] yields the
    client's current stat [latest]. Then [sync()] fires
    [onDidChangeContents] exactly when [stat_changed this.stat latest]
    holds, and otherwise leaves the resource as it was. A file whose
    modification time moved backwards counts as in sync. *)
Theorem sync_reports_changes (s s1 : @rstate FS) latest :
  getFileStat s = (Ret latest, s1) →
  sync s = (Ret tt, if stat_changed (r_stat (rs_res s)) latest
                    then RState (fire (rs_res s1)) (rs_fs s1) else s1).
Proof.
  intros Hg. unfold sync, isInSync, res_get. sm_simpl. rewrite Hg.
  destruct (r_stat (rs_res s)) as [c|], latest as [l|]; simpl; try done.
  unfold res_modify. sm_simpl.
  destruct (decide (fs_lastModification l ≤ fs_lastModification c)).
  - rewrite bool_decide_eq_true_2, bool_decide_eq_false_2 by lia. done.
  - rewrite bool_decide_eq_false_2, bool_decide_eq_true_2 by lia. done.
Qed.

(** [saveContentChanges] before any read rejects and calls no client
    method. *)
Lemma saveContentChanges_unread (s : @rstate FS) changes :
  r_stat (rs_res s) = None →
  saveContentChanges changes s = (throw (r_uri (rs_res s) +:+ " has not been read yet"), s).
Proof. intros Hs. unfold saveContentChanges, res_get. sm_simpl. by rewrite Hs. Qed.

(** A URI of another scheme is not resolved, and the client is not called. *)
Lemma resolve_other_scheme scheme u (fs : FS) :
  scheme ≠ "file" → resolve scheme u fs = (Ret None, fs).
Proof. intros Hs. unfold resolve. by rewrite bool_decide_eq_true_2. Qed.
End FileResourceProps.

(** C36. Save then read, over the in-memory client. For a URI that is not a
    directory and whose stat can be read, [saveContents(c)] followed by
    [readContents()] resolves with [c]. This holds whether the file existed
    before ([setContent]) or not ([createFile]). [this.stat] is then the
    stat of the write. *)
Theorem save_read_roundtrip (s : @rstate mem_fs) c :
  let u := r_uri (rs_res s) in
  u ∉ m_unreadable (rs_fs s) → (∀ f, m_files (rs_fs s) !! u = Some f → mf_dir f = false) →
  ∃ s', (saveContents c;; readContents) s = (Ret c, s') ∧
        r_stat (rs_res s') = Some (FileStat u (S (m_clock (rs_fs s))) false).
Proof.
  intros u Hu Hd. destruct s as [r [files clock unreadable watchers]]; simpl in *.
  unfold saveContents, doSaveContents, getFileStat, readContents, uri_of, res_get, res_modify, fs_call.
  cbn [fsc_exists fsc_getFileStat fsc_setContent fsc_createFile fsc_resolveContent mem_client].
  sm_simpl. fold u. destruct (files !! u) as [f|] eqn:Hf; simpl;
    repeat (simpl; first [ rewrite Hf | rewrite lookup_insert_eq | rewrite (Hd f eq_refl)
                         | rewrite (bool_decide_eq_false_2 (u ∈ unreadable)) by done
                         | rewrite bool_decide_eq_false_2 by (intros [? ?]; done) ]);
    eauto.
Qed.

(** ** Witnesses *)

(** [/a.txt] holds [hello]; [/locked.txt] exists but its stat cannot be
    read. *)
Definition demo_fs : mem_fs :=
  MemFS (<["/a.txt" := MFile "hello" 1 false]> (<["/locked.txt" := MFile "x" 1 false]> ∅))
        1 ["/locked.txt"] 0.

Lemma getFileStat_rejection_escapes_witness :
  getFileStat (RState (new_resource "/locked.txt") demo_fs) =
    (throw ("EACCES: " +:+ "/locked.txt"), RState (new_resource "/locked.txt") demo_fs) ∧
  ∀ u fs, fsc_exists u fs = (demo_fs, Ret true) →
          fsc_getFileStat u demo_fs = (demo_fs, throw ("EACCES: " +:+ "/locked.txt")) →
          resolve "file" u fs = (throw ("EACCES: " +:+ "/locked.txt"), demo_fs).
Proof. apply (getFileStat_rejection_escapes (RState (new_resource "/locked.txt") demo_fs)); reflexivity. Defined.

(** [this.stat] is older than the file: [sync()] fires. *)
Definition demo_stale : @rstate mem_fs :=
  RState (set_stat (new_resource "/a.txt") (Some (FileStat "/a.txt" 0 false))) demo_fs.

Lemma sync_reports_changes_witness :
  sync demo_stale = (Ret tt, RState (fire (rs_res demo_stale)) demo_fs).
Proof. apply (sync_reports_changes demo_stale demo_stale (Some (FileStat "/a.txt" 1 false))). reflexivity. Defined.

Lemma save_read_roundtrip_witness :
  ∃ s', (saveContents "new";; readContents) (RState (new_resource "/new.txt") demo_fs) = (Ret "new", s') ∧
        r_stat (rs_res s') = Some (FileStat "/new.txt" 2 false).
Proof.
  apply (save_read_roundtrip (RState (new_resource "/new.txt") demo_fs) "new"); [set_solver |].
  intros f Hf. vm_compute in Hf. discriminate.
Defined.
