(* ===== verification/Services.v ===== *)
(** * [ChatInternalService] and [HashCalculateContribution]

    Two small host-side services:
    - [src/packages/ai-native/src/browser/chat/chat.internal.service.ts]: the
      chat session holder. It keeps the current session model and the latest
      request id, and forwards requests to the chat manager for the current
      session. The chat manager is the class [ChatManager] over an abstract
      state; [mem_chat] is a manager that records what it is asked to do.
    - [src/packages/core-node/src/hash-calculate/hash-calculate.contribution.ts]:
      its [initialize()] awaits the hash service's [initialize()] and
      rethrows a failure with a wrapped message. *)

From S2P Require Import Prelude.
From Stdlib Require Import Ascii Lia.

(** ** ChatInternalService *)
Module Chat.

(** A session is known by its [sessionId]; a request by its id. *)
Definition session_id := nat.
Definition request_id := nat.

(** The [ChatManagerService] methods the service calls. [cm_disposeModel]
    is [ChatModel.dispose()] of a session's model. *)
Class ChatManager (CM : Type) := {
  cm_startSession : CM → CM * session_id;
  cm_clearSession : session_id → CM → CM;
  cm_createRequest : session_id → string → string → option string → CM → CM * option request_id;
  cm_sendRequest : session_id → request_id → bool → CM → CM * outcome unit;
  cm_cancelRequest : session_id → CM → CM;
  cm_disposeModel : session_id → CM → CM
}.

Section Chat.
Context {CM : Type} `{ChatManager CM}.

(** The fields: [_latestRequestId] (initially [undefined]), [#sessionModel]
    by its session id, the ids fired on [onChangeRequestId], and the
    manager's state. *)
Record chat := mkChat {
  c_latestRequestId : option string;
  c_session : session_id;
  c_fired : list string;
  c_cm : CM
}.

(** [constructor()], lines 48-51: start the first session. *)
Definition new_chat (cm : CM) : chat :=
  let '(cm', sid) := cm_startSession cm in mkChat None sid [] cm'.

(** [setLatestRequestId(id)], lines 53-56. *)
Definition setLatestRequestId (c : chat) (id : string) : chat :=
  mkChat (Some id) (c_session c) (c_fired c ++ [id]) (c_cm c).

(** [createRequest], lines 58-60. *)
Definition createRequest (c : chat) (input agentId : string) (command : option string)
    : option request_id * chat :=
  let '(cm', r) := cm_createRequest (c_session c) input agentId command (c_cm c) in
  (r, mkChat (c_latestRequestId c) (c_session c) (c_fired c) cm').

(** [sendRequest], lines 62-64; [regenerate] defaults to [false]. *)
Definition sendRequest (c : chat) (req : request_id) (regenerate : bool) : outcome unit * chat :=
  let '(cm', o) := cm_sendRequest (c_session c) req regenerate (c_cm c) in
  (o, mkChat (c_latestRequestId c) (c_session c) (c_fired c) cm').

(** [cancelRequest], lines 66-68. *)
Definition cancelRequest (c : chat) : chat :=
  mkChat (c_latestRequestId c) (c_session c) (c_fired c) (cm_cancelRequest (c_session c) (c_cm c)).

(** [clearSessionModel], lines 70-73: clear the current session in the
    manager, then start a new one. *)
Definition clearSessionModel (c : chat) : chat :=
  let cm1 := cm_clearSession (c_session c) (c_cm c) in
  let '(cm2, sid) := cm_startSession cm1 in
  mkChat (c_latestRequestId c) sid (c_fired c) cm2.

(** [dispose()], lines 75-78: dispose the session model; the manager's
    session itself is not cleared. *)
Definition dispose_chat (c : chat) : chat :=
  mkChat (c_latestRequestId c) (c_session c) (c_fired c) (cm_disposeModel (c_session c) (c_cm c)).
End Chat.

(** A manager that hands out fresh session ids, keeps the live ones, and
    records the requests it creates and the models disposed. *)
Record mem_chat := MemChat {
  mc_next : nat;
  mc_live : list session_id;
  mc_requests : list (session_id * string);
  mc_disposed : list session_id
}.

#[export] Instance mem_chat_manager : ChatManager mem_chat := {
  cm_startSession m := (MemChat (S (mc_next m)) (mc_live m ++ [mc_next m]) (mc_requests m) (mc_disposed m),
                        mc_next m);
  cm_clearSession sid m :=
    MemChat (mc_next m) (filter (λ x, x ≠ sid) (mc_live m)) (mc_requests m) (mc_disposed m);
  cm_createRequest sid input _ _ m :=
    if bool_decide (sid ∈ mc_live m)
    then (MemChat (mc_next m) (mc_live m) (mc_requests m ++ [(sid, input)]) (mc_disposed m),
          Some (length (mc_requests m)))
    else (m, None);
  cm_sendRequest sid _ _ m := (m, if bool_decide (sid ∈ mc_live m) then Ret tt else throw "no session");
  cm_cancelRequest _ m := m;
  cm_disposeModel sid m := MemChat (mc_next m) (mc_live m) (mc_requests m) (mc_disposed m ++ [sid])
}.

(** Any sequence of calls to the service. *)
Inductive chat_op :=
| ChSetLatestRequestId (id : string)
| ChCreateRequest (input agentId : string) (command : option string)
| ChSendRequest (req : request_id) (regenerate : bool)
| ChCancelRequest
| ChClearSessionModel
| ChDispose.

Definition chat_step (c : chat (CM:=mem_chat)) (op : chat_op) : chat :=
  match op with
  | ChSetLatestRequestId id => setLatestRequestId c id
  | ChCreateRequest i a cmd => (createRequest c i a cmd).2
  | ChSendRequest r g => (sendRequest c r g).2
  | ChCancelRequest => cancelRequest c
  | ChClearSessionModel => clearSessionModel c
  | ChDispose => dispose_chat c
  end.

Definition chat_run (c : chat) (ops : list chat_op) : chat := foldl chat_step c ops.

(** The service's session is the one live session of its manager, and its
    id was handed out by the manager. *)
Definition chat_inv (c : chat (CM:=mem_chat)) : Prop :=
  mc_live (c_cm c) = [c_session c] ∧ c_session c < mc_next (c_cm c).

Lemma new_chat_inv : chat_inv (new_chat (MemChat 0 [] [] [])).
Proof. split; simpl; [done | lia]. Qed.

Lemma chat_step_inv c op : chat_inv c → chat_inv (chat_step c op).
Proof.
  destruct c as [l sid f [n live reqs disp]]; intros [Hl Hn]; simpl in *; subst live.
  destruct op; simpl; try (split; simpl; done).
  - unfold createRequest; simpl. rewrite bool_decide_eq_true_2 by set_solver. split; simpl; [done | lia].
  - split; simpl; [| lia]. rewrite filter_cons_False by tauto. done.
Qed.

Lemma chat_run_inv c ops : chat_inv c → chat_inv (chat_run c ops).
Proof. revert c. induction ops as [|op t IH]; intros c Hc; simpl; [done |]. apply IH, chat_step_inv, Hc. Qed.

(** When the invariant holds, which it does after any sequence of calls
    from a fresh manager ([chat_run_inv]), [createRequest] reaches a live
    session. The manager records the request under the service's current
    session. *)
Lemma createRequest_current (c : chat (CM:=mem_chat)) input agentId command :
  chat_inv c →
  ∃ r, (createRequest c input agentId command).1 = Some r ∧
       mc_requests (c_cm (createRequest c input agentId command).2) =
         mc_requests (c_cm c) ++ [(c_session c, input)].
Proof.
  destruct c as [l sid f [n live reqs disp]]; intros [Hl _]; simpl in *; subst live.
  unfold createRequest; simpl. rewrite bool_decide_eq_true_2 by set_solver. eauto.
Qed.

(** [clearSessionModel()] ends the current session and starts a fresh one,
    whose id is larger than every id handed out before. *)
Lemma clearSessionModel_fresh (c : chat (CM:=mem_chat)) :
  chat_inv c →
  c_session (clearSessionModel c) = mc_next (c_cm c) ∧
  (c_session c ∉ mc_live (c_cm (clearSessionModel c))) ∧
  c_session c < c_session (clearSessionModel c).
Proof.
  destruct c as [l sid f [n live reqs disp]]; intros [Hl Hn]; simpl in *; subst live.
  rewrite filter_cons_False by tauto. simpl.
  split_and!; [done | rewrite list_elem_of_singleton; lia | lia].
Qed.

(** [dispose()] disposes the session model but leaves the session live in
    the manager, and the service keeps forwarding requests to it. *)
Lemma dispose_keeps_session (c : chat (CM:=mem_chat)) input agentId command :
  chat_inv c →
  c_session (dispose_chat c) ∈ mc_live (c_cm (dispose_chat c)) ∧
  c_session (dispose_chat c) ∈ mc_disposed (c_cm (dispose_chat c)) ∧
  is_Some (createRequest (dispose_chat c) input agentId command).1.
Proof.
  destruct c as [l sid f [n live reqs disp]]; intros [Hl _]; simpl in *; subst live.
  unfold createRequest; simpl. rewrite bool_decide_eq_true_2 by set_solver.
  split_and!; [set_solver | set_solver | eauto].
Qed.

End Chat.

(** ** HashCalculateContribution *)
Module HashCalculate.

Definition newline : string := String (ascii_of_nat 10) EmptyString.

(** The message of [new Error(`hashCalculateService init fail: \n ${err.message}`)]. *)
Definition init_fail_message (msg : string) : js_error :=
  "hashCalculateService init fail: " +:+ newline +:+ " " +:+ msg.

(** [initialize()], lines 12-18, given the outcome of
    [hashCalculateService.initialize()]. *)
Definition initialize (service_init : outcome unit) : outcome unit :=
  match service_init with
  | Ret _ => Ret tt
  | Throw m => throw (init_fail_message m)
  end.

(** [initialize()] resolves exactly when the hash service does. A failure
    is rethrown with the service's message after a fixed prefix. *)
Lemma initialize_spec o :
  initialize o = match o with Ret _ => Ret tt | Throw m => throw (init_fail_message m) end.
Proof. by destruct o. Qed.

End HashCalculate.
